(** * Tidy page translator: segmentation, cache, request pool, retry, reassembly

    A shallow embedding of the translation core of the content script
    (class [TranslationPool] and the segmentation, cache, retry and
    reassembly methods of class [TranslationController]), followed by the
    properties established about it.

    JavaScript strings are sequences of UTF-16 code units; they are modelled
    as lists of code units.  JavaScript numbers that hold integers are
    modelled in [Z]; array lengths and indexes that are never negative are
    modelled in [nat]. *)

From Stdlib Require Import String Ascii.
From Stdlib Require Import List ZArith NArith QArith Lia Bool Arith.
From Stdlib Require Floats Uint63.
Import ListNotations.
Close Scope Q_scope.

Set Implicit Arguments.
Set Warnings "-register-all".

(* ===================================================================== *)
(** * Part I: the model                                                    *)
(* ===================================================================== *)

(** ** JavaScript strings *)

Module JS.

Abbreviation jsstring := (list N).

(** An ASCII literal as a JavaScript string. *)
Definition lit (s : string) : jsstring :=
  map N_of_ascii (list_ascii_of_string s).

Definition code_eqb (a b : N) : bool := N.eqb a b.

Fixpoint str_eqb (a b : jsstring) : bool :=
  match a, b with
  | [], [] => true
  | x :: a', y :: b' => N.eqb x y && str_eqb a' b'
  | _, _ => false
  end.

(** WhiteSpace and LineTerminator code units: what [String.prototype.trim]
    strips and what the regular expression class [\s] matches. *)
Definition isWhiteSpace (c : N) : bool :=
  (c =? 9)%N || (c =? 10)%N || (c =? 11)%N || (c =? 12)%N || (c =? 13)%N
  || (c =? 32)%N || (c =? 160)%N || (c =? 0x1680)%N
  || ((0x2000 <=? c)%N && (c <=? 0x200a)%N)
  || (c =? 0x2028)%N || (c =? 0x2029)%N || (c =? 0x202f)%N
  || (c =? 0x205f)%N || (c =? 0x3000)%N || (c =? 0xfeff)%N.

Fixpoint trimStart (s : jsstring) : jsstring :=
  match s with
  | [] => []
  | c :: r => if isWhiteSpace c then trimStart r else s
  end.

Definition trimEnd (s : jsstring) : jsstring := rev (trimStart (rev s)).

(** [s.trim()] *)
Definition trim (s : jsstring) : jsstring := trimEnd (trimStart s).

(** [s.split(/\s+/)]: every maximal run of white space is one separator; a
    run at the start or at the end leaves an empty string there, and the
    empty string splits into one empty string. *)
Fixpoint split_ws (s : jsstring) : list jsstring :=
  match s with
  | [] => [[]]
  | c :: r =>
      if isWhiteSpace c then
        match r with
        | c' :: _ => if isWhiteSpace c' then split_ws r else [] :: split_ws r
        | [] => [] :: split_ws r
        end
      else
        match split_ws r with
        | h :: t => (c :: h) :: t
        | [] => [[c]]
        end
  end.

(** [s.split(re)] for a regular expression [re] that is a class of single
    code units: every matching code unit is one separator. *)
Fixpoint split_class (isSep : N -> bool) (s : jsstring) : list jsstring :=
  match s with
  | [] => [[]]
  | c :: r =>
      if isSep c then [] :: split_class isSep r
      else
        match split_class isSep r with
        | h :: t => (c :: h) :: t
        | [] => [[c]]
        end
  end.

Fixpoint startsWith (s p : jsstring) : bool :=
  match p, s with
  | [], _ => true
  | a :: p', b :: s' => N.eqb a b && startsWith s' p'
  | _ :: _, [] => false
  end.

(** [s.includes(p)] *)
Fixpoint includes (s p : jsstring) : bool :=
  startsWith s p ||
  match s with
  | [] => false
  | _ :: r => includes r p
  end.

(** [arr.includes(w)] on an array of strings. *)
Definition arr_includes (arr : list jsstring) (w : jsstring) : bool :=
  existsb (str_eqb w) arr.

(** Index clamping of [substring]: below 0 is 0, above the length is the
    length. *)
Definition clamp (len : nat) (i : Z) : nat :=
  Nat.min (Z.to_nat i) len.

(** [s.substring(a, b)] *)
Definition substring (s : jsstring) (a b : Z) : jsstring :=
  let a' := clamp (length s) a in
  let b' := clamp (length s) b in
  let lo := Nat.min a' b' in
  let hi := Nat.max a' b' in
  firstn (hi - lo) (skipn lo s).

(** [s.substring(a)] *)
Definition substring_from (s : jsstring) (a : Z) : jsstring :=
  skipn (clamp (length s) a) s.

(** [arr.join(sep)] *)
Fixpoint join (sep : jsstring) (arr : list jsstring) : jsstring :=
  match arr with
  | [] => []
  | [x] => x
  | x :: rest => x ++ sep ++ join sep rest
  end.

(** [ToInt32]: the value modulo 2^32, read as a signed 32-bit integer. *)
Definition toInt32 (z : Z) : Z :=
  let m := (z mod 2 ^ 32)%Z in
  if (m <? 2 ^ 31)%Z then m else (m - 2 ^ 32)%Z.

(** [a << k] *)
Definition shl32 (a k : Z) : Z := toInt32 (Z.shiftl (toInt32 a) (k mod 32)).

(** [a & b] *)
Definition and32 (a b : Z) : Z := toInt32 (Z.land (toInt32 a) (toInt32 b)).

(** One digit of a radix-36 numeral: [0-9a-z]. *)
Definition digit36 (d : Z) : N :=
  if (d <? 10)%Z then Z.to_N (48 + d) else Z.to_N (87 + d).

Fixpoint digits36 (fuel : nat) (n : Z) (acc : jsstring) : jsstring :=
  match fuel with
  | O => acc
  | S fuel' =>
      let acc' := digit36 (n mod 36) :: acc in
      if (n / 36 =? 0)%Z then acc' else digits36 fuel' (n / 36) acc'
  end.

(** [n.toString(36)] for an integer [n]; 64 digits are enough for any
    integer a double can hold exactly, and a 32-bit one needs at most 7. *)
Definition toString36 (n : Z) : jsstring :=
  if (n <? 0)%Z then 45%N :: digits36 64 (- n) [] else digits36 64 n [].

Definition hexdigit (d : N) : N :=
  if (d <? 10)%N then (48 + d)%N else (87 + d)%N.

(** The [\uXXXX] escape of one code unit, in lower-case hexadecimal. *)
Definition unicodeEscape (c : N) : jsstring :=
  [92; 117;
   hexdigit ((c / 4096) mod 16); hexdigit ((c / 256) mod 16);
   hexdigit ((c / 16) mod 16); hexdigit (c mod 16)]%N.

Definition isLeadSurrogate (c : N) : bool := (0xd800 <=? c)%N && (c <=? 0xdbff)%N.
Definition isTrailSurrogate (c : N) : bool := (0xdc00 <=? c)%N && (c <=? 0xdfff)%N.

(** The body of [QuoteJSONString]: the short escapes, [\u00XX] for the other
    control characters, [\uDXXX] for a surrogate that is not part of a pair. *)
Fixpoint quoteJSONBody (s : jsstring) : jsstring :=
  match s with
  | [] => []
  | c :: r =>
      if (c =? 8)%N then lit "\b" ++ quoteJSONBody r
      else if (c =? 9)%N then lit "\t" ++ quoteJSONBody r
      else if (c =? 10)%N then lit "\n" ++ quoteJSONBody r
      else if (c =? 12)%N then lit "\f" ++ quoteJSONBody r
      else if (c =? 13)%N then lit "\r" ++ quoteJSONBody r
      else if (c =? 34)%N then [92; 34]%N ++ quoteJSONBody r
      else if (c =? 92)%N then [92; 92]%N ++ quoteJSONBody r
      else if (c <? 32)%N then unicodeEscape c ++ quoteJSONBody r
      else if isLeadSurrogate c then
        match r with
        | d :: r' =>
            if isTrailSurrogate d then c :: d :: quoteJSONBody r'
            else unicodeEscape c ++ quoteJSONBody r
        | [] => unicodeEscape c
        end
      else if isTrailSurrogate c then unicodeEscape c ++ quoteJSONBody r
      else c :: quoteJSONBody r
  end.

Definition quoteJSON (s : jsstring) : jsstring :=
  34%N :: quoteJSONBody s ++ [34%N].

(** [JSON.stringify] of an object whose property values are strings or
    [undefined] ([None]): properties in insertion order, an [undefined]
    property left out. *)
Definition stringifyProps (props : list (jsstring * option jsstring)) : jsstring :=
  let present :=
    flat_map (fun kv =>
                match snd kv with
                | Some v => [quoteJSON (fst kv) ++ [58%N] ++ quoteJSON v]
                | None => []
                end) props in
  123%N :: join [44%N] present ++ [125%N].

End JS.

Import JS.

(** ** The request pool: class [TranslationPool] *)

Module Pool.

Section WithTask.

(** The thunk of a task (with the settle callbacks of its promise). *)
Variable TaskFn : Type.

Record Task := mkTask { taskFn : TaskFn; timestamp : Z }.

(** The fields of the pool object, and the two pieces of control state the
    event loop holds for it: [running], the invocations of [processQueue]
    suspended at an [await] (each with the task it took), and [timers], the
    number of pending [setTimeout(() => this.processQueue(), 10)]. *)
Record t := mk {
  maxConcurrency : Z;
  requestDelay : Z;
  activeRequests : Z;
  queue : list Task;
  completed : Z;
  failed : Z;
  startTime : option Z;
  running : list Task;
  timers : nat
}.

(** [new TranslationPool(maxConcurrency, requestDelay)] *)
Definition constructor (maxC delay : Z) : t :=
  {| maxConcurrency := maxC; requestDelay := delay; activeRequests := 0;
     queue := []; completed := 0; failed := 0; startTime := None;
     running := []; timers := 0 |}.

(** [processQueue()], up to its first [await]: the guard, the [shift], the
    increment and the start time. *)
Definition processQueue (now : Z) (p : t) : t :=
  if (maxConcurrency p <=? activeRequests p)%Z || (length (queue p) =? 0)%nat
  then p
  else
    match queue p with
    | [] => p
    | task :: rest =>
        let active := (activeRequests p + 1)%Z in
        {| maxConcurrency := maxConcurrency p;
           requestDelay := requestDelay p;
           activeRequests := active;
           queue := rest;
           completed := completed p;
           failed := failed p;
           startTime :=
             match startTime p with
             | Some s => Some s
             | None => if (active =? 1)%Z then Some now else None
             end;
           running := running p ++ [task];
           timers := timers p |}
    end.

(** [addTask(taskFn)] at time [now]. *)
Definition addTask (f : TaskFn) (now : Z) (p : t) : t :=
  processQueue now
    {| maxConcurrency := maxConcurrency p;
       requestDelay := requestDelay p;
       activeRequests := activeRequests p;
       queue := queue p ++ [mkTask f now];
       completed := completed p;
       failed := failed p;
       startTime := startTime p;
       running := running p;
       timers := timers p |}.

Fixpoint remove_nth (A : Type) (i : nat) (l : list A) : list A :=
  match i, l with
  | _, [] => []
  | O, _ :: r => r
  | S i', x :: r => x :: remove_nth i' r
  end.

(** The rest of [processQueue] for the [i]-th suspended invocation, run
    when its task settles: [completed++] or [failed++], then the [finally]
    block. *)
Definition settle (i : nat) (ok : bool) (p : t) : t :=
  if (i <? length (running p))%nat then
    {| maxConcurrency := maxConcurrency p;
       requestDelay := requestDelay p;
       activeRequests := (activeRequests p - 1)%Z;
       queue := queue p;
       completed := if ok then (completed p + 1)%Z else completed p;
       failed := if ok then failed p else (failed p + 1)%Z;
       startTime := startTime p;
       running := remove_nth i (running p);
       timers := S (timers p) |}
  else p.

(** A pending 10 ms timer fires. *)
Definition timer (now : Z) (p : t) : t :=
  match timers p with
  | O => p
  | S n =>
      processQueue now
        {| maxConcurrency := maxConcurrency p;
           requestDelay := requestDelay p;
           activeRequests := activeRequests p;
           queue := queue p;
           completed := completed p;
           failed := failed p;
           startTime := startTime p;
           running := running p;
           timers := n |}
  end.

(** [reset()] *)
Definition reset (p : t) : t :=
  {| maxConcurrency := maxConcurrency p;
     requestDelay := requestDelay p;
     activeRequests := activeRequests p;
     queue := queue p;
     completed := 0;
     failed := 0;
     startTime := None;
     running := running p;
     timers := timers p |}.

(** [clear()]: the queued tasks are rejected and dropped. *)
Definition clear (p : t) : t :=
  reset
    {| maxConcurrency := maxConcurrency p;
       requestDelay := requestDelay p;
       activeRequests := activeRequests p;
       queue := [];
       completed := completed p;
       failed := failed p;
       startTime := startTime p;
       running := running p;
       timers := timers p |}.

(** [setConcurrency(n)] *)
Definition setConcurrency (n : Z) (now : Z) (p : t) : t :=
  processQueue now
    {| maxConcurrency := Z.max 1 (Z.min n 10);
       requestDelay := requestDelay p;
       activeRequests := activeRequests p;
       queue := queue p;
       completed := completed p;
       failed := failed p;
       startTime := startTime p;
       running := running p;
       timers := timers p |}.

(** [setRequestDelay(delay)] *)
Definition setRequestDelay (delay : Z) (p : t) : t :=
  {| maxConcurrency := maxConcurrency p;
     requestDelay := Z.max 0 delay;
     activeRequests := activeRequests p;
     queue := queue p;
     completed := completed p;
     failed := failed p;
     startTime := startTime p;
     running := running p;
     timers := timers p |}.

(** What can happen to a pool whose concurrency limit is left alone. *)
Inductive Event :=
| EvAddTask (f : TaskFn) (now : Z)
| EvSettle (i : nat) (ok : bool)
| EvTimer (now : Z)
| EvReset
| EvClear
| EvSetRequestDelay (delay : Z).

Definition step (p : t) (e : Event) : t :=
  match e with
  | EvAddTask f now => addTask f now p
  | EvSettle i ok => settle i ok p
  | EvTimer now => timer now p
  | EvReset => reset p
  | EvClear => clear p
  | EvSetRequestDelay d => setRequestDelay d p
  end.

Definition run (p : t) (evs : list Event) : t := fold_left step evs p.

End WithTask.

End Pool.

(** ** The cache store: [translationCache] and its methods *)

Module Cache.

Record Settings := mkSettings {
  aiModel : option jsstring;
  targetLanguage : option jsstring;
  sourceLanguage : option jsstring
}.

Record Entry := mkEntry {
  translation : jsstring;
  timestamp : Z;
  accessCount : Z;
  lastAccess : option Z
}.

(** A [Map] with string keys: the entries in insertion order. *)
Definition JSMap := list (jsstring * Entry).

Fixpoint map_get (k : jsstring) (m : JSMap) : option Entry :=
  match m with
  | [] => None
  | (k', v) :: r => if str_eqb k k' then Some v else map_get k r
  end.

(** [m.set(k, v)]: a present key keeps its place, a new one goes last. *)
Fixpoint map_set (k : jsstring) (v : Entry) (m : JSMap) : JSMap :=
  match m with
  | [] => [(k, v)]
  | (k', v') :: r =>
      if str_eqb k k' then (k, v) :: r else (k', v') :: map_set k v r
  end.

Fixpoint map_delete (k : jsstring) (m : JSMap) : JSMap :=
  match m with
  | [] => []
  | (k', v') :: r =>
      if str_eqb k k' then r else (k', v') :: map_delete k r
  end.

Definition map_keys (m : JSMap) : list jsstring := map fst m.

(** The cache fields of the controller. *)
Record t := mk {
  translationCache : JSMap;
  cacheMaxSize : nat;
  cacheHitCount : Z;
  cacheMissCount : Z
}.

(** The cache fields as the constructor of the controller sets them. *)
Definition constructor : t :=
  {| translationCache := []; cacheMaxSize := 1000;
     cacheHitCount := 0; cacheMissCount := 0 |}.

Definition hashStep (hash : Z) (char : N) : Z :=
  let hash1 := (shl32 hash 5 - hash + Z.of_N char)%Z in
  and32 hash1 hash1.

(** [generateCacheKey(text, settings)] *)
Definition generateCacheKey (text : jsstring) (settings : Settings) : jsstring :=
  let str :=
    stringifyProps
      [(lit "text", Some (trim text));
       (lit "aiModel", aiModel settings);
       (lit "targetLanguage", targetLanguage settings);
       (lit "sourceLanguage", sourceLanguage settings)] in
  toString36 (fold_left hashStep str 0%Z).

(** The loop of [cleanupTranslationCache]: delete [keys[0]], [keys[1]], ... *)
Definition delete_keys (ks : list jsstring) (m : JSMap) : JSMap :=
  fold_left (fun m k => map_delete k m) ks m.

(** [cleanupTranslationCache()] *)
Definition cleanupTranslationCache (c : t) : t :=
  if (cacheMaxSize c <? length (translationCache c))%nat then
    let entriesToDelete := (length (translationCache c) - cacheMaxSize c)%nat in
    let keys := map_keys (translationCache c) in
    {| translationCache := delete_keys (firstn entriesToDelete keys) (translationCache c);
       cacheMaxSize := cacheMaxSize c;
       cacheHitCount := cacheHitCount c;
       cacheMissCount := cacheMissCount c |}
  else c.

(** [cacheTranslation(text, settings, translation)] at time [now]. *)
Definition cacheTranslation (text : jsstring) (settings : Settings)
    (tr : jsstring) (now : Z) (c : t) : t :=
  let key := generateCacheKey text settings in
  let c1 :=
    {| translationCache :=
         map_set key {| translation := tr; timestamp := now;
                        accessCount := 1; lastAccess := None |}
                 (translationCache c);
       cacheMaxSize := cacheMaxSize c;
       cacheHitCount := cacheHitCount c;
       cacheMissCount := cacheMissCount c |} in
  if (cacheMaxSize c1 <? length (translationCache c1))%nat
  then cleanupTranslationCache c1
  else c1.

(** [getCachedTranslation(text, settings)] at time [now]: the result
    ([None] is [null]) and the cache with its statistics updated. *)
Definition getCachedTranslation (text : jsstring) (settings : Settings)
    (now : Z) (c : t) : option jsstring * t :=
  let key := generateCacheKey text settings in
  match map_get key (translationCache c) with
  | Some cached =>
      (Some (translation cached),
       {| translationCache :=
            map_set key {| translation := translation cached;
                           timestamp := timestamp cached;
                           accessCount := (accessCount cached + 1)%Z;
                           lastAccess := Some now |}
                    (translationCache c);
          cacheMaxSize := cacheMaxSize c;
          cacheHitCount := (cacheHitCount c + 1)%Z;
          cacheMissCount := cacheMissCount c |})
  | None =>
      (None,
       {| translationCache := translationCache c;
          cacheMaxSize := cacheMaxSize c;
          cacheHitCount := cacheHitCount c;
          cacheMissCount := (cacheMissCount c + 1)%Z |})
  end.

(** One [put] of a sequence: the arguments of a call of [cacheTranslation]. *)
Record Put := mkPut {
  put_text : jsstring;
  put_settings : Settings;
  put_translation : jsstring;
  put_now : Z
}.

Definition put (c : t) (p : Put) : t :=
  cacheTranslation (put_text p) (put_settings p) (put_translation p) (put_now p) c.

Definition puts (c : t) (ps : list Put) : t := fold_left put ps c.

End Cache.

(** ** The retry wrapper: [requestTranslationWithAdvancedRetry] *)

Module Retry.

(** The message literals of the source that are not ASCII. *)
Definition msg_context_invalid : jsstring :=   (* 扩展上下文已失效 *)
  [0x6269; 0x5c55; 0x4e0a; 0x4e0b; 0x6587; 0x5df2; 0x5931; 0x6548]%N.
Definition msg_cancelled : jsstring :=         (* 翻译已被取消 *)
  [0x7ffb; 0x8bd1; 0x5df2; 0x88ab; 0x53d6; 0x6d88]%N.
Definition msg_empty_result : jsstring :=      (* 翻译返回空结果 *)
  [0x7ffb; 0x8bd1; 0x8fd4; 0x56de; 0x7a7a; 0x7ed3; 0x679c]%N.
Definition pat_context : jsstring :=           (* 扩展上下文 *)
  [0x6269; 0x5c55; 0x4e0a; 0x4e0b; 0x6587]%N.
Definition pat_timeout_zh : jsstring := [0x8d85; 0x65f6]%N.   (* 超时 *)
Definition pat_quota_zh : jsstring := [0x914d; 0x989d]%N.     (* 配额 *)
Definition pat_network_zh : jsstring := [0x8fde; 0x63a5]%N.   (* 连接 *)
Definition pat_api_zh : jsstring := [0x7ffb; 0x8bd1]%N.       (* 翻译 *)

(** [errorTypes] *)
Inductive ErrorType := NETWORK | API_QUOTA | API_ERROR | TIMEOUT | CONTEXT | UNKNOWN.

Definition maxRetries : nat := 3.
Definition retryDelays : list Q := [1000; 2000; 4000]%Q.

(** How [requestTranslation] settles: with a result ([None] for [null] or
    [undefined]) or with an error carrying a message. *)
Inductive Response :=
| Resolved (result : option jsstring)
| Rejected (message : jsstring).

(** What one pass through the loop body finds: whether [chrome.runtime.id]
    is there, the flag [isTranslating], and what [requestTranslation] does
    if it gets called. *)
Record Attempt := mkAttempt {
  runtimeId : bool;
  isTranslating : bool;
  response : Response
}.

(** How the wrapper ends, and what it did on the way: the passes through
    the loop body, the calls of [requestTranslation], and the delays it
    waited, in order. *)
Inductive Outcome :=
| Returned (result : jsstring)
| Thrown (message : jsstring).

Record Run := mkRun {
  outcome : Outcome;
  attempts : nat;
  calls : nat;
  waits : list Q
}.

(** [shouldRetry(errorType, retryCount)] *)
Definition shouldRetry (errorType : ErrorType) (retryCount : nat) : bool :=
  match errorType with
  | CONTEXT => false
  | API_QUOTA => retryCount <? 2
  | NETWORK | TIMEOUT => retryCount <? maxRetries
  | API_ERROR => retryCount <? 2
  | UNKNOWN => retryCount <? 1
  end.

(** The delay before the next attempt: [retryDelays[attempt]], or the last
    delay where that is missing, doubled for a quota error and times 1.5
    for a network error. *)
Definition retryDelay (errorType : ErrorType) (attempt : nat) : Q :=
  let delay := nth attempt retryDelays (last retryDelays 0%Q) in
  match errorType with
  | API_QUOTA => Qred (delay * 2)
  | NETWORK => Qred (delay * (3 # 2))
  | _ => delay
  end.

(** The [try] block of one pass: the value it returns or the message of the
    error it throws, and whether it called [requestTranslation]. *)
Definition tryBlock (a : Attempt) : (jsstring + jsstring) * bool :=
  if negb (runtimeId a) then (inr msg_context_invalid, false)
  else if negb (isTranslating a) then (inr msg_cancelled, false)
  else
    match response a with
    | Resolved (Some result) =>
        match trim result with
        | [] => (inr msg_empty_result, true)
        | _ :: _ => (inl result, true)
        end
    | Resolved None => (inr msg_empty_result, true)
    | Rejected message => (inr message, true)
    end.

Definition count (b : bool) : nat := if b then 1 else 0.

Section WithLowerCase.

(** [String.prototype.toLowerCase] *)
Variable toLowerCase : jsstring -> jsstring.

(** [classifyError(error)], on the message of the error. *)
Definition classifyError (errorMessage : jsstring) : ErrorType :=
  let message := toLowerCase errorMessage in
  if includes message pat_context || includes message (lit "context invalidated")
  then CONTEXT
  else if includes message (lit "timeout") || includes message pat_timeout_zh
  then TIMEOUT
  else if includes message (lit "quota") || includes message (lit "limit")
          || includes message pat_quota_zh
  then API_QUOTA
  else if includes message (lit "network") || includes message pat_network_zh
          || includes message (lit "fetch")
  then NETWORK
  else if includes message (lit "api") || includes message pat_api_zh
  then API_ERROR
  else UNKNOWN.

(** [env k] is what pass [k] of the loop finds. [retryLoop n attempt] runs
    the passes [attempt], [attempt + 1], ... of which [n] are left; the
    counters and the delays of the earlier passes are in [done]. *)
Variable env : nat -> Attempt.

Fixpoint retryLoop (n attempt : nat) (lastError : option jsstring)
    (done : Run) : Run :=
  match n with
  | O =>
      (* after the loop: throw lastError || new Error(...) *)
      {| outcome := Thrown (match lastError with
                            | Some e => e
                            | None => [0x7ffb; 0x8bd1; 0x5931; 0x8d25; 0xff0c; 0x5df2;
                                       0x8fbe; 0x5230; 0x6700; 0x5927; 0x91cd; 0x8bd5;
                                       0x6b21; 0x6570]%N
                            end);
         attempts := attempts done; calls := calls done; waits := waits done |}
  | S n' =>
      let '(r, called) := tryBlock (env attempt) in
      match r with
      | inl result =>
          {| outcome := Returned result;
             attempts := S (attempts done);
             calls := calls done + count called;
             waits := waits done |}
      | inr error =>
          let errorType := classifyError error in
          if (attempt =? maxRetries) || negb (shouldRetry errorType attempt)
          then
            {| outcome := Thrown error;
               attempts := S (attempts done);
               calls := calls done + count called;
               waits := waits done |}
          else
            retryLoop n' (S attempt) (Some error)
              {| outcome := outcome done;
                 attempts := S (attempts done);
                 calls := calls done + count called;
                 waits := waits done ++ [retryDelay errorType attempt] |}
      end
  end.

(** [requestTranslationWithAdvancedRetry(text, settings)]: the loop
    [for (attempt = 0; attempt <= maxRetries; attempt++)]. *)
Definition requestTranslationWithAdvancedRetry : Run :=
  retryLoop (maxRetries + 1) 0 None
    {| outcome := Thrown []; attempts := 0; calls := 0; waits := [] |}.

End WithLowerCase.

(** Lower case of the letters A to Z, the part of [toLowerCase] that the
    ASCII messages of the examples need. *)
Definition asciiLowerCase (s : jsstring) : jsstring :=
  map (fun c => if (65 <=? c)%N && (c <=? 90)%N then (c + 32)%N else c) s.

End Retry.

(** ** The segment builder: [optimizeContentSegmentation] *)

Module Seg.

(** A content node, with what the builder reads from the page for it:
    [textContent]; [depth], the number of steps [getDepth] counts up to the
    body; [container], the identity of the node [findContentContainer]
    returns.  [eid] is the identity of the node. *)
Record Element := mkElement {
  eid : nat;
  textContent : jsstring;
  depth : nat;
  container : nat
}.

Definition Element_eq_dec (a b : Element) : {a = b} + {a <> b}.
Proof.
  decide equality; try apply Nat.eq_dec.
  apply (list_eq_dec N.eq_dec).
Defined.

(** [a === b] on nodes. *)
Definition Element_eqb (a b : Element) : bool :=
  if Element_eq_dec a b then true else false.

(** The objects the builder makes, by their [type]: [single] and [grouped]
    carry a [container], [merged] its [originalGroups], [split] its
    [originalGroup] and [partIndex]. *)
Inductive Segment :=
| Single (elements : list Element) (text : jsstring) (container : nat)
| Grouped (elements : list Element) (text : jsstring) (container : nat)
| Merged (elements : list Element) (text : jsstring) (originalGroups : list Segment)
| Split (elements : list Element) (text : jsstring) (originalGroup : Segment)
        (partIndex : nat).

(** The values of the field [type]. *)
Inductive SegType := TypeSingle | TypeGrouped | TypeMerged | TypeSplit.

Definition type (s : Segment) : SegType :=
  match s with
  | Single _ _ _ => TypeSingle
  | Grouped _ _ _ => TypeGrouped
  | Merged _ _ _ => TypeMerged
  | Split _ _ _ _ => TypeSplit
  end.

Definition elements (s : Segment) : list Element :=
  match s with
  | Single e _ _ | Grouped e _ _ | Merged e _ _ | Split e _ _ _ => e
  end.

Definition text (s : Segment) : jsstring :=
  match s with
  | Single _ t _ | Grouped _ t _ | Merged _ t _ | Split _ t _ _ => t
  end.

Definition originalGroup (s : Segment) : option Segment :=
  match s with
  | Split _ _ g _ => Some g
  | _ => None
  end.

Definition partIndex (s : Segment) : option nat :=
  match s with
  | Split _ _ _ i => Some i
  | _ => None
  end.

Fixpoint list_eqb (A : Type) (eqb : A -> A -> bool) (l1 l2 : list A) : bool :=
  match l1, l2 with
  | [], [] => true
  | x :: r1, y :: r2 => eqb x y && list_eqb eqb r1 r2
  | _, _ => false
  end.

(** [a === b] on segment objects, decided field by field.  The groups the
    builder hands to [splitLongTextSegments] are objects with node lists
    that are not empty and have no node in common (shown below), so that
    different objects among them also differ in their fields. *)
Fixpoint Segment_eqb (a b : Segment) : bool :=
  match a, b with
  | Single e1 t1 c1, Single e2 t2 c2
  | Grouped e1 t1 c1, Grouped e2 t2 c2 =>
      list_eqb Element_eqb e1 e2 && str_eqb t1 t2 && (c1 =? c2)
  | Merged e1 t1 g1, Merged e2 t2 g2 =>
      list_eqb Element_eqb e1 e2 && str_eqb t1 t2 &&
      (fix groups_eqb (l1 l2 : list Segment) : bool :=
         match l1, l2 with
         | [], [] => true
         | x :: r1, y :: r2 => Segment_eqb x y && groups_eqb r1 r2
         | _, _ => false
         end) g1 g2
  | Split e1 t1 g1 i1, Split e2 t2 g2 i2 =>
      list_eqb Element_eqb e1 e2 && str_eqb t1 t2 && Segment_eqb g1 g2 && (i1 =? i2)
  | _, _ => false
  end.

(** [calculateDOMDistance(element1, element2)] *)
Definition calculateDOMDistance (element1 element2 : Element) : Z :=
  Z.abs (Z.of_nat (depth element1) - Z.of_nat (depth element2)).

Definition Qlt_bool (a b : Q) : bool := negb (Qle_bool b a).

Definition blankLine : jsstring := [10; 10]%N.   (* '\n\n' *)

Definition maxBatchLength : nat := 500.
Definition minSegmentLength : nat := 50.
Definition maxSegmentLength : nat := 1000.

(** The class [[.!?;。！？；]] of [splitIntoSentences]. *)
Definition isSentenceEnder (c : N) : bool :=
  (c =? 46)%N || (c =? 33)%N || (c =? 63)%N || (c =? 59)%N
  || (c =? 0x3002)%N || (c =? 0xff01)%N || (c =? 0xff1f)%N || (c =? 0xff1b)%N.

(** The chunks [text.substring(i, i + chunkSize)] for [i = 0, chunkSize, ...]
    below the length; [fuel] bounds their number. *)
Fixpoint chunksOf (fuel chunkSize : nat) (s : jsstring) : list jsstring :=
  match fuel with
  | O => []
  | S fuel' =>
      match s with
      | [] => []
      | _ :: _ => firstn chunkSize s :: chunksOf fuel' chunkSize (skipn chunkSize s)
      end
  end.

(** [splitIntoSentences(text)] *)
Definition splitIntoSentences (text : jsstring) : list jsstring :=
  let sentences :=
    filter (fun s => 0 <? length (trim s)) (split_class isSentenceEnder text) in
  if (length sentences <? 2) && (500 <? length text)
  then chunksOf (length text) 200 text
  else sentences.

(** The callback of [sentences.forEach] in [splitLongTextSegments]: the
    state is [result] and [currentSegment]. *)
Definition splitSentenceStep (group : Segment)
    (st : list Segment * jsstring) (sentence : jsstring)
    : list Segment * jsstring :=
  let '(result, currentSegment) := st in
  if (maxSegmentLength <? length currentSegment + length sentence)
     && (0 <? length currentSegment)
  then
    (result ++
       [Split (elements group) (trim currentSegment) group
          (length (filter (fun r => match originalGroup r with
                                    | Some g => Segment_eqb g group
                                    | None => false
                                    end) result))],
     sentence)
  else
    (result,
     currentSegment ++ (match currentSegment with [] => [] | _ :: _ => [32%N] end)
       ++ sentence).

(** The callback of [groups.forEach] in [splitLongTextSegments]. *)
Definition splitGroupStep (result : list Segment) (group : Segment) : list Segment :=
  if length (text group) <=? maxSegmentLength then result ++ [group]
  else
    let sentences := splitIntoSentences (text group) in
    let '(result1, currentSegment) :=
      fold_left (splitSentenceStep group) sentences (result, []) in
    match trim currentSegment with
    | [] => result1
    | _ :: _ =>
        result1 ++
          [Split (elements group) (trim currentSegment) group
             (length (filter (fun r => match originalGroup r with
                                       | Some g => Segment_eqb g group
                                       | None => false
                                       end) result1))]
    end.

(** [splitLongTextSegments(groups)] *)
Definition splitLongTextSegments (groups : list Segment) : list Segment :=
  fold_left splitGroupStep groups [].

(** The two places of [mergeShortTextSegments] that close the batch. *)
Definition flushBatch (merged currentBatch : list Segment) : list Segment :=
  match currentBatch with
  | [] => merged
  | [g] => merged ++ [g]
  | _ :: _ :: _ =>
      merged ++
        [Merged (flat_map elements currentBatch)
           (join blankLine (map text currentBatch)) currentBatch]
  end.

(** The callback of [groups.forEach] in [mergeShortTextSegments]: the state
    is [merged], [currentBatch] and [currentBatchLength]. *)
Definition mergeStep (st : list Segment * list Segment * nat) (group : Segment)
    : list Segment * list Segment * nat :=
  let '(merged, currentBatch, currentBatchLength) := st in
  if (length (text group) <? minSegmentLength)
     && (currentBatchLength <? maxBatchLength)
  then (merged, currentBatch ++ [group], currentBatchLength + length (text group))
  else (flushBatch merged currentBatch ++ [group], [], 0).

(** [mergeShortTextSegments(groups)] *)
Definition mergeShortTextSegments (groups : list Segment) : list Segment :=
  let '(merged, currentBatch, _) := fold_left mergeStep groups ([], [], 0) in
  flushBatch merged currentBatch.

Section WithLowerCase.

(** [String.prototype.toLowerCase] *)
Variable toLowerCase : jsstring -> jsstring.

(** [calculateVisualDistance(element1, element2) < 100], as the layout of
    the page and the double arithmetic of [Math.pow] and [Math.sqrt] give
    it for the two nodes; it is false where a bounding box cannot be read,
    the distance being [Infinity] then. *)
Variable visualNear : Element -> Element -> bool.

(** [calculateTextSimilarity(text1, text2)].  The quotient is kept exact:
    its comparison with 0.3 has the result of the comparison of the doubles,
    the two word counts being far below 2^50. *)
Definition calculateTextSimilarity (text1 text2 : jsstring) : Q :=
  let words1 := split_ws (toLowerCase text1) in
  let words2 := split_ws (toLowerCase text2) in
  let commonWords :=
    filter (fun word => (2 <? length word) && arr_includes words2 word) words1 in
  let maxLength := Nat.max (length words1) (length words2) in
  if 0 <? maxLength
  then Z.of_nat (length commonWords) # Pos.of_nat maxLength
  else 0%Q.

(** [areElementsRelated(element1, element2)] *)
Definition areElementsRelated (element1 element2 : Element) : bool :=
  let domDistance := calculateDOMDistance element1 element2 in
  if (3 <? domDistance)%Z then false
  else
    let textSimilarity :=
      calculateTextSimilarity (textContent element1) (textContent element2) in
    (domDistance <=? 2)%Z
    || Qlt_bool (3 # 10) textSimilarity
    || (visualNear element1 element2 && (domDistance <=? 3)%Z).

(** [visited.has(el)] *)
Definition has (visited : list Element) (el : Element) : bool :=
  existsb (Element_eqb el) visited.

(** The callback of [elements.forEach] in [groupElementsByContainer]: the
    state is [groups] and [visited]. *)
Definition groupStep (all : list Element)
    (st : list Segment * list Element) (element : Element)
    : list Segment * list Element :=
  let '(groups, visited) := st in
  if has visited element then st
  else
    let relatedElements :=
      filter (fun el => negb (has visited el)
                        && (container el =? container element)
                        && areElementsRelated element el) all in
    if 1 <? length relatedElements then
      let combinedText :=
        join blankLine
          (filter (fun t => 0 <? length t)
             (map (fun el => trim (textContent el)) relatedElements)) in
      if 0 <? length combinedText
      then (groups ++ [Grouped relatedElements combinedText (container element)],
            visited ++ relatedElements)
      else st
    else if negb (has visited element) then
      let text := trim (textContent element) in
      if 0 <? length text
      then (groups ++ [Single [element] text (container element)],
            visited ++ [element])
      else st
    else st.

(** [groupElementsByContainer(elements)] *)
Definition groupElementsByContainer (elements : list Element) : list Segment :=
  fst (fold_left (groupStep elements) elements ([], [])).

(** [optimizeContentSegmentation(elements)] *)
Definition optimizeContentSegmentation (elements : list Element) : list Segment :=
  let groupedElements := groupElementsByContainer elements in
  let mergedGroups := mergeShortTextSegments groupedElements in
  splitLongTextSegments mergedGroups.

End WithLowerCase.

(** The layout of a page on which no two content nodes have their centres
    less than 100 px apart. *)
Definition farApart : Element -> Element -> bool := fun _ _ => false.

End Seg.

(** ** Reassembly: sharing one translation among the members of a segment *)

Module Reassembly.

(** The class [[.!?。！？]] of [findSuitableCutPoint]. *)
Definition isSentenceEnder (c : N) : bool :=
  (c =? 46)%N || (c =? 33)%N || (c =? 63)%N
  || (c =? 0x3002)%N || (c =? 0xff01)%N || (c =? 0xff1f)%N.

(** [text[i]]; [None] is [undefined]. *)
Definition charAt (text : jsstring) (i : Z) : option N :=
  if (i <? 0)%Z then None else nth_error text (Z.to_nat i).

(** The body shared by the two search loops: a candidate index that
    qualifies and is strictly nearer to the target than the best so far
    becomes the best.  The state is [bestCut] and [minDistance], [None]
    being [Infinity]. *)
Definition consider (qualifies : Z -> bool) (cutAt : Z -> Z) (targetLength : Z)
    (st : Z * option Z) (index : Z) : Z * option Z :=
  if qualifies index then
    let distance := Z.abs (index - targetLength) in
    match snd st with
    | Some minDistance =>
        if (distance <? minDistance)%Z then (cutAt index, Some distance) else st
    | None => (cutAt index, Some distance)
    end
  else st.

(** The indexes [from], [from + 1], ..., [to]. *)
Definition range (from to : Z) : list Z :=
  map (fun k => (from + Z.of_nat k)%Z) (seq 0 (Z.to_nat (to - from + 1))).

(** The indexes at which the regular expression matches, in order. *)
Definition matchIndexes (text : jsstring) : list Z :=
  filter (fun i => match charAt text i with
                   | Some c => isSentenceEnder c
                   | None => false
                   end)
         (range 0 (Z.of_nat (length text) - 1)).

(** [findSuitableCutPoint(text, targetLength)].  [Math.floor(text.length *
    0.1)] is the integer quotient of the length by 10: the double 0.1 is a
    little above one tenth, and the product is rounded to a double that is
    not below the integer when the length is a multiple of 10. *)
Definition findSuitableCutPoint (text : jsstring) (targetLength : Z) : Z :=
  let len := Z.of_nat (length text) in
  if (len <=? targetLength)%Z then len
  else
    let searchRange := Z.min 50 (len / 10) in
    let startSearch := Z.max 0 (targetLength - searchRange) in
    let endSearch := Z.min len (targetLength + searchRange) in
    let '(bestCut, minDistance) :=
      fold_left
        (consider (fun index => (startSearch <=? index)%Z && (index <=? endSearch)%Z)
                  (fun index => (index + 1)%Z) targetLength)
        (matchIndexes text) (targetLength, None) in
    match minDistance with
    | Some _ => bestCut
    | None =>
        fst (fold_left
               (consider (fun i => match charAt text i with
                                   | Some c => (c =? 32)%N || (c =? 10)%N
                                   | None => false
                                   end)
                         (fun i => i) targetLength)
               (range startSearch endSearch) (bestCut, minDistance))
    end.

Section WithRound.

(** [roundRatio L a T] is [Math.round(L * (a / T))] for the lengths [L],
    [a] and [T > 0], as double arithmetic computes it. *)
Variable roundRatio : nat -> nat -> nat -> Z.

(** The loop of [splitTranslationByRatio] from index [i] on: [originalTexts]
    is what is left of the array and [remainingTranslation] the variable of
    that name. *)
Fixpoint ratioLoop (translationLength totalLength : nat)
    (originalTexts : list jsstring) (remainingTranslation : jsstring)
    : list jsstring :=
  match originalTexts with
  | [] => []
  | [_] => [remainingTranslation]
  | text :: (_ :: _) as rest =>
      let partLength := roundRatio translationLength (length text) totalLength in
      let cutPoint := findSuitableCutPoint remainingTranslation partLength in
      substring remainingTranslation 0 cutPoint
        :: ratioLoop translationLength totalLength rest
             (substring_from remainingTranslation cutPoint)
  end.

(** [splitTranslationByRatio(translation, originalTexts)] *)
Definition splitTranslationByRatio (translation : jsstring)
    (originalTexts : list jsstring) : list jsstring :=
  let totalLength := fold_left (fun sum text => sum + length text) originalTexts 0 in
  if totalLength =? 0 then [translation]
  else ratioLoop (length translation) totalLength originalTexts translation.

End WithRound.

(** A length as a Number: exact, lengths being far below 2^53. *)
Definition ofLength (n : nat) : PrimFloat.float :=
  PrimFloat.of_uint63 (Uint63.of_Z (Z.of_nat n)).

(** [Math.round(x)] for a finite double [x]: the integer nearest to the
    value of [x], a half rounding up.  A double is its mantissa times a
    power of two.  A zero gives 0; so do here NaN and the infinities, which
    a share of a length never is, the total length being positive. *)
Definition mathRound (x : PrimFloat.float) : Z :=
  match FloatOps.Prim2SF x with
  | SpecFloat.S754_finite false m e =>
      if (0 <=? e)%Z then (Z.pos m * 2 ^ e)%Z
      else ((2 * Z.pos m + 2 ^ (- e)) / (2 * 2 ^ (- e)))%Z
  | SpecFloat.S754_finite true m e =>
      if (0 <=? e)%Z then (- (Z.pos m * 2 ^ e))%Z
      else ((- 2 * Z.pos m + 2 ^ (- e)) / (2 * 2 ^ (- e)))%Z
  | _ => 0%Z
  end.

(** [Math.round(L * (a / T))] as the code computes it: the quotient and
    the product are those of IEEE 754 double arithmetic. *)
Definition doubleRoundRatio (L a T : nat) : Z :=
  mathRound (PrimFloat.mul (ofLength L) (PrimFloat.div (ofLength a) (ofLength T))).

End Reassembly.

(** ** Reassembly onto the page, and the dispatch of [translatePage] *)

Module Job.

(** What the page shows in a node: its own content; a translation written
    by [applyTranslation]; the container [applySplitTranslation] makes,
    with the original text as its title and the translated parts appended
    so far; or nothing, the node having left the page when the content of
    a node around it was replaced. *)
Inductive Content :=
| Original
| Translated (originalText translation : jsstring)
| SplitContainer (originalTitle : jsstring) (parts : list jsstring)
| Removed.

Definition Dom := Seg.Element -> Content.

Definition isSplitContainer (c : Content) : bool :=
  match c with
  | SplitContainer _ _ => true
  | _ => false
  end.

(** [translation.split(/\n\n+/)]: every run of two or more line feeds is
    one separator.  [inrun] says that the line feeds before [s] belong to a
    separator. *)
Fixpoint split_paragraphs (inrun : bool) (s : jsstring) : list jsstring :=
  match s with
  | [] => [[]]
  | c :: r =>
      if inrun && (c =? 10)%N then split_paragraphs true r
      else if (c =? 10)%N && (match r with d :: _ => (d =? 10)%N | [] => false end)
      then [] :: split_paragraphs true r
      else
        match split_paragraphs false r with
        | h :: t => (c :: h) :: t
        | [] => [[c]]
        end
  end.

Section WithPage.

Variable roundRatio : nat -> nat -> nat -> Z.

(** [inside x element]: in the tree of the page, the node [x] lies inside
    the node [element]. *)
Variable inside : Seg.Element -> Seg.Element -> bool.

(** The content nodes of the page, in document order. *)
Variable nodes : list Seg.Element.

(** [element.textContent], on the page in the given state. *)
Variable textContentOf : Dom -> Seg.Element -> jsstring.

(** [element.innerHTML = ''] or [element.textContent = ...], followed by
    the new children of the node: what the node held is replaced, and the
    nodes inside it leave the page.  What is written to a node that has
    left the page does not show on the page. *)
Definition write (dom : Dom) (element : Seg.Element) (c : Content) : Dom :=
  match dom element with
  | Removed => dom
  | _ =>
      fun x =>
        if Seg.Element_eqb x element then c
        else if inside x element then Removed
        else dom x
  end.

(** [applyTranslation(element, originalText, translation, mode)] *)
Definition applyTranslation (element : Seg.Element)
    (originalText translation : jsstring) (dom : Dom) : Dom :=
  write dom element (Translated originalText translation).

(** [primaryElement.querySelector('.ai-translation-split-container')]: the
    first container below the node, in document order, given by the node
    that holds it.  A node that holds a container holds nothing else; a
    node that holds a translation holds no container; in a node that was
    never written to, the container is that of the first node inside it
    that holds one. *)
Definition querySplitContainer (dom : Dom) (primaryElement : Seg.Element)
    : option Seg.Element :=
  match dom primaryElement with
  | SplitContainer _ _ => Some primaryElement
  | Original =>
      find (fun x => inside x primaryElement && isSplitContainer (dom x)) nodes
  | _ => None
  end.

(** [existingContainer.appendChild(translationPart)] *)
Definition appendPart (dom : Dom) (holder : Seg.Element) (translation : jsstring)
    : Dom :=
  match dom holder with
  | SplitContainer title parts =>
      fun x =>
        if Seg.Element_eqb x holder
        then SplitContainer title (parts ++ [translation])
        else dom x
  | _ => dom
  end.

(** [applySplitTranslation(segment, originalText, translation, mode)], for
    a segment of type [split]: part 0 puts a fresh container into the
    primary node; every part is appended to the container found below the
    node, if there is one. *)
Definition applySplitTranslation (segment : Seg.Segment) (translation : jsstring)
    (dom : Dom) : Dom :=
  match segment with
  | Seg.Split (primaryElement :: _) _ originalGroup partIndex =>
      let dom1 :=
        if partIndex =? 0
        then write dom primaryElement (SplitContainer (Seg.text originalGroup) [])
        else dom in
      match querySplitContainer dom1 primaryElement with
      | Some holder => appendPart dom1 holder translation
      | None => dom1
      end
  | _ => dom
  end.

(** [splitTranslationByGroups(translation, groups)] *)
Definition splitTranslationByGroups (translation : jsstring)
    (groups : list Seg.Segment) : list jsstring :=
  let paragraphs := split_paragraphs false translation in
  if length paragraphs =? length groups then paragraphs
  else Reassembly.splitTranslationByRatio roundRatio translation (map Seg.text groups).

(** [applyGroupedTranslation(segment, originalText, translation, mode)].
    The texts of the nodes are read from the page when the call starts. *)
Definition applyGroupedTranslation (segment : Seg.Segment) (translation : jsstring)
    (dom : Dom) : Dom :=
  let originalTexts := map (fun el => trim (textContentOf dom el)) (Seg.elements segment) in
  let totalOriginalLength := fold_left (fun sum text => sum + length text) originalTexts 0 in
  if totalOriginalLength =? 0 then dom
  else
    let translationParts :=
      Reassembly.splitTranslationByRatio roundRatio translation originalTexts in
    fold_left
      (fun dom '(element, index) =>
         match nth_error translationParts index, nth_error originalTexts index with
         | Some part, Some (c :: t) => applyTranslation element (c :: t) part dom
         | _, _ => dom
         end)
      (combine (Seg.elements segment) (seq 0 (length (Seg.elements segment))))
      dom.

(** [applyMergedTranslation(segment, originalText, translation, mode)].
    The text of a node is read from the page when its turn comes. *)
Definition applyMergedTranslation (segment : Seg.Segment) (translation : jsstring)
    (dom : Dom) : Dom :=
  match segment with
  | Seg.Merged _ _ originalGroups =>
      let translationParts := splitTranslationByGroups translation originalGroups in
      fold_left
        (fun dom '(group, index) =>
           match nth_error translationParts index with
           | Some part =>
               fold_left
                 (fun dom element =>
                    match trim (textContentOf dom element) with
                    | [] => dom
                    | elementText => applyTranslation element elementText part dom
                    end)
                 (Seg.elements group) dom
           | None => dom
           end)
        (combine originalGroups (seq 0 (length originalGroups)))
        dom
  | _ => dom
  end.

(** [applySegmentTranslation(segment, originalText, translation, mode)] *)
Definition applySegmentTranslation (segment : Seg.Segment)
    (originalText translation : jsstring) (dom : Dom) : Dom :=
  match Seg.type segment with
  | Seg.TypeSingle =>
      match Seg.elements segment with
      | element :: _ => applyTranslation element originalText translation dom
      | [] => dom
      end
  | Seg.TypeGrouped => applyGroupedTranslation segment translation dom
  | Seg.TypeMerged => applyMergedTranslation segment translation dom
  | Seg.TypeSplit =>
      match Seg.elements segment with
      | _ :: _ => applySplitTranslation segment translation dom
      | [] => dom
      end
  end.

(** The state of one run of [translatePage]: the pool, whose tasks are
    named by the index of their segment; the page; the counters; and
    [applied], the indexes of the segments in the order in which their
    translations were applied. *)
Record t := mk {
  pool : Pool.t nat;
  dom : Dom;
  successCount : Z;
  failureCount : Z;
  processedCount : Z;
  applied : list nat
}.

(** [x || d] for a setting that is a number or is missing. *)
Definition orDefault (x : option Z) (d : Z) : Z :=
  match x with
  | Some v => if (v =? 0)%Z then d else v
  | None => d
  end.

(** The part of [translatePage] that sets the pool up and submits one task
    per segment, in order, at time [now]. *)
Definition dispatch (maxConcurrencySetting requestDelaySetting : option Z)
    (segments : list Seg.Segment) (now : Z) (p : Pool.t nat) (page : Dom) : t :=
  let maxConcurrency := Z.min (orDefault maxConcurrencySetting 5) 8 in
  let p1 := Pool.setConcurrency maxConcurrency now p in
  let p2 := Pool.setRequestDelay (orDefault requestDelaySetting 100) p1 in
  let p3 := Pool.reset p2 in
  {| pool := fold_left (fun p index => Pool.addTask index now p)
                       (seq 0 (length segments)) p3;
     dom := page;
     successCount := 0; failureCount := 0; processedCount := 0;
     applied := [] |}.

(** What happens to a job once its tasks are submitted: the translation
    request of the [i]-th running task returns ([Some] translation, or
    [None] for a failure), or a timer of the pool fires.  The task of a
    segment without text returns at once, without a request; for it the
    result of the event is not looked at. *)
Inductive Event :=
| EvReturn (i : nat) (result : option jsstring)
| EvTimer (now : Z).

(** The rest of the task whose request returned, and of the [processQueue]
    that ran it: the translation is applied to the page, the counters move,
    the pool lets the task go. *)
Definition step (segments : list Seg.Segment) (j : t) (e : Event) : t :=
  match e with
  | EvTimer now =>
      {| pool := Pool.timer now (pool j); dom := dom j;
         successCount := successCount j; failureCount := failureCount j;
         processedCount := processedCount j; applied := applied j |}
  | EvReturn i result =>
      match nth_error (Pool.running (pool j)) i with
      | None => j
      | Some task =>
          let index := Pool.taskFn task in
          match nth_error segments index with
          | None => j
          | Some segment =>
              match Seg.text segment, result with
              | [], _ =>
                  (* { success: true, skipped: true } *)
                  {| pool := Pool.settle i true (pool j);
                     dom := dom j;
                     successCount := successCount j;
                     failureCount := failureCount j;
                     processedCount := (processedCount j + 1)%Z;
                     applied := applied j |}
              | originalText, Some (c :: tr) =>
                  {| pool := Pool.settle i true (pool j);
                     dom := applySegmentTranslation segment originalText (c :: tr) (dom j);
                     successCount := (successCount j + 1)%Z;
                     failureCount := failureCount j;
                     processedCount := (processedCount j + 1)%Z;
                     applied := applied j ++ [index] |}
              | _, _ =>
                  {| pool := Pool.settle i false (pool j);
                     dom := dom j;
                     successCount := successCount j;
                     failureCount := (failureCount j + 1)%Z;
                     processedCount := (processedCount j + 1)%Z;
                     applied := applied j |}
              end
          end
      end
  end.

Definition run (segments : list Seg.Segment) (j : t) (evs : list Event) : t :=
  fold_left (step segments) evs j.

End WithPage.

(** A page none of whose content nodes lies inside another. *)
Definition flat : Seg.Element -> Seg.Element -> bool := fun _ _ => false.

(** [element.textContent] on such a page, whose content nodes hold text
    only, in the display mode [bilingual]: the text the builder read, until
    the node is written to; then the original text followed by the
    translation, or the title of the container followed by its parts.  No
    node of such a page leaves it. *)
Definition bilingualText (dom : Dom) (element : Seg.Element) : jsstring :=
  match dom element with
  | Original => Seg.textContent element
  | Translated originalText translation => originalText ++ translation
  | SplitContainer originalTitle parts => originalTitle ++ concat parts
  | Removed => []
  end.

End Job.

(** ** Requests through the cache: [requestTranslationOptimized] *)

Module Optimized.

(** The start of [requestTranslationOptimized(text, settings)], up to the
    [await]: the cache is asked; a translation that is there and is not the
    empty string is returned ([Some]), otherwise the retry wrapper is to be
    called ([None]).  The second component is the cache with its statistics
    updated. *)
Definition lookup (text : jsstring) (settings : Cache.Settings) (now : Z)
    (c : Cache.t) : option jsstring * Cache.t :=
  match Cache.getCachedTranslation text settings now c with
  | (Some (ch :: r), c1) => (Some (ch :: r), c1)
  | (_, c1) => (None, c1)
  end.

(** The rest of [requestTranslationOptimized], run when the retry wrapper
    has settled with [outcome], on the cache as it then is: a translation
    that is not blank is cached; the outcome is passed on. *)
Definition store (text : jsstring) (settings : Cache.Settings)
    (outcome : Retry.Outcome) (now : Z) (c : Cache.t) : Retry.Outcome * Cache.t :=
  match outcome with
  | Retry.Returned translation =>
      match translation, trim translation with
      | _ :: _, _ :: _ =>
          (outcome, Cache.cacheTranslation text settings translation now c)
      | _, _ => (outcome, c)
      end
  | Retry.Thrown _ => (outcome, c)
  end.

End Optimized.

(** ** The request pool with a limit that is changed while it runs *)

Module PoolControl.

Section WithTask.

Variable TaskFn : Type.

(** The events of the pool, and calls of [setConcurrency]. *)
Inductive Event :=
| Ev (e : Pool.Event TaskFn)
| EvSetConcurrency (maxConcurrency : Z) (now : Z).

Definition step (p : Pool.t TaskFn) (e : Event) : Pool.t TaskFn :=
  match e with
  | Ev e' => Pool.step p e'
  | EvSetConcurrency n now => Pool.setConcurrency n now p
  end.

Definition run (p : Pool.t TaskFn) (evs : list Event) : Pool.t TaskFn :=
  fold_left step evs p.

End WithTask.

End PoolControl.

(** ** The queue of page updates: [queueDOMUpdate], [processDOMUpdateQueue] *)

Module DomQueue.

Section WithUpdate.

(** The update functions; what they do when called is not looked at. *)
Variable Update : Type.

Definition domUpdateBatchSize : nat := 10.

(** The fields [domUpdateQueue] and [domUpdateTimer] of the controller
    ([None] is [null], [Some id] the identifier [setTimeout] returned), and
    what the event loop holds for them: the identifiers of the timers that
    are set and have neither fired nor been cleared, the identifier the next
    [setTimeout] returns, and the number of callbacks given to
    [requestAnimationFrame] that have not run yet.  [executed] lists the
    update functions called so far, in order. *)
Record t := mk {
  domUpdateQueue : list Update;
  domUpdateTimer : option nat;
  pendingTimers : list nat;
  nextTimer : nat;
  frames : nat;
  executed : list Update
}.

(** The fields as the constructor of the controller sets them; timer
    identifiers are positive. *)
Definition constructor : t :=
  {| domUpdateQueue := []; domUpdateTimer := None; pendingTimers := [];
     nextTimer := 1; frames := 0; executed := [] |}.

(** [clearTimeout(id)] *)
Definition clearTimeout (id : nat) (pending : list nat) : list nat :=
  filter (fun x => negb (x =? id)) pending.

(** [processDOMUpdateQueue()], up to the call of [requestAnimationFrame]. *)
Definition processDOMUpdateQueue (s : t) : t :=
  let pending :=
    match domUpdateTimer s with
    | Some id => clearTimeout id (pendingTimers s)
    | None => pendingTimers s
    end in
  {| domUpdateQueue := domUpdateQueue s;
     domUpdateTimer := None;
     pendingTimers := pending;
     nextTimer := nextTimer s;
     frames := match domUpdateQueue s with
               | [] => frames s
               | _ :: _ => S (frames s)
               end;
     executed := executed s |}.

(** [queueDOMUpdate(updateFunction)] *)
Definition queueDOMUpdate (updateFunction : Update) (s : t) : t :=
  let s1 :=
    {| domUpdateQueue := domUpdateQueue s ++ [updateFunction];
       domUpdateTimer := domUpdateTimer s;
       pendingTimers := pendingTimers s;
       nextTimer := nextTimer s;
       frames := frames s;
       executed := executed s |} in
  if (domUpdateBatchSize <=? length (domUpdateQueue s1))
     || (match domUpdateTimer s1 with Some _ => false | None => true end)
  then processDOMUpdateQueue s1
  else s1.

(** The callback given to [requestAnimationFrame] runs: the first updates
    of the queue are taken out and called, each in its own [try]; if
    updates are left, a timer of 16 ms is set. *)
Definition frame (s : t) : t :=
  match frames s with
  | O => s
  | S n =>
      let updates := firstn domUpdateBatchSize (domUpdateQueue s) in
      let rest := skipn domUpdateBatchSize (domUpdateQueue s) in
      match rest with
      | [] =>
          {| domUpdateQueue := rest;
             domUpdateTimer := domUpdateTimer s;
             pendingTimers := pendingTimers s;
             nextTimer := nextTimer s;
             frames := n;
             executed := executed s ++ updates |}
      | _ :: _ =>
          {| domUpdateQueue := rest;
             domUpdateTimer := Some (nextTimer s);
             pendingTimers := pendingTimers s ++ [nextTimer s];
             nextTimer := S (nextTimer s);
             frames := n;
             executed := executed s ++ updates |}
      end
  end.

(** The timer [id] fires, if it is pending: [processDOMUpdateQueue()]. *)
Definition timerFires (id : nat) (s : t) : t :=
  if existsb (Nat.eqb id) (pendingTimers s) then
    processDOMUpdateQueue
      {| domUpdateQueue := domUpdateQueue s;
         domUpdateTimer := domUpdateTimer s;
         pendingTimers := clearTimeout id (pendingTimers s);
         nextTimer := nextTimer s;
         frames := frames s;
         executed := executed s |}
  else s.

(** The line [this.domUpdateQueue = []] of [performMemoryCleanup]. *)
Definition cleanup (s : t) : t :=
  {| domUpdateQueue := [];
     domUpdateTimer := domUpdateTimer s;
     pendingTimers := pendingTimers s;
     nextTimer := nextTimer s;
     frames := frames s;
     executed := executed s |}.

Inductive Event :=
| EvQueue (updateFunction : Update)
| EvFrame
| EvTimer (id : nat)
| EvCleanup.

Definition step (s : t) (e : Event) : t :=
  match e with
  | EvQueue u => queueDOMUpdate u s
  | EvFrame => frame s
  | EvTimer id => timerFires id s
  | EvCleanup => cleanup s
  end.

Definition run (s : t) (evs : list Event) : t := fold_left step evs s.

End WithUpdate.

End DomQueue.

(** ** Translating node by node: [translateBatch] *)

Module Batch.

(** The message of the error thrown when [chrome.runtime.id] is missing:
    the message of the context error, a comma and a request to reload. *)
Definition msg_context_refresh : jsstring :=   (* 扩展上下文已失效，请刷新页面 *)
  Retry.msg_context_invalid ++ [0xff0c; 0x8bf7; 0x5237; 0x65b0; 0x9875; 0x9762]%N.

(** The objects pushed to [results]: [success] is true with a translation,
    false with an error; [originalText] is missing in the objects the outer
    [catch] pushes. *)
Inductive Result :=
| Success (element : Seg.Element) (originalText translation : jsstring)
| Failure (element : Seg.Element) (originalText : option jsstring) (error : jsstring).

Definition success (r : Result) : bool :=
  match r with
  | Success _ _ _ => true
  | Failure _ _ _ => false
  end.

Definition element (r : Result) : Seg.Element :=
  match r with
  | Success e _ _ | Failure e _ _ => e
  end.

(** The array [results], and what the loop did besides: the calls of
    [applyTranslation] (node, original text, translation) and the number of
    calls of [requestTranslation], whether
    [handleExtensionContextInvalidated] was called, and whether the warning
    of too many errors was shown. *)
Record t := mk {
  results : list Result;
  applied : list (Seg.Element * jsstring * jsstring);
  requests : nat;
  invalidated : bool;
  notified : bool
}.

(** [arr.slice(-n)] *)
Definition slice_last (A : Type) (n : nat) (arr : list A) : list A :=
  skipn (length arr - n) arr.

Section WithEnv.

(** What the pass for [elements[i]] finds: whether [chrome.runtime.id] is
    there, the flag [isTranslating], and how [requestTranslation] settles if
    it is called. *)
Variable env : nat -> Retry.Attempt.

(** The loop of [translateBatch] from index [i] on; [elements] is what is
    left of the array. *)
Fixpoint loop (elements : list Seg.Element) (i : nat) (st : t) : t :=
  match elements with
  | [] => st
  | el :: rest =>
      if negb (Retry.runtimeId (env i)) then
        (* thrown in the outer [try]; the outer [catch] pushes and tests *)
        let st' :=
          {| results := results st ++ [Failure el None msg_context_refresh];
             applied := applied st; requests := requests st;
             invalidated := true; notified := notified st |} in
        if includes msg_context_refresh Retry.msg_context_invalid
        then st' else loop rest (S i) st'
      else if negb (Retry.isTranslating (env i)) then st
      else
        match trim (Seg.textContent el) with
        | [] => loop rest (S i) st
        | c0 :: t0 =>
            let originalText := c0 :: t0 in
            match Retry.response (env i) with
            | Retry.Resolved (Some (c :: tr)) =>
                loop rest (S i)
                  {| results := results st ++ [Success el originalText (c :: tr)];
                     applied := applied st ++ [(el, originalText, c :: tr)];
                     requests := S (requests st);
                     invalidated := invalidated st; notified := notified st |}
            | Retry.Resolved _ =>
                loop rest (S i)
                  {| results := results st
                                ++ [Failure el (Some originalText) Retry.msg_empty_result];
                     applied := applied st;
                     requests := S (requests st);
                     invalidated := invalidated st; notified := notified st |}
            | Retry.Rejected message =>
                if includes message Retry.msg_context_invalid then
                  (* thrown again; the outer [catch] pushes and breaks *)
                  {| results := results st ++ [Failure el None message];
                     applied := applied st;
                     requests := S (requests st);
                     invalidated := invalidated st; notified := notified st |}
                else
                  let results' :=
                    results st ++ [Failure el (Some originalText) message] in
                  let recentFailures :=
                    length (filter (fun r => negb (success r)) (slice_last 5 results')) in
                  if 5 <=? recentFailures then
                    {| results := results'; applied := applied st;
                       requests := S (requests st);
                       invalidated := invalidated st; notified := true |}
                  else
                    loop rest (S i)
                      {| results := results'; applied := applied st;
                         requests := S (requests st);
                         invalidated := invalidated st; notified := notified st |}
            end
        end
  end.

(** [translateBatch(elements, settings)] *)
Definition translateBatch (elements : list Seg.Element) : t :=
  loop elements 0
    {| results := []; applied := []; requests := 0;
       invalidated := false; notified := false |}.

End WithEnv.

End Batch.

(** ** Recovery: [splitTextIntoChunks] *)

Module Recovery.

(** The callback of the loop over the sentences: the state is [chunks] and
    [currentChunk]. *)
Definition chunkStep (maxChunkSize : nat) (st : list jsstring * jsstring)
    (sentence : jsstring) : list jsstring * jsstring :=
  let '(chunks, currentChunk) := st in
  if (maxChunkSize <? length currentChunk + length sentence)
     && (0 <? length currentChunk)
  then (chunks ++ [trim currentChunk], sentence)
  else (chunks,
        currentChunk ++ (match currentChunk with [] => [] | _ :: _ => lit ". " end)
          ++ sentence).

(** [splitTextIntoChunks(text, maxChunkSize)]; the class of the regular
    expression is that of [findSuitableCutPoint]. *)
Definition splitTextIntoChunks (text : jsstring) (maxChunkSize : nat) : list jsstring :=
  let sentences := split_class Reassembly.isSentenceEnder text in
  let '(chunks, currentChunk) :=
    fold_left (chunkStep maxChunkSize) sentences ([], []) in
  let chunks' :=
    match trim currentChunk with
    | [] => chunks
    | _ :: _ => chunks ++ [trim currentChunk]
    end in
  filter (fun chunk => 0 <? length chunk) chunks'.

End Recovery.

(* ===================================================================== *)
(** * Part II: properties                                                  *)
(* ===================================================================== *)

(** ** Strings *)

Lemma str_eqb_refl (a : jsstring) : str_eqb a a = true.
Proof.
  induction a as [|x a IH]; simpl; [reflexivity|].
  now rewrite N.eqb_refl, IH.
Qed.

Lemma str_eqb_eq (a b : jsstring) : str_eqb a b = true <-> a = b.
Proof.
  split.
  - revert b; induction a as [|x a IH]; intros [|y b]; simpl; try discriminate; auto.
    intros H; apply andb_true_iff in H as [Hx Hr].
    apply N.eqb_eq in Hx; subst; f_equal; auto.
  - intros ->; apply str_eqb_refl.
Qed.

Lemma str_eqb_neq (a b : jsstring) : str_eqb a b = false <-> a <> b.
Proof.
  destruct (str_eqb a b) eqn:E.
  - apply str_eqb_eq in E; split; [discriminate | congruence].
  - split; [|reflexivity]. intros _ H; apply str_eqb_eq in H; congruence.
Qed.

(** ** The request pool *)

Section PoolProperties.

Variable TaskFn : Type.

Local Abbreviation pool := (Pool.t TaskFn).

(** The counter counts the suspended invocations, and stays within the
    limit. *)
Definition pool_inv (p : pool) : Prop :=
  Pool.activeRequests p = Z.of_nat (length (Pool.running p)) /\
  (Pool.activeRequests p <= Pool.maxConcurrency p)%Z.

Lemma processQueue_limit now (p : pool) :
  Pool.maxConcurrency (Pool.processQueue now p) = Pool.maxConcurrency p.
Proof.
  unfold Pool.processQueue.
  destruct (_ || _); [reflexivity|]. destruct (Pool.queue p); reflexivity.
Qed.

Lemma processQueue_inv now (p : pool) :
  pool_inv p -> pool_inv (Pool.processQueue now p).
Proof.
  unfold pool_inv, Pool.processQueue; intros [Hc Hb].
  destruct (Pool.maxConcurrency p <=? Pool.activeRequests p)%Z eqn:E; simpl; [auto|].
  destruct (length (Pool.queue p) =? 0) eqn:E2; simpl; [auto|].
  destruct (Pool.queue p) as [|task rest]; simpl; [auto|].
  apply Z.leb_gt in E. rewrite length_app; simpl. split; lia.
Qed.

(** [processQueue] takes a task only below the limit. *)
Lemma processQueue_starts_below now (p : pool) :
  length (Pool.running p) < length (Pool.running (Pool.processQueue now p)) ->
  (Pool.activeRequests p < Pool.maxConcurrency p)%Z.
Proof.
  unfold Pool.processQueue.
  destruct (Pool.maxConcurrency p <=? Pool.activeRequests p)%Z eqn:E; simpl; [lia|].
  intros _. now apply Z.leb_gt in E.
Qed.

Lemma length_remove_nth (A : Type) (i : nat) (l : list A) :
  i < length l -> length (Pool.remove_nth i l) = pred (length l).
Proof.
  revert i; induction l as [|x l IH]; intros i Hi; simpl in *; [lia|].
  destruct i as [|i]; [reflexivity|]. simpl. rewrite IH by lia. lia.
Qed.

Lemma settle_inv i ok (p : pool) : pool_inv p -> pool_inv (Pool.settle i ok p).
Proof.
  unfold pool_inv, Pool.settle; intros [Hc Hb].
  destruct (i <? length (Pool.running p)) eqn:E; simpl; [|auto].
  apply Nat.ltb_lt in E. rewrite length_remove_nth by assumption. split; lia.
Qed.

Lemma step_limit (p : pool) e :
  Pool.maxConcurrency (Pool.step p e) = Pool.maxConcurrency p.
Proof.
  destruct e; simpl; unfold Pool.addTask, Pool.settle, Pool.timer, Pool.clear,
    Pool.reset, Pool.setRequestDelay; try rewrite processQueue_limit; try reflexivity.
  - destruct (_ <? _); reflexivity.
  - destruct (Pool.timers p); [reflexivity|]. now rewrite processQueue_limit.
Qed.

Lemma step_inv (p : pool) e : pool_inv p -> pool_inv (Pool.step p e).
Proof.
  intros H. destruct e; simpl.
  - apply processQueue_inv. exact H.
  - now apply settle_inv.
  - unfold Pool.timer. destruct (Pool.timers p); [exact H|].
    apply processQueue_inv. exact H.
  - exact H.
  - exact H.
  - exact H.
Qed.

Lemma step_starts_below (p : pool) e :
  pool_inv p ->
  length (Pool.running p) < length (Pool.running (Pool.step p e)) ->
  (Pool.activeRequests p < Pool.maxConcurrency p)%Z.
Proof.
  intros Hinv. destruct e; simpl.
  - unfold Pool.addTask. intros H.
    match type of H with
    | _ < length (Pool.running (Pool.processQueue ?n ?q)) =>
        exact (processQueue_starts_below n q H)
    end.
  - unfold Pool.settle. destruct (i <? _) eqn:E; simpl; [|lia].
    apply Nat.ltb_lt in E. rewrite length_remove_nth by assumption. lia.
  - unfold Pool.timer. destruct (Pool.timers p); [lia|].
    intros H.
    match type of H with
    | _ < length (Pool.running (Pool.processQueue ?n ?q)) =>
        exact (processQueue_starts_below n q H)
    end.
  - lia.
  - lia.
  - lia.
Qed.

Lemma run_inv (evs : list (Pool.Event TaskFn)) (p : pool) :
  pool_inv p ->
  pool_inv (Pool.run p evs) /\
  Pool.maxConcurrency (Pool.run p evs) = Pool.maxConcurrency p.
Proof.
  revert p; induction evs as [|e evs IH]; intros p H; simpl; [auto|].
  destruct (IH (Pool.step p e) (step_inv e H)) as [H1 H2].
  split; [exact H1|]. now rewrite H2, step_limit.
Qed.

End PoolProperties.

(** C9. Whatever tasks are submitted to a pool created with a limit
    [maxC >= 0], and however the running tasks settle and the timers fire,
    the number of active tasks is at most [maxC] after every event; and an
    event starts a task only from a state whose active count is below the
    limit. *)
Theorem pool_active_never_exceeds_limit :
  forall (TaskFn : Type) (maxC delay : Z) (evs : list (Pool.Event TaskFn)),
    (0 <= maxC)%Z ->
    let p := Pool.run (Pool.constructor TaskFn maxC delay) evs in
    Pool.maxConcurrency p = maxC /\
    Pool.activeRequests p = Z.of_nat (length (Pool.running p)) /\
    (Pool.activeRequests p <= maxC)%Z /\
    forall e,
      length (Pool.running p) < length (Pool.running (Pool.step p e)) ->
      (Pool.activeRequests p < maxC)%Z.
Proof.
  intros TaskFn maxC delay evs Hpos p.
  assert (H0 : pool_inv (Pool.constructor TaskFn maxC delay)).
  { unfold pool_inv; simpl. split; [reflexivity | exact Hpos]. }
  destruct (run_inv evs H0) as [[Hc Hb] Hl]. fold p in Hc, Hb, Hl.
  simpl in Hl. repeat split.
  - exact Hl.
  - exact Hc.
  - now rewrite <- Hl.
  - intros e He. rewrite <- Hl.
    apply step_starts_below with (e := e); [split; assumption | exact He].
Qed.

(** A burst of seven submissions to a pool of five: five run, two wait. *)
Lemma pool_active_never_exceeds_limit_witness :
  let p := Pool.run (Pool.constructor nat 5 100)
             (map (fun i => Pool.EvAddTask i 0%Z) (seq 0 7)) in
  (Pool.activeRequests p = 5)%Z /\ length (Pool.queue p) = 2 /\
  (Pool.activeRequests p <= 5)%Z.
Proof.
  split; [reflexivity|]. split; [reflexivity|].
  destruct (@pool_active_never_exceeds_limit nat 5 100
              (map (fun i => Pool.EvAddTask i 0%Z) (seq 0 7)))
    as (_ & _ & H & _); [lia | exact H].
Defined.

(** ** The cache store *)

Lemma keys_map_set_in k v (m : Cache.JSMap) :
  In k (Cache.map_keys m) -> Cache.map_keys (Cache.map_set k v m) = Cache.map_keys m.
Proof.
  induction m as [|[k' v'] m IH]; simpl; [tauto|].
  destruct (str_eqb k k') eqn:E.
  - apply str_eqb_eq in E; subst; reflexivity.
  - apply str_eqb_neq in E. intros [H|H]; [congruence|].
    simpl. f_equal. apply IH, H.
Qed.

Lemma keys_map_set_notin k v (m : Cache.JSMap) :
  ~ In k (Cache.map_keys m) ->
  Cache.map_keys (Cache.map_set k v m) = Cache.map_keys m ++ [k].
Proof.
  induction m as [|[k' v'] m IH]; simpl; [reflexivity|].
  intros H. destruct (str_eqb k k') eqn:E.
  - apply str_eqb_eq in E; subst. tauto.
  - simpl. f_equal. apply IH. tauto.
Qed.

Lemma NoDup_keys_map_set k v (m : Cache.JSMap) :
  NoDup (Cache.map_keys m) -> NoDup (Cache.map_keys (Cache.map_set k v m)).
Proof.
  intros H. destruct (in_dec (list_eq_dec N.eq_dec) k (Cache.map_keys m)) as [Hin|Hin].
  - now rewrite keys_map_set_in.
  - rewrite keys_map_set_notin by assumption.
    apply NoDup_app; [assumption | repeat constructor; simpl; tauto |].
    intros x Hx [<-|[]]. tauto.
Qed.

(** On a map without duplicate keys, deleting the first [n] keys one by one
    leaves the map without its first [n] entries. *)
Lemma delete_first_keys n (m : Cache.JSMap) :
  Cache.delete_keys (firstn n (Cache.map_keys m)) m = skipn n m.
Proof.
  revert m; induction n as [|n IH]; intros m; [reflexivity|].
  destruct m as [|[k v] m]; [reflexivity|].
  simpl. rewrite str_eqb_refl. apply IH.
Qed.

Lemma NoDup_skipn (A : Type) n (l : list A) : NoDup l -> NoDup (skipn n l).
Proof.
  revert l; induction n as [|n IH]; intros l H; [exact H|].
  destruct l as [|x l]; [exact H|]. simpl. apply IH. now inversion H.
Qed.

Lemma map_get_map_set k v (m : Cache.JSMap) :
  Cache.map_get k (Cache.map_set k v m) = Some v.
Proof.
  induction m as [|[k' v'] m IH]; simpl.
  - now rewrite str_eqb_refl.
  - destruct (str_eqb k k') eqn:E; simpl; [now rewrite str_eqb_refl|].
    now rewrite E.
Qed.

(** What one call of [cacheTranslation] leaves in the map: the map after
    [set], without its oldest entries beyond the maximum. *)
Lemma cacheTranslation_cache text settings tr now (c : Cache.t) :
  let m' := Cache.map_set (Cache.generateCacheKey text settings)
              {| Cache.translation := tr; Cache.timestamp := now;
                 Cache.accessCount := 1; Cache.lastAccess := None |}
              (Cache.translationCache c) in
  Cache.translationCache (Cache.cacheTranslation text settings tr now c)
  = skipn (length m' - Cache.cacheMaxSize c) m' /\
  Cache.cacheMaxSize (Cache.cacheTranslation text settings tr now c)
  = Cache.cacheMaxSize c.
Proof.
  intros m'. unfold Cache.cacheTranslation, Cache.cleanupTranslationCache; simpl.
  fold m'. destruct (Cache.cacheMaxSize c <? length m') eqn:E; simpl.
  - split; [apply delete_first_keys | reflexivity].
  - apply Nat.ltb_ge in E.
    replace (length m' - Cache.cacheMaxSize c) with 0 by lia. split; reflexivity.
Qed.

Definition cache_inv (c : Cache.t) : Prop :=
  NoDup (Cache.map_keys (Cache.translationCache c)) /\
  length (Cache.translationCache c) <= Cache.cacheMaxSize c.

Lemma put_inv (c : Cache.t) p :
  NoDup (Cache.map_keys (Cache.translationCache c)) ->
  cache_inv (Cache.put c p) /\
  Cache.cacheMaxSize (Cache.put c p) = Cache.cacheMaxSize c.
Proof.
  intros Hnd. unfold Cache.put, cache_inv.
  destruct (cacheTranslation_cache (Cache.put_text p) (Cache.put_settings p)
              (Cache.put_translation p) (Cache.put_now p) c) as [Hm Hs].
  rewrite Hm, Hs. repeat split.
  - unfold Cache.map_keys. rewrite <- skipn_map. apply NoDup_skipn.
    now apply NoDup_keys_map_set.
  - rewrite length_skipn. lia.
Qed.

Lemma puts_inv ps (c : Cache.t) :
  NoDup (Cache.map_keys (Cache.translationCache c)) ->
  length (Cache.translationCache c) <= Cache.cacheMaxSize c ->
  cache_inv (Cache.puts c ps) /\
  Cache.cacheMaxSize (Cache.puts c ps) = Cache.cacheMaxSize c.
Proof.
  revert c; induction ps as [|p ps IH]; intros c Hnd Hlen; simpl.
  - repeat split; assumption.
  - destruct (@put_inv c p Hnd) as [[H1 H2] H3].
    destruct (IH (Cache.put c p) H1 H2) as [H4 H5].
    split; [exact H4 | congruence].
Qed.

(** C8. After any sequence of [cacheTranslation] calls on the cache the
    controller starts with, no key occurs twice and there are at most 1000
    entries; and a further call leaves the map it gets by [set] without its
    oldest-inserted entries beyond 1000. *)
Theorem cache_size_bounded_after_puts :
  forall (ps : list Cache.Put),
    let c := Cache.puts Cache.constructor ps in
    NoDup (Cache.map_keys (Cache.translationCache c)) /\
    length (Cache.translationCache c) <= 1000 /\
    forall text settings tr now,
      let m' := Cache.map_set (Cache.generateCacheKey text settings)
                  {| Cache.translation := tr; Cache.timestamp := now;
                     Cache.accessCount := 1; Cache.lastAccess := None |}
                  (Cache.translationCache c) in
      Cache.translationCache (Cache.cacheTranslation text settings tr now c)
      = skipn (length m' - 1000) m'.
Proof.
  intros ps c.
  destruct (@puts_inv ps Cache.constructor) as [[Hnd Hlen] Hmax];
    [constructor | simpl; lia |].
  fold c in Hnd, Hlen, Hmax. simpl in Hmax.
  split; [exact Hnd|]. split; [now rewrite <- Hmax|].
  intros text settings tr now m'.
  destruct (cacheTranslation_cache text settings tr now c) as [Hm _].
  fold m' in Hm. now rewrite Hmax in Hm.
Qed.

(** Two texts with one key: the hash is a polynomial in 31, and
    [65 * 31 + 97 = 66 * 31 + 66]. *)
Definition collide_text1 : jsstring := lit "Aa".
Definition collide_text2 : jsstring := lit "BB".
Definition collide_settings : Cache.Settings :=
  {| Cache.aiModel := Some (lit "openai-gpt35");
     Cache.targetLanguage := Some (lit "zh");
     Cache.sourceLanguage := Some (lit "auto") |}.

(** C10. The cache key is not injective: the texts ["Aa"] and ["BB"] differ
    (also after trimming) and get the same key under the same settings, so
    a lookup for the second returns the translation cached for the first. *)
Theorem cache_key_collision :
  collide_text1 <> collide_text2 /\
  trim collide_text1 <> trim collide_text2 /\
  Cache.generateCacheKey collide_text1 collide_settings
  = Cache.generateCacheKey collide_text2 collide_settings /\
  forall tr now now',
    fst (Cache.getCachedTranslation collide_text2 collide_settings now'
           (Cache.cacheTranslation collide_text1 collide_settings tr now
              Cache.constructor))
    = Some tr.
Proof.
  split; [discriminate|]. split; [discriminate|].
  assert (K : Cache.generateCacheKey collide_text1 collide_settings
              = Cache.generateCacheKey collide_text2 collide_settings)
    by (vm_compute; reflexivity).
  split; [exact K|].
  intros tr now now'.
  unfold Cache.getCachedTranslation. rewrite <- K.
  destruct (cacheTranslation_cache collide_text1 collide_settings tr now
              Cache.constructor) as [Hm _].
  rewrite Hm. clear Hm K.
  generalize (Cache.generateCacheKey collide_text1 collide_settings) as k.
  intros k. unfold Cache.constructor.
  cbn [Cache.translationCache Cache.cacheMaxSize Cache.map_set length].
  change (1 - 1000) with 0. cbn [skipn Cache.map_get].
  rewrite str_eqb_refl. reflexivity.
Qed.

(** ** The retry wrapper *)

Section RetryProperties.

Variable toLowerCase : jsstring -> jsstring.
Variable env : nat -> Retry.Attempt.

Local Abbreviation classify := (Retry.classifyError toLowerCase).
Local Abbreviation loop := (Retry.retryLoop toLowerCase env).

Lemma shouldRetry_lt errorType retryCount :
  Retry.shouldRetry errorType retryCount = true -> retryCount < Retry.maxRetries.
Proof.
  destruct errorType; unfold Retry.shouldRetry, Retry.maxRetries; intros H;
    try discriminate; apply Nat.ltb_lt in H; lia.
Qed.

(** The loop makes at most as many passes as it has left. *)
Lemma retryLoop_attempts_le n : forall attempt lastError done,
  Retry.attempts (loop n attempt lastError done) <= Retry.attempts done + n.
Proof.
  induction n as [|n IH]; intros attempt lastError done; simpl; [lia|].
  destruct (Retry.tryBlock (env attempt)) as [[result|error] called]; simpl; [lia|].
  destruct (_ || _); simpl; [lia|].
  eapply Nat.le_trans; [apply IH|]. simpl. lia.
Qed.

(** Each pass calls [requestTranslation] at most once. *)
Lemma retryLoop_calls_le n : forall attempt lastError done,
  Retry.calls done <= Retry.attempts done ->
  Retry.calls (loop n attempt lastError done)
  <= Retry.attempts (loop n attempt lastError done).
Proof.
  induction n as [|n IH]; intros attempt lastError done H; simpl; [lia|].
  destruct (Retry.tryBlock (env attempt)) as [[result|error] called]; simpl.
  - destruct called; simpl; lia.
  - destruct (_ || _); simpl.
    + destruct called; simpl; lia.
    + apply IH. simpl. destruct called; simpl; lia.
Qed.

(** When every pass fails with a network error, all the passes are made. *)
Lemma retryLoop_network_attempts n : forall attempt lastError done,
  attempt + n = Retry.maxRetries + 1 ->
  (forall k, exists err, fst (Retry.tryBlock (env k)) = inr err /\
                         classify err = Retry.NETWORK) ->
  Retry.attempts (loop n attempt lastError done) = Retry.attempts done + n.
Proof.
  induction n as [|n IH]; intros attempt lastError done Hn Hnet; simpl; [lia|].
  destruct (Hnet attempt) as (err & Herr & Hcl).
  destruct (Retry.tryBlock (env attempt)) as [r called]; simpl in Herr; subst r.
  rewrite Hcl. simpl Retry.shouldRetry.
  destruct (attempt =? Retry.maxRetries) eqn:E; simpl.
  - apply Nat.eqb_eq in E. lia.
  - apply Nat.eqb_neq in E.
    assert (Hlt : (attempt <? Retry.maxRetries) = true) by (apply Nat.ltb_lt; lia).
    rewrite Hlt. simpl. rewrite IH by (assumption || lia). simpl. lia.
Qed.

(** A pass that fails with a context error is the last one. *)
Lemma retryLoop_context_stops n attempt lastError done err :
  fst (Retry.tryBlock (env attempt)) = inr err ->
  classify err = Retry.CONTEXT ->
  Retry.attempts (loop (S n) attempt lastError done) = S (Retry.attempts done) /\
  Retry.outcome (loop (S n) attempt lastError done) = Retry.Thrown err /\
  Retry.waits (loop (S n) attempt lastError done) = Retry.waits done.
Proof.
  intros Herr Hcl. simpl.
  destruct (Retry.tryBlock (env attempt)) as [r called]; simpl in Herr; subst r.
  rewrite Hcl. simpl Retry.shouldRetry. rewrite orb_true_r. simpl. auto.
Qed.

(** No pass follows a pass that fails with a context error. *)
Lemma retryLoop_context_bound n : forall attempt lastError done k err,
  attempt <= k ->
  fst (Retry.tryBlock (env k)) = inr err ->
  classify err = Retry.CONTEXT ->
  Retry.attempts (loop n attempt lastError done)
  <= Retry.attempts done + (k - attempt) + 1.
Proof.
  induction n as [|n IH]; intros attempt lastError done k err Hle Herr Hcl; simpl;
    [lia|].
  destruct (Retry.tryBlock (env attempt)) as [[result|error] called] eqn:Ht;
    simpl; [lia|].
  destruct ((attempt =? Retry.maxRetries)
            || negb (Retry.shouldRetry (classify error) attempt)) eqn:E; simpl; [lia|].
  assert (Hne : attempt <> k).
  { intros ->. rewrite Ht in Herr. simpl in Herr. injection Herr as ->.
    rewrite Hcl in E. simpl in E. now rewrite orb_true_r in E. }
  eapply Nat.le_trans; [apply (IH (S attempt) _ _ k err); [lia | assumption ..]|].
  simpl. lia.
Qed.

(** Every delay the loop waits follows a failed pass that is retried, and
    is the delay [retryDelay] gives for the class of its error. *)
Lemma retryLoop_waits n : forall attempt lastError done,
  exists ws,
    Retry.waits (loop n attempt lastError done) = Retry.waits done ++ ws /\
    forall j w, nth_error ws j = Some w ->
      exists err,
        fst (Retry.tryBlock (env (attempt + j))) = inr err /\
        w = Retry.retryDelay (classify err) (attempt + j) /\
        attempt + j < Retry.maxRetries.
Proof.
  induction n as [|n IH]; intros attempt lastError done; simpl.
  - exists []. rewrite app_nil_r. split; [reflexivity|]. intros [|j] w; discriminate.
  - destruct (Retry.tryBlock (env attempt)) as [[result|error] called] eqn:Ht; simpl.
    + exists []. rewrite app_nil_r. split; [reflexivity|]. intros [|j] w; discriminate.
    + destruct (attempt =? Retry.maxRetries) eqn:E; simpl.
      * exists []. rewrite app_nil_r. split; [reflexivity|]. intros [|j] w; discriminate.
      * destruct (Retry.shouldRetry (classify error) attempt) eqn:Es; simpl.
        2:{ exists []. rewrite app_nil_r. split; [reflexivity|].
            intros [|j] w; discriminate. }
        match goal with
        | |- context [loop n (S attempt) ?le ?d] =>
            destruct (IH (S attempt) le d) as (ws & Hws & Hall)
        end.
        simpl in Hws.
        exists (Retry.retryDelay (classify error) attempt :: ws). split.
        { rewrite Hws, <- app_assoc. reflexivity. }
        intros [|j] w Hj; simpl in Hj.
        { injection Hj as <-. exists error. rewrite Nat.add_0_r, Ht. simpl.
          repeat split. now apply shouldRetry_lt in Es. }
        { destruct (Hall j w Hj) as (err & H1 & H2 & H3).
          exists err. replace (attempt + S j) with (S attempt + j) by lia. auto. }
Qed.

End RetryProperties.

(** C4. The wrapper makes at most [maxRetries + 1 = 4] attempts whatever the
    attempts find; it makes exactly that many when every attempt fails with
    an error classified as network; and when the first attempt fails with an
    error classified as context-invalid it is the only attempt: the error is
    thrown at once, after at most one call of [requestTranslation] and no
    wait.  At whatever attempt a context-invalid failure comes, no attempt
    follows it. *)
Theorem retry_attempt_ceiling :
  forall (toLowerCase : jsstring -> jsstring) (env : nat -> Retry.Attempt),
    let r := Retry.requestTranslationWithAdvancedRetry toLowerCase env in
    Retry.maxRetries + 1 = 4 /\
    Retry.attempts r <= Retry.maxRetries + 1 /\
    Retry.calls r <= Retry.attempts r /\
    ((forall k, exists err,
         fst (Retry.tryBlock (env k)) = inr err /\
         Retry.classifyError toLowerCase err = Retry.NETWORK) ->
     Retry.attempts r = 4) /\
    (forall err,
        fst (Retry.tryBlock (env 0)) = inr err ->
        Retry.classifyError toLowerCase err = Retry.CONTEXT ->
        Retry.attempts r = 1 /\ Retry.calls r <= 1 /\
        Retry.waits r = [] /\ Retry.outcome r = Retry.Thrown err) /\
    (forall k err,
        fst (Retry.tryBlock (env k)) = inr err ->
        Retry.classifyError toLowerCase err = Retry.CONTEXT ->
        Retry.attempts r <= k + 1).
Proof.
  intros toLowerCase env r. unfold r, Retry.requestTranslationWithAdvancedRetry.
  split; [reflexivity|]. split.
  { eapply Nat.le_trans; [apply retryLoop_attempts_le|]. simpl. lia. }
  split.
  { apply retryLoop_calls_le. simpl. lia. }
  split.
  { intros Hnet. rewrite retryLoop_network_attempts; [reflexivity | reflexivity | exact Hnet]. }
  split.
  2:{ intros k err Herr Hcl.
      eapply Nat.le_trans;
        [apply (@retryLoop_context_bound toLowerCase env _ 0 _ _ k err);
         [lia | assumption ..]|].
      simpl. lia. }
  intros err Herr Hcl.
  change (Retry.maxRetries + 1) with (S Retry.maxRetries).
  match goal with
  | |- context [Retry.retryLoop _ _ (S ?n) 0 ?le ?d] =>
      destruct (@retryLoop_context_stops toLowerCase env n 0 le d err Herr Hcl)
        as (Ha & Ho & Hw);
      pose proof (@retryLoop_calls_le toLowerCase env (S n) 0 le d (Nat.le_refl 0)) as Hc
  end.
  rewrite Ha in Hc. rewrite Ha, Ho, Hw. simpl. auto.
Qed.

(** A backend that is unreachable at every attempt, and a runtime that is
    gone at the first. *)
Definition env_network : nat -> Retry.Attempt :=
  fun _ => {| Retry.runtimeId := true; Retry.isTranslating := true;
              Retry.response := Retry.Rejected (lit "Network error") |}.

Definition env_context : nat -> Retry.Attempt :=
  fun _ => {| Retry.runtimeId := false; Retry.isTranslating := true;
              Retry.response := Retry.Resolved None |}.

Lemma retry_attempt_ceiling_witness :
  Retry.attempts
    (Retry.requestTranslationWithAdvancedRetry Retry.asciiLowerCase env_network) = 4 /\
  Retry.attempts
    (Retry.requestTranslationWithAdvancedRetry Retry.asciiLowerCase env_context) = 1.
Proof.
  split.
  - destruct (retry_attempt_ceiling Retry.asciiLowerCase env_network)
      as (_ & _ & _ & H & _).
    apply H. intros k. exists (lit "Network error"). split; reflexivity.
  - destruct (retry_attempt_ceiling Retry.asciiLowerCase env_context)
      as (_ & _ & _ & _ & H & _).
    apply (H Retry.msg_context_invalid); reflexivity.
Defined.

(** A backend that times out at every attempt. *)
Definition env_timeout : nat -> Retry.Attempt :=
  fun _ => {| Retry.runtimeId := true; Retry.isTranslating := true;
              Retry.response := Retry.Rejected (lit "Request timeout") |}.

(** C5, as stated, fails for a timeout: the error of the first attempt is
    classified as timeout, and the wait before the second attempt is the
    base delay 1000 ms, not 1000 ms times 1.5. *)
Lemma backoff_timeout_counterexample :
  let r := Retry.requestTranslationWithAdvancedRetry Retry.asciiLowerCase env_timeout in
  Retry.classifyError Retry.asciiLowerCase (lit "Request timeout") = Retry.TIMEOUT /\
  fst (Retry.tryBlock (env_timeout 0)) = inr (lit "Request timeout") /\
  Retry.waits r = [1000; 2000; 4000]%Q /\
  ~ (nth 0 (Retry.waits r) 0 == nth 0 Retry.retryDelays 0 * (3 # 2))%Q.
Proof.
  split; [reflexivity|]. split; [reflexivity|]. split; [reflexivity|].
  vm_compute. discriminate.
Qed.

(** C5, amended. Every wait of the wrapper follows a failed attempt [k < 3]
    and depends on the class of its error: after a network error it is the
    base delay of the attempt (1000, 2000, 4000 ms) times 1.5; after a
    timeout it is the base delay itself. *)
Theorem backoff_by_error_class :
  forall (toLowerCase : jsstring -> jsstring) (env : nat -> Retry.Attempt)
         (k : nat) (w : Q),
    nth_error
      (Retry.waits (Retry.requestTranslationWithAdvancedRetry toLowerCase env)) k
    = Some w ->
    exists err base,
      fst (Retry.tryBlock (env k)) = inr err /\
      nth_error [1000; 2000; 4000]%Q k = Some base /\
      (Retry.classifyError toLowerCase err = Retry.NETWORK ->
       (w == base * (3 # 2))%Q) /\
      (Retry.classifyError toLowerCase err = Retry.TIMEOUT -> w = base).
Proof.
  intros toLowerCase env k w Hk.
  unfold Retry.requestTranslationWithAdvancedRetry in Hk.
  match type of Hk with
  | context [Retry.retryLoop _ _ ?n 0 ?le ?d] =>
      destruct (@retryLoop_waits toLowerCase env n 0 le d) as (ws & Hws & Hall)
  end.
  rewrite Hws in Hk. simpl in Hk.
  destruct (Hall k w Hk) as (err & Herr & Hw & Hlt). simpl in Herr, Hw, Hlt.
  unfold Retry.maxRetries in Hlt.
  exists err, (nth k Retry.retryDelays 0%Q). split; [exact Herr|]. split.
  { destruct k as [|[|[|k]]]; try reflexivity; lia. }
  split; intros Hcl; rewrite Hcl in Hw; subst w; unfold Retry.retryDelay.
  - rewrite Qred_correct.
    destruct k as [|[|[|k]]]; try reflexivity; lia.
  - destruct k as [|[|[|k]]]; try reflexivity; lia.
Qed.

Lemma backoff_by_error_class_witness :
  exists err base,
    fst (Retry.tryBlock (env_network 1)) = inr err /\
    nth_error [1000; 2000; 4000]%Q 1 = Some base /\
    (Retry.classifyError Retry.asciiLowerCase err = Retry.NETWORK ->
     (3000 == base * (3 # 2))%Q) /\
    (Retry.classifyError Retry.asciiLowerCase err = Retry.TIMEOUT -> 3000%Q = base).
Proof.
  apply (@backoff_by_error_class Retry.asciiLowerCase env_network 1 3000%Q).
  reflexivity.
Defined.

(** ** The grouping heuristic *)






(** ** Reassembly *)

Unset Implicit Arguments.

Lemma substring_split (s : jsstring) (cut : Z) :
  substring s 0 cut ++ substring_from s cut = s.
Proof.
  unfold substring, substring_from, clamp. simpl Z.to_nat.
  rewrite Nat.min_0_l. simpl Nat.min. rewrite Nat.max_0_l, Nat.sub_0_r.
  simpl skipn. apply firstn_skipn.
Qed.

Section CutPoint.

Variables (qualifies : Z -> bool) (cutAt : Z -> Z) (targetLength : Z).

Local Abbreviation scan := (fold_left (Reassembly.consider qualifies cutAt targetLength)).

Lemma consider_skip st c :
  qualifies c = false -> Reassembly.consider qualifies cutAt targetLength st c = st.
Proof. intros H. unfold Reassembly.consider. now rewrite H. Qed.

Lemma consider_first best c :
  qualifies c = true ->
  Reassembly.consider qualifies cutAt targetLength (best, None) c
  = (cutAt c, Some (Z.abs (c - targetLength))).
Proof. intros H. unfold Reassembly.consider. now rewrite H. Qed.

Lemma consider_next best d c :
  qualifies c = true ->
  Reassembly.consider qualifies cutAt targetLength (best, Some d) c
  = if (Z.abs (c - targetLength) <? d)%Z
    then (cutAt c, Some (Z.abs (c - targetLength)))
    else (best, Some d).
Proof. intros H. unfold Reassembly.consider. now rewrite H. Qed.

(** Scanning on from a best candidate ends at a nearest one, and at the
    earlier of two equally near. *)
Lemma scan_from_some cands : forall i0,
  qualifies i0 = true ->
  exists i,
    scan cands (cutAt i0, Some (Z.abs (i0 - targetLength)))
    = (cutAt i, Some (Z.abs (i - targetLength))) /\
    (i = i0 \/ In i cands) /\ qualifies i = true /\
    (Z.abs (i - targetLength) <= Z.abs (i0 - targetLength))%Z /\
    forall j, In j cands -> qualifies j = true ->
              (Z.abs (i - targetLength) <= Z.abs (j - targetLength))%Z.
Proof.
  induction cands as [|c cands IH]; intros i0 H0; simpl.
  - exists i0. split; [reflexivity|]. split; [auto|]. split; [assumption|].
    split; [lia|]. intros j [].
  - destruct (qualifies c) eqn:Ec;
      [rewrite (consider_next _ _ _ Ec) | rewrite (consider_skip _ _ Ec)].
    + destruct (Z.abs (c - targetLength) <? Z.abs (i0 - targetLength))%Z eqn:El.
      * apply Z.ltb_lt in El. destruct (IH c Ec) as (i & Hf & Hin & Hq & Hle & Hmin).
        exists i. repeat split; auto.
        -- destruct Hin; auto.
        -- lia.
        -- intros j [<-|Hj] Hqj; auto.
      * apply Z.ltb_ge in El. destruct (IH i0 H0) as (i & Hf & Hin & Hq & Hle & Hmin).
        exists i. repeat split; auto.
        -- destruct Hin; auto.
        -- intros j [<-|Hj] Hqj; [lia | auto].
    + destruct (IH i0 H0) as (i & Hf & Hin & Hq & Hle & Hmin).
      exists i. repeat split; auto.
      * destruct Hin; auto.
      * intros j [<-|Hj] Hqj; [congruence | auto].
Qed.

(** Scanning from [Infinity]: nothing qualifies and the state is unchanged,
    or the scan ends at a nearest candidate. *)
Lemma scan_from_none cands : forall best,
  (scan cands (best, None) = (best, None) /\
   forall j, In j cands -> qualifies j = false) \/
  exists i,
    scan cands (best, None) = (cutAt i, Some (Z.abs (i - targetLength))) /\
    In i cands /\ qualifies i = true /\
    forall j, In j cands -> qualifies j = true ->
              (Z.abs (i - targetLength) <= Z.abs (j - targetLength))%Z.
Proof.
  induction cands as [|c cands IH]; intros best; simpl.
  - left. split; [reflexivity | intros j []].
  - destruct (qualifies c) eqn:Ec;
      [rewrite (consider_first _ _ Ec) | rewrite (consider_skip _ _ Ec)].
    + right. destruct (scan_from_some cands c Ec) as (i & Hf & Hin & Hq & Hle & Hmin).
      exists i. repeat split; auto.
      * destruct Hin as [->|Hin]; auto.
      * intros j [<-|Hj] Hqj; auto.
    + destruct (IH best) as [[Hf Hno]|(i & Hf & Hin & Hq & Hmin)].
      * left. split; [exact Hf|]. intros j [<-|Hj]; auto.
      * right. exists i. repeat split; auto.
        intros j [<-|Hj] Hqj; [congruence | auto].
Qed.

End CutPoint.

Lemma in_range (from to i : Z) :
  In i (Reassembly.range from to) <-> (from <= i <= to)%Z.
Proof.
  unfold Reassembly.range. rewrite in_map_iff. split.
  - intros (k & <- & Hk). apply in_seq in Hk. lia.
  - intros H. exists (Z.to_nat (i - from)). split; [lia|]. apply in_seq. lia.
Qed.

(** A sentence terminator, a space or a line feed at index [i]. *)
Definition enderAt (text : jsstring) (i : Z) : Prop :=
  exists c, Reassembly.charAt text i = Some c /\ Reassembly.isSentenceEnder c = true.

Definition spaceAt (text : jsstring) (i : Z) : Prop :=
  Reassembly.charAt text i = Some 32%N \/ Reassembly.charAt text i = Some 10%N.

(** The search window around the target: as far as [min(50, length / 10)]
    on either side, within the text. *)
Definition inWindow (text : jsstring) (targetLength i : Z) : Prop :=
  let len := Z.of_nat (length text) in
  let searchRange := Z.min 50 (len / 10) in
  (Z.max 0 (targetLength - searchRange) <= i <= Z.min len (targetLength + searchRange))%Z.

(** [i] has [P] and no index with [P] is nearer to the target. *)
Definition nearest (P : Z -> Prop) (targetLength i : Z) : Prop :=
  P i /\ forall j, P j -> (Z.abs (i - targetLength) <= Z.abs (j - targetLength))%Z.

(** What [findSuitableCutPoint] returns for a target inside the text: the
    index after a nearest terminator of the window; or, the window having
    no terminator, the index of a nearest space or line feed of the window;
    or, the window having neither, the target. *)
Definition cutPointSpec (text : jsstring) (targetLength cut : Z) : Prop :=
  (exists i, nearest (fun i => enderAt text i /\ inWindow text targetLength i)
                     targetLength i /\ cut = (i + 1)%Z) \/
  ((forall j, inWindow text targetLength j -> ~ enderAt text j) /\
   exists i, nearest (fun i => spaceAt text i /\ inWindow text targetLength i)
                     targetLength i /\ cut = i) \/
  ((forall j, inWindow text targetLength j -> ~ enderAt text j /\ ~ spaceAt text j) /\
   cut = targetLength).

Lemma charAt_Some_range text i c :
  Reassembly.charAt text i = Some c -> (0 <= i <= Z.of_nat (length text) - 1)%Z.
Proof.
  unfold Reassembly.charAt. destruct (i <? 0)%Z eqn:E; [discriminate|].
  apply Z.ltb_ge in E. intros H.
  assert (Z.to_nat i < length text) by (apply nth_error_Some; congruence). lia.
Qed.

Lemma in_matchIndexes text i :
  In i (Reassembly.matchIndexes text) <-> enderAt text i.
Proof.
  unfold Reassembly.matchIndexes, enderAt. rewrite filter_In, in_range. split.
  - intros [_ H]. destruct (Reassembly.charAt text i) as [c|]; [|discriminate].
    exists c. auto.
  - intros (c & Hc & He). split; [eapply charAt_Some_range; eauto|].
    rewrite Hc. exact He.
Qed.

Lemma findSuitableCutPoint_beyond text targetLength :
  (Z.of_nat (length text) <= targetLength)%Z ->
  Reassembly.findSuitableCutPoint text targetLength = Z.of_nat (length text).
Proof.
  intros H. unfold Reassembly.findSuitableCutPoint.
  apply Z.leb_le in H. now rewrite H.
Qed.

Lemma findSuitableCutPoint_spec text targetLength :
  (targetLength < Z.of_nat (length text))%Z ->
  cutPointSpec text targetLength (Reassembly.findSuitableCutPoint text targetLength).
Proof.
  intros Hlt. unfold Reassembly.findSuitableCutPoint.
  apply Z.leb_gt in Hlt. rewrite Hlt.
  set (len := Z.of_nat (length text)).
  set (searchRange := Z.min 50 (len / 10)).
  set (startSearch := Z.max 0 (targetLength - searchRange)).
  set (endSearch := Z.min len (targetLength + searchRange)).
  assert (Hwin : forall j, inWindow text targetLength j <->
                           (startSearch <=? j)%Z && (j <=? endSearch)%Z = true).
  { intros j. unfold inWindow. fold len. fold searchRange. fold startSearch endSearch.
    rewrite andb_true_iff, !Z.leb_le. tauto. }
  destruct (scan_from_none
              (fun index => (startSearch <=? index)%Z && (index <=? endSearch)%Z)
              (fun index => (index + 1)%Z) targetLength
              (Reassembly.matchIndexes text) targetLength)
    as [[Hf Hno]|(i & Hf & Hin & Hq & Hmin)]; rewrite Hf.
  - assert (Hnoend : forall j, inWindow text targetLength j -> ~ enderAt text j).
    { intros j Hw He. apply in_matchIndexes in He. apply Hwin in Hw.
      rewrite (Hno j He) in Hw. discriminate. }
    destruct (scan_from_none
                (fun i => match Reassembly.charAt text i with
                          | Some c => (c =? 32)%N || (c =? 10)%N
                          | None => false
                          end)
                (fun i => i) targetLength
                (Reassembly.range startSearch endSearch) targetLength)
      as [[Hg Hnos]|(i & Hg & Hin & Hq & Hmin)]; rewrite Hg; simpl fst.
    + right; right. split; [|reflexivity]. intros j Hw. split; [auto|].
      intros Hs. assert (Hr : In j (Reassembly.range startSearch endSearch)).
      { apply in_range. apply Hwin in Hw. apply andb_true_iff in Hw.
        rewrite !Z.leb_le in Hw. exact Hw. }
      specialize (Hnos j Hr). destruct Hs as [Hs|Hs]; rewrite Hs in Hnos; discriminate.
    + right; left. split; [exact Hnoend|]. exists i. split; [|reflexivity].
      assert (Hsp : forall j,
                 match Reassembly.charAt text j with
                 | Some c => (c =? 32)%N || (c =? 10)%N
                 | None => false
                 end = true <-> spaceAt text j).
      { intros j. unfold spaceAt. destruct (Reassembly.charAt text j) as [c|].
        - rewrite orb_true_iff, !N.eqb_eq. split; intros [H|H];
            [left | right | left | right]; congruence.
        - split; [discriminate | intros [H|H]; discriminate]. }
      split.
      * split; [now apply Hsp|]. apply Hwin. apply in_range in Hin.
        rewrite andb_true_iff, !Z.leb_le. exact Hin.
      * intros j [Hs Hw]. apply Hmin; [|now apply Hsp].
        apply in_range. apply Hwin in Hw. apply andb_true_iff in Hw.
        rewrite !Z.leb_le in Hw. exact Hw.
  - left. exists i. split; [|reflexivity]. split.
    + split; [now apply in_matchIndexes | now apply Hwin].
    + intros j [He Hw]. apply Hmin; [now apply in_matchIndexes | now apply Hwin].
Qed.

Section RatioProperties.

Variable roundRatio : nat -> nat -> nat -> Z.
Variables (L T : nat).

Local Abbreviation loop := (Reassembly.ratioLoop roundRatio L T).

Lemma ratioLoop_length texts : forall remaining,
  length (loop texts remaining) = length texts.
Proof.
  induction texts as [|a [|b rest] IH]; intros remaining; try reflexivity.
  simpl in *. now rewrite IH.
Qed.

Lemma ratioLoop_concat texts : forall remaining,
  texts <> [] -> concat (loop texts remaining) = remaining.
Proof.
  induction texts as [|a [|b rest] IH]; intros remaining Hne; [congruence | |].
  - simpl. apply app_nil_r.
  - change (loop (a :: b :: rest) remaining)
      with (let cut := Reassembly.findSuitableCutPoint remaining
                         (roundRatio L (length a) T) in
            substring remaining 0 cut :: loop (b :: rest) (substring_from remaining cut)).
    cbv zeta. rewrite concat_cons, IH by discriminate. apply substring_split.
Qed.

(** The last part is what the earlier parts leave. *)
Lemma ratioLoop_last texts : forall remaining,
  texts <> [] ->
  exists earlier rest,
    loop texts remaining = earlier ++ [rest] /\
    length earlier = pred (length texts) /\
    remaining = concat earlier ++ rest.
Proof.
  induction texts as [|a [|b rest] IH]; intros remaining Hne; [congruence | |].
  - exists [], remaining. repeat split.
  - change (loop (a :: b :: rest) remaining)
      with (let cut := Reassembly.findSuitableCutPoint remaining
                         (roundRatio L (length a) T) in
            substring remaining 0 cut :: loop (b :: rest) (substring_from remaining cut)).
    cbv zeta.
    destruct (IH (substring_from remaining
                    (Reassembly.findSuitableCutPoint remaining
                       (roundRatio L (length a) T))))
      as (earlier & r & He & Hl & Hc); [discriminate|].
    eexists (_ :: earlier), r. rewrite He. split; [reflexivity|]. split.
    + simpl in *. now rewrite Hl.
    + rewrite concat_cons, <- app_assoc, <- Hc. symmetry. apply substring_split.
Qed.

(** The part of a member that is not the last: what then remains of the
    translation, up to the cut point found in it for the member's share. *)
Lemma ratioLoop_interior before : forall a b after remaining,
  exists earlier remaining',
    length earlier = length before /\
    remaining = concat earlier ++ remaining' /\
    let cutPoint := Reassembly.findSuitableCutPoint remaining'
                      (roundRatio L (length a) T) in
    loop (before ++ a :: b :: after) remaining
    = earlier ++ substring remaining' 0 cutPoint
        :: loop (b :: after) (substring_from remaining' cutPoint).
Proof.
  induction before as [|x before IH]; intros a b after remaining.
  - exists [], remaining. repeat split.
  - destruct (IH a b after
                (substring_from remaining
                   (Reassembly.findSuitableCutPoint remaining
                      (roundRatio L (length x) T))))
      as (earlier & rem' & Hl & Hc & He).
    eexists (_ :: earlier), rem'. split; [simpl; now rewrite Hl|]. split.
    + rewrite concat_cons, <- app_assoc, <- Hc. symmetry. apply substring_split.
    + cbv zeta in *.
      transitivity
        (substring remaining 0
           (Reassembly.findSuitableCutPoint remaining (roundRatio L (length x) T))
         :: loop (before ++ a :: b :: after)
              (substring_from remaining
                 (Reassembly.findSuitableCutPoint remaining
                    (roundRatio L (length x) T)))).
      * clear. destruct before; reflexivity.
      * rewrite He. reflexivity.
Qed.

End RatioProperties.

(** C7, as stated, fails for members whose texts are all empty: two members
    get a single part. *)
Lemma splitTranslationByRatio_counterexample :
  [[]; []] <> ([] : list jsstring) /\
  length (Reassembly.splitTranslationByRatio Reassembly.doubleRoundRatio
            (lit "ab") [[]; []])
  <> length ([[]; []] : list jsstring) /\
  Reassembly.splitTranslationByRatio Reassembly.doubleRoundRatio (lit "ab") [[]; []]
  = [lit "ab"].
Proof.
  split; [discriminate|]. split; [vm_compute; discriminate | reflexivity].
Qed.

(** C7, amended. The parts [splitTranslationByRatio] returns always
    concatenate to the translation.  When all member texts are empty there
    is one part, the translation.  Otherwise there is one part per member;
    the last part is all that the earlier parts leave; and the part of a
    member that is not the last is the translation left by the parts before
    it, up to the cut point [findSuitableCutPoint] finds in it for the
    member's rounded share [Math.round(L * (a / T))]: the length of what is
    left when the share reaches it, else the index after a nearest sentence
    terminator within [min(50, length / 10)] of the share, else the index of
    a nearest space or line feed within the same distance, else the share
    itself. *)
Theorem splitTranslationByRatio_partition :
  forall (roundRatio : nat -> nat -> nat -> Z)
         (translation : jsstring) (originalTexts : list jsstring),
    let totalLength := fold_left (fun sum text => sum + length text) originalTexts 0 in
    let parts := Reassembly.splitTranslationByRatio roundRatio translation originalTexts in
    concat parts = translation /\
    (totalLength = 0 -> parts = [translation]) /\
    (0 < totalLength ->
     length parts = length originalTexts /\
     (exists earlier rest,
         parts = earlier ++ [rest] /\
         length earlier = pred (length originalTexts) /\
         translation = concat earlier ++ rest) /\
     forall before a b after,
       originalTexts = before ++ a :: b :: after ->
       exists earlier remaining,
         firstn (length before) parts = earlier /\
         length earlier = length before /\
         translation = concat earlier ++ remaining /\
         let share := roundRatio (length translation) (length a) totalLength in
         let cutPoint := Reassembly.findSuitableCutPoint remaining share in
         nth_error parts (length before) = Some (substring remaining 0 cutPoint) /\
         ((Z.of_nat (length remaining) <= share)%Z ->
          cutPoint = Z.of_nat (length remaining)) /\
         ((share < Z.of_nat (length remaining))%Z ->
          cutPointSpec remaining share cutPoint)).
Proof.
  intros roundRatio translation originalTexts totalLength parts.
  unfold parts, Reassembly.splitTranslationByRatio. fold totalLength.
  destruct (totalLength =? 0) eqn:E.
  - apply Nat.eqb_eq in E. split; [simpl; apply app_nil_r|].
    split; [reflexivity | lia].
  - apply Nat.eqb_neq in E.
    assert (Hne : originalTexts <> []).
    { intros ->. apply E. reflexivity. }
    split; [now apply ratioLoop_concat|]. split; [lia|]. intros _.
    split; [apply ratioLoop_length|]. split.
    { destruct (ratioLoop_last roundRatio (length translation) totalLength
                  originalTexts translation Hne) as (earlier & rest & H1 & H2 & H3).
      exists earlier, rest. auto. }
    intros before a b after Heq. rewrite Heq.
    destruct (ratioLoop_interior roundRatio (length translation) totalLength
                before a b after translation) as (earlier & remaining & Hl & Hc & He).
    exists earlier, remaining. cbv zeta in He. rewrite He.
    split; [rewrite <- Hl; rewrite firstn_app, Nat.sub_diag, firstn_all; simpl;
            apply app_nil_r|].
    split; [exact Hl|]. split; [exact Hc|]. cbv zeta. split.
    { rewrite <- Hl. rewrite nth_error_app2 by lia. now rewrite Nat.sub_diag. }
    split; [apply findSuitableCutPoint_beyond | apply findSuitableCutPoint_spec].
Qed.

(** A translation of 82 code units shared among members of 10, 20 and 10. *)
Definition sample_translation : jsstring :=
  lit "Hello there my friend. This is the second part of it! And a third one follows here".

Definition sample_members : list jsstring :=
  [repeat 97%N 10; repeat 98%N 20; repeat 99%N 10].

Lemma splitTranslationByRatio_partition_witness :
  Reassembly.splitTranslationByRatio Reassembly.doubleRoundRatio
    sample_translation sample_members
  = [lit "Hello there my friend.";
     lit " This is the second part of it! And a third";
     lit " one follows here"] /\
  length (Reassembly.splitTranslationByRatio Reassembly.doubleRoundRatio
            sample_translation sample_members)
  = length sample_members.
Proof.
  split; [vm_compute; reflexivity|].
  destruct (splitTranslationByRatio_partition Reassembly.doubleRoundRatio
              sample_translation sample_members) as (_ & _ & H).
  apply H. vm_compute. lia.
Defined.

(** ** The segment builder *)

Lemma Element_eqb_eq (a b : Seg.Element) : Seg.Element_eqb a b = true <-> a = b.
Proof.
  unfold Seg.Element_eqb. destruct (Seg.Element_eq_dec a b); split; congruence.
Qed.

Lemma list_eqb_Element_eq (l1 l2 : list Seg.Element) :
  Seg.list_eqb Seg.Element_eqb l1 l2 = true <-> l1 = l2.
Proof.
  revert l2; induction l1 as [|x l1 IH]; intros [|y l2]; simpl;
    try (split; (reflexivity || discriminate)).
  rewrite andb_true_iff, Element_eqb_eq, IH. split.
  - intros [-> ->]; reflexivity.
  - intros H; injection H; auto.
Qed.

(** An object is the same object as itself. *)
Lemma Segment_eqb_refl : forall s, Seg.Segment_eqb s s = true.
Proof.
  fix IH 1. intros [e t c|e t c|e t gs|e t g i]; simpl.
  - rewrite (proj2 (list_eqb_Element_eq e e) eq_refl), str_eqb_refl, Nat.eqb_refl.
    reflexivity.
  - rewrite (proj2 (list_eqb_Element_eq e e) eq_refl), str_eqb_refl, Nat.eqb_refl.
    reflexivity.
  - rewrite (proj2 (list_eqb_Element_eq e e) eq_refl), str_eqb_refl. simpl.
    induction gs as [|g gs IHgs]; [reflexivity|].
    rewrite IH. exact IHgs.
  - rewrite (proj2 (list_eqb_Element_eq e e) eq_refl), str_eqb_refl, IH, Nat.eqb_refl.
    reflexivity.
Qed.

(** The same object owns the same nodes. *)
Lemma Segment_eqb_elements (a b : Seg.Segment) :
  Seg.Segment_eqb a b = true -> Seg.elements a = Seg.elements b.
Proof.
  destruct a, b; simpl; try discriminate; intros H;
    repeat (apply andb_true_iff in H; destruct H as [H ?]);
    now apply list_eqb_Element_eq.
Qed.

(** No node is in both lists. *)
Definition disjoint (a b : list Seg.Element) : Prop :=
  forall e, In e a -> In e b -> False.

(** No node is owned by two segments at different places of the list. *)
Definition owners_disjoint (segs : list Seg.Segment) : Prop :=
  ForallOrdPairs (fun a b => disjoint (Seg.elements a) (Seg.elements b)) segs.

Lemma ForallOrdPairs_snoc (A : Type) (R : A -> A -> Prop) (l : list A) (a : A) :
  ForallOrdPairs R l -> Forall (fun x => R x a) l -> ForallOrdPairs R (l ++ [a]).
Proof.
  induction 1 as [|x l Hx Hl IH]; intros Ha; simpl.
  - constructor; constructor.
  - inversion Ha; subst. constructor.
    + apply Forall_app. split; [exact Hx | constructor; [assumption | constructor]].
    + now apply IH.
Qed.

Lemma ForallOrdPairs_app (A : Type) (R : A -> A -> Prop) (l1 l2 : list A) :
  ForallOrdPairs R l1 -> ForallOrdPairs R l2 ->
  (forall x y, In x l1 -> In y l2 -> R x y) ->
  ForallOrdPairs R (l1 ++ l2).
Proof.
  induction 1 as [|x l Hx Hl IH]; intros H2 Hc; simpl; [exact H2|].
  constructor.
  - apply Forall_app. split; [exact Hx|].
    apply Forall_forall. intros y Hy. apply Hc; [now left | exact Hy].
  - apply IH; [exact H2|]. intros a b Ha Hb. apply Hc; [now right | exact Hb].
Qed.

Lemma ForallOrdPairs_app_inv (A : Type) (R : A -> A -> Prop) (l1 l2 : list A) :
  ForallOrdPairs R (l1 ++ l2) ->
  ForallOrdPairs R l1 /\ ForallOrdPairs R l2 /\
  forall x y, In x l1 -> In y l2 -> R x y.
Proof.
  induction l1 as [|a l1 IH]; simpl; intros H.
  - split; [constructor|]. split; [exact H|]. intros x y [].
  - inversion H as [|? ? Ha Hl]; subst.
    destruct (IH Hl) as (H1 & H2 & Hc). apply Forall_app in Ha as [Ha1 Ha2].
    split; [constructor; assumption|]. split; [exact H2|].
    intros x y [<-|Hx] Hy; [|now apply Hc].
    rewrite Forall_forall in Ha2. now apply Ha2.
Qed.

Section GroupingProperties.

Variable toLowerCase : jsstring -> jsstring.
Variable visualNear : Seg.Element -> Seg.Element -> bool.
Variable all : list Seg.Element.

Lemma has_In visited e : Seg.has visited e = true <-> In e visited.
Proof.
  unfold Seg.has. rewrite existsb_exists. split.
  - intros (x & Hx & He). apply Element_eqb_eq in He. now subst.
  - intros H. exists e. split; [exact H | now apply Element_eqb_eq].
Qed.

(** A node is related to itself. *)
Lemma areElementsRelated_refl e : Seg.areElementsRelated toLowerCase visualNear e e = true.
Proof.
  unfold Seg.areElementsRelated, Seg.calculateDOMDistance.
  rewrite Z.sub_diag. reflexivity.
Qed.

Lemma join_nil_inv sep (l : list jsstring) :
  join sep l = [] -> forall t, In t l -> t = [].
Proof.
  induction l as [|x [|y l] IH]; simpl; intros H t Ht.
  - destruct Ht.
  - destruct Ht as [<-|[]]. exact H.
  - apply app_eq_nil in H as [Hx H]. apply app_eq_nil in H as [_ H].
    destruct Ht as [<-|Ht]; [exact Hx|]. apply IH; assumption.
Qed.

(** A group made by the grouping step: of type [single] or [grouped]. *)
Definition plain (g : Seg.Segment) : Prop :=
  match g with
  | Seg.Single _ _ _ | Seg.Grouped _ _ _ => True
  | _ => False
  end.

(** What holds of [groups] and [visited] all through the loop of
    [groupElementsByContainer]: the visited nodes are the nodes of the
    groups; no node is in two groups; every group has nodes, is of type
    [single] or [grouped], and has its nodes in the order of the input. *)
Record group_inv (st : list Seg.Segment * list Seg.Element) : Prop := {
  gi_visited : forall e, In e (snd st) <->
                         exists g, In g (fst st) /\ In e (Seg.elements g);
  gi_disjoint : owners_disjoint (fst st);
  gi_nonempty : Forall (fun g => Seg.elements g <> []) (fst st);
  gi_plain : Forall plain (fst st);
  gi_order : Forall (fun g => exists p, Seg.elements g = filter p all) (fst st)
}.

Lemma group_inv_push groups visited g :
  group_inv (groups, visited) ->
  (forall e, In e (Seg.elements g) -> ~ In e visited) ->
  Seg.elements g <> [] -> plain g ->
  (exists p, Seg.elements g = filter p all) ->
  group_inv (groups ++ [g], visited ++ Seg.elements g).
Proof.
  intros [Hv Hd Hn Hp Ho] Hnew Hne Hpl Hord; simpl in *.
  constructor; simpl.
  - intros e. rewrite in_app_iff, Hv. split.
    + intros [(g' & Hg' & He)|He].
      * exists g'. split; [apply in_or_app; now left | exact He].
      * exists g. split; [apply in_or_app; right; now left | exact He].
    + intros (g' & Hg' & He). apply in_app_or in Hg' as [Hg'|[<-|[]]].
      * left. exists g'. auto.
      * now right.
  - apply ForallOrdPairs_snoc; [exact Hd|].
    apply Forall_forall. intros g' Hg' e He1 He2.
    apply (Hnew e He2). apply Hv. exists g'. auto.
  - apply Forall_app. split; [exact Hn | constructor; [exact Hne | constructor]].
  - apply Forall_app. split; [exact Hp | constructor; [exact Hpl | constructor]].
  - apply Forall_app. split; [exact Ho | constructor; [exact Hord | constructor]].
Qed.

Lemma groupStep_inv st element :
  In element all ->
  group_inv st -> group_inv (Seg.groupStep toLowerCase visualNear all st element).
Proof.
  destruct st as [groups visited]. intros Hall Hinv. unfold Seg.groupStep.
  destruct (Seg.has visited element) eqn:Hvis; [exact Hinv|].
  set (related := filter _ all).
  assert (Hnew : forall e, In e related -> ~ In e visited).
  { intros e He. apply filter_In in He as [_ He].
    apply andb_true_iff in He as [He _]. apply andb_true_iff in He as [He _].
    apply negb_true_iff in He. intros Hin. apply has_In in Hin. congruence. }
  assert (Hr : In element related).
  { apply filter_In. split; [exact Hall|].
    rewrite Hvis, Nat.eqb_refl, areElementsRelated_refl. reflexivity. }
  destruct (1 <? length related) eqn:Hlen.
  - destruct (0 <? length (join _ _)); [|exact Hinv].
    apply (group_inv_push groups visited (Seg.Grouped related _ _) Hinv); simpl.
    + exact Hnew.
    + intros E. rewrite E in Hr. destruct Hr.
    + exact I.
    + eexists. reflexivity.
  - simpl negb. cbv iota.
    destruct (0 <? length (trim (Seg.textContent element))) eqn:Ht; [|exact Hinv].
    apply Nat.ltb_ge in Hlen.
    assert (Hone : related = [element]).
    { destruct related as [|x [|y r]]; simpl in Hlen; [destruct Hr | | lia].
      destruct Hr as [->|[]]. reflexivity. }
    apply (group_inv_push groups visited (Seg.Single [element] _ _) Hinv); simpl.
    + intros e [<-|[]] Hin'. apply has_In in Hin'. congruence.
    + discriminate.
    + exact I.
    + exists (fun el => negb (Seg.has visited el)
                        && (Seg.container el =? Seg.container element)
                        && Seg.areElementsRelated toLowerCase visualNear element el).
      symmetry. exact Hone.
Qed.

(** A step never forgets a visited node, and leaves the node it is run on
    visited unless its trimmed text is empty. *)
Lemma groupStep_visited st element :
  In element all ->
  (forall e, In e (snd st) -> In e (snd (Seg.groupStep toLowerCase visualNear all st element))) /\
  (In element (snd (Seg.groupStep toLowerCase visualNear all st element)) \/
   trim (Seg.textContent element) = []).
Proof.
  destruct st as [groups visited]. intros Hall. unfold Seg.groupStep.
  destruct (Seg.has visited element) eqn:Hvis.
  { split; [auto|]. left. now apply has_In. }
  set (related := filter _ all).
  assert (Hr : In element related).
  { apply filter_In. split; [exact Hall|].
    rewrite Hvis, Nat.eqb_refl, areElementsRelated_refl. reflexivity. }
  destruct (1 <? length related) eqn:Hlen.
  - destruct (0 <? length (join _ _)) eqn:Hj; simpl.
    + split; [intros e He; apply in_or_app; now left|].
      left. apply in_or_app. now right.
    + split; [auto|]. right. apply Nat.ltb_ge in Hj.
      destruct (trim (Seg.textContent element)) as [|c r] eqn:Ht; [reflexivity|].
      exfalso.
      assert (Hnil : join Seg.blankLine
                       (filter (fun t => 0 <? length t)
                          (map (fun el => trim (Seg.textContent el)) related)) = []).
      { destruct (join _ _); [reflexivity | simpl in Hj; lia]. }
      assert (Hin : In (c :: r)
                      (filter (fun t => 0 <? length t)
                         (map (fun el => trim (Seg.textContent el)) related))).
      { apply filter_In. split; [|reflexivity].
        apply in_map_iff. exists element. auto. }
      pose proof (join_nil_inv _ _ Hnil _ Hin). discriminate.
  - simpl negb. cbv iota.
    destruct (0 <? length (trim (Seg.textContent element))) eqn:Ht; simpl.
    + split; [intros e He; apply in_or_app; now left|].
      left. apply in_or_app. right. now left.
    + split; [auto|]. right. apply Nat.ltb_ge in Ht.
      destruct (trim (Seg.textContent element)); [reflexivity | simpl in Ht; lia].
Qed.

Lemma group_fold l : forall st,
  incl l all -> group_inv st ->
  let st' := fold_left (Seg.groupStep toLowerCase visualNear all) l st in
  group_inv st' /\
  (forall e, In e (snd st) -> In e (snd st')) /\
  (forall e, In e l -> In e (snd st') \/ trim (Seg.textContent e) = []).
Proof.
  induction l as [|x l IH]; intros st Hincl Hinv; simpl.
  - split; [exact Hinv|]. split; [auto | intros e []].
  - assert (Hx : In x all) by (apply Hincl; now left).
    assert (Hl : incl l all) by (intros e He; apply Hincl; now right).
    destruct (IH (Seg.groupStep toLowerCase visualNear all st x) Hl (groupStep_inv st x Hx Hinv))
      as (H1 & H2 & H3).
    destruct (groupStep_visited st x Hx) as [Hmono Hcov].
    split; [exact H1|]. split; [auto|].
    intros e [<-|He]; [|auto].
    destruct Hcov as [Hcov|Hcov]; [left; auto | now right].
Qed.

(** The result of the grouping step: no node is in two groups, every group
    has nodes, is [single] or [grouped] and has its nodes in input order,
    and every input node whose trimmed text is not empty is in a group. *)
Lemma grouping_result :
  let groups := Seg.groupElementsByContainer toLowerCase visualNear all in
  owners_disjoint groups /\
  Forall (fun g => Seg.elements g <> []) groups /\
  Forall plain groups /\
  Forall (fun g => exists p, Seg.elements g = filter p all) groups /\
  forall e, In e all -> trim (Seg.textContent e) <> [] ->
            exists g, In g groups /\ In e (Seg.elements g).
Proof.
  unfold Seg.groupElementsByContainer.
  assert (H0 : group_inv (([] : list Seg.Segment), ([] : list Seg.Element))).
  { constructor; simpl; try constructor.
    - intros [].
    - intros (g & [] & _). }
  destruct (group_fold all _ (incl_refl all) H0) as ([Hv Hd Hn Hp Ho] & _ & Hcov).
  cbv zeta. split; [exact Hd|]. split; [exact Hn|]. split; [exact Hp|].
  split; [exact Ho|].
  intros e He Ht. destruct (Hcov e He) as [Hin|Hnil]; [|congruence].
  now apply Hv.
Qed.

End GroupingProperties.

(** *** Merging short groups *)

(** The segment a closed batch becomes: the group itself for a batch of
    one, a [merged] segment for a larger one. *)
Definition pack (batch : list Seg.Segment) : Seg.Segment :=
  match batch with
  | [g] => g
  | _ => Seg.Merged (flat_map Seg.elements batch)
           (join Seg.blankLine (map Seg.text batch)) batch
  end.

Lemma flushBatch_pack merged batch :
  Seg.flushBatch merged batch
  = merged ++ map pack (match batch with [] => [] | _ :: _ => [batch] end).
Proof.
  destruct batch as [|g [|g' batch]]; simpl; [now rewrite app_nil_r | reflexivity ..].
Qed.

Lemma merge_fold l : forall merged batch n,
  exists batches batch' n',
    fold_left Seg.mergeStep l (merged, batch, n)
    = (merged ++ map pack batches, batch', n') /\
    concat batches ++ batch' = batch ++ l /\
    Forall (fun b => b <> []) batches.
Proof.
  induction l as [|g l IH]; intros merged batch n; simpl.
  - exists [], batch, n. simpl. rewrite !app_nil_r. auto.
  - destruct ((length (Seg.text g) <? Seg.minSegmentLength)
              && (n <? Seg.maxBatchLength)).
    + destruct (IH merged (batch ++ [g]) (n + length (Seg.text g)))
        as (batches & batch' & n' & Hf & Hc & Hne).
      exists batches, batch', n'. rewrite <- app_assoc in Hc. auto.
    + rewrite flushBatch_pack.
      destruct (IH ((merged ++ map pack (match batch with
                                         | [] => []
                                         | _ :: _ => [batch]
                                         end)) ++ [g]) [] 0)
        as (batches & batch' & n' & Hf & Hc & Hne).
      exists ((match batch with [] => [] | _ :: _ => [batch] end) ++ [g] :: batches),
        batch', n'.
      split; [|split].
      * rewrite Hf. rewrite map_app. simpl. rewrite <- !app_assoc. reflexivity.
      * rewrite concat_app. simpl. rewrite <- !app_assoc. simpl in Hc.
        rewrite <- app_comm_cons, Hc.
        destruct batch; simpl; [reflexivity|]. now rewrite app_nil_r.
      * apply Forall_app. split.
        -- destruct batch; constructor; [discriminate | constructor].
        -- constructor; [discriminate | exact Hne].
Qed.

(** [mergeShortTextSegments] cuts the list of groups into batches of
    neighbours and packs each batch. *)
Lemma merge_result groups :
  exists batches,
    Seg.mergeShortTextSegments groups = map pack batches /\
    concat batches = groups /\
    Forall (fun b => b <> []) batches.
Proof.
  unfold Seg.mergeShortTextSegments.
  destruct (merge_fold groups [] [] 0) as (batches & batch' & n' & Hf & Hc & Hne).
  rewrite Hf, flushBatch_pack. simpl app. simpl in Hc.
  exists (batches ++ match batch' with [] => [] | _ :: _ => [batch'] end).
  split; [now rewrite map_app|]. split.
  - rewrite concat_app, <- Hc. destruct batch'; simpl; now rewrite ?app_nil_r.
  - apply Forall_app. split; [exact Hne|].
    destruct batch'; constructor; [discriminate | constructor].
Qed.

Lemma elements_pack batch : Seg.elements (pack batch) = flat_map Seg.elements batch.
Proof.
  destruct batch as [|g [|g' batch]]; simpl; try reflexivity. now rewrite app_nil_r.
Qed.

Lemma owners_disjoint_pack batches :
  owners_disjoint (concat batches) -> owners_disjoint (map pack batches).
Proof.
  unfold owners_disjoint. induction batches as [|b bs IH]; simpl; intros H.
  - constructor.
  - apply ForallOrdPairs_app_inv in H as (_ & H2 & Hc). constructor; [|now apply IH].
    apply Forall_forall. intros s Hs e He1 He2.
    apply in_map_iff in Hs as (b' & <- & Hb').
    rewrite elements_pack in He1, He2.
    apply in_flat_map in He1 as (x & Hx & Hex).
    apply in_flat_map in He2 as (y & Hy & Hey).
    refine (Hc x y Hx _ e Hex Hey).
    apply in_concat. exists b'. auto.
Qed.

(** A segment that is not a part of a split. *)
Definition unsplit (s : Seg.Segment) : Prop := Seg.originalGroup s = None.

(** The result of the merging step on the groups of the grouping step. *)
Lemma merging_result groups :
  owners_disjoint groups ->
  Forall (fun g => Seg.elements g <> []) groups ->
  Forall plain groups ->
  let mergedGroups := Seg.mergeShortTextSegments groups in
  owners_disjoint mergedGroups /\
  Forall (fun g => Seg.elements g <> []) mergedGroups /\
  Forall unsplit mergedGroups /\
  forall g e, In g groups -> In e (Seg.elements g) ->
              exists s, In s mergedGroups /\ In e (Seg.elements s).
Proof.
  intros Hd Hn Hp mergedGroups.
  destruct (merge_result groups) as (batches & Hm & Hc & Hne).
  unfold mergedGroups. rewrite Hm. subst groups.
  split; [now apply owners_disjoint_pack|]. split; [|split].
  - apply Forall_forall. intros s Hs. apply in_map_iff in Hs as (b & <- & Hb).
    rewrite elements_pack. rewrite Forall_forall in Hne, Hn.
    destruct b as [|g b]; [now specialize (Hne _ Hb)|].
    simpl. intros E. apply app_eq_nil in E as [E _]. revert E. apply Hn.
    apply in_concat. exists (g :: b). split; [exact Hb | now left].
  - apply Forall_forall. intros s Hs. apply in_map_iff in Hs as (b & <- & Hb).
    destruct b as [|g [|g' b]]; try reflexivity. simpl.
    rewrite Forall_forall in Hp.
    assert (Hg : plain g).
    { apply Hp. apply in_concat. exists [g]. split; [exact Hb | now left]. }
    destruct g; simpl in Hg; try contradiction; reflexivity.
  - intros g e Hg He. apply in_concat in Hg as (b & Hb & Hgb).
    exists (pack b). split; [now apply in_map|].
    rewrite elements_pack. apply in_flat_map. exists g. auto.
Qed.

(** *** Splitting long segments *)

(** The test [r.originalGroup === group] of [splitLongTextSegments]. *)
Definition isPartOf (group r : Seg.Segment) : bool :=
  match Seg.originalGroup r with
  | Some g => Seg.Segment_eqb g group
  | None => false
  end.

(** The [split] segments of [group] for the texts [texts], numbered from
    [from]. *)
Fixpoint splitParts (group : Seg.Segment) (from : nat) (texts : list jsstring)
    : list Seg.Segment :=
  match texts with
  | [] => []
  | t :: rest =>
      Seg.Split (Seg.elements group) t group from :: splitParts group (S from) rest
  end.

(** The loop over the sentences, reduced to the texts it emits. *)
Definition textStep (st : list jsstring * jsstring) (sentence : jsstring)
    : list jsstring * jsstring :=
  let '(texts, currentSegment) := st in
  if (Seg.maxSegmentLength <? length currentSegment + length sentence)
     && (0 <? length currentSegment)
  then (texts ++ [trim currentSegment], sentence)
  else (texts,
        currentSegment ++ (match currentSegment with [] => [] | _ :: _ => [32%N] end)
          ++ sentence).

Definition splitTexts (sentences : list jsstring) : list jsstring :=
  let '(texts, currentSegment) := fold_left textStep sentences ([], []) in
  match trim currentSegment with
  | [] => texts
  | _ :: _ => texts ++ [trim currentSegment]
  end.

Lemma splitParts_snoc group texts : forall from t,
  splitParts group from (texts ++ [t])
  = splitParts group from texts
    ++ [Seg.Split (Seg.elements group) t group (from + length texts)].
Proof.
  induction texts as [|x texts IH]; intros from t; simpl.
  - now rewrite Nat.add_0_r.
  - rewrite IH, Nat.add_succ_r. reflexivity.
Qed.

Lemma splitParts_length group texts : forall from,
  length (splitParts group from texts) = length texts.
Proof. induction texts; intros from; simpl; [reflexivity | now rewrite IHtexts]. Qed.

Lemma filter_isPartOf_parts group texts : forall from,
  filter (isPartOf group) (splitParts group from texts) = splitParts group from texts.
Proof.
  induction texts as [|t texts IH]; intros from; simpl; [reflexivity|].
  unfold isPartOf at 1. simpl. rewrite Segment_eqb_refl. now rewrite IH.
Qed.

(** The [partIndex] given to the next part of a group is the number of its
    parts so far, when nothing earlier in the result is a part of it. *)
Lemma partIndex_count result0 group texts :
  filter (isPartOf group) result0 = [] ->
  length (filter (isPartOf group) (result0 ++ splitParts group 0 texts))
  = length texts.
Proof.
  intros H. rewrite filter_app, H, filter_isPartOf_parts. apply splitParts_length.
Qed.

Lemma sentence_fold result0 group sentences : forall texts currentSegment,
  filter (isPartOf group) result0 = [] ->
  fold_left (Seg.splitSentenceStep group) sentences
    (result0 ++ splitParts group 0 texts, currentSegment)
  = (result0 ++ splitParts group 0 (fst (fold_left textStep sentences
                                            (texts, currentSegment))),
     snd (fold_left textStep sentences (texts, currentSegment))).
Proof.
  induction sentences as [|s sentences IH]; intros texts cur H0; simpl; [reflexivity|].
  destruct ((Seg.maxSegmentLength <? length cur + length s) && (0 <? length cur)).
  - change (filter _ (result0 ++ splitParts group 0 texts))
      with (filter (isPartOf group) (result0 ++ splitParts group 0 texts)).
    rewrite (partIndex_count _ _ _ H0).
    rewrite <- app_assoc.
    replace (splitParts group 0 texts
             ++ [Seg.Split (Seg.elements group) (trim cur) group (length texts)])
      with (splitParts group 0 (texts ++ [trim cur]))
      by (rewrite splitParts_snoc; reflexivity).
    apply IH. exact H0.
  - apply IH. exact H0.
Qed.

Lemma splitGroupStep_short result0 group :
  length (Seg.text group) <= Seg.maxSegmentLength ->
  Seg.splitGroupStep result0 group = result0 ++ [group].
Proof.
  intros H. unfold Seg.splitGroupStep. apply Nat.leb_le in H. now rewrite H.
Qed.

Lemma splitGroupStep_long result0 group :
  Seg.maxSegmentLength < length (Seg.text group) ->
  filter (isPartOf group) result0 = [] ->
  Seg.splitGroupStep result0 group
  = result0 ++ splitParts group 0 (splitTexts (Seg.splitIntoSentences (Seg.text group))).
Proof.
  intros Hlong H0. unfold Seg.splitGroupStep.
  apply Nat.leb_gt in Hlong. rewrite Hlong.
  pose proof (sentence_fold result0 group (Seg.splitIntoSentences (Seg.text group))
                [] [] H0) as Hf.
  simpl splitParts in Hf. rewrite app_nil_r in Hf.
  rewrite Hf. clear Hf.
  unfold splitTexts.
  destruct (fold_left textStep _ _) as [texts cur]. simpl fst. simpl snd.
  destruct (trim cur) as [|c r] eqn:Ht; [reflexivity|].
  change (filter _ (result0 ++ splitParts group 0 texts))
    with (filter (isPartOf group) (result0 ++ splitParts group 0 texts)).
  rewrite (partIndex_count _ _ _ H0), <- app_assoc, splitParts_snoc. reflexivity.
Qed.

(** What [splitLongTextSegments] emits for one group. *)
Definition emit (group : Seg.Segment) : list Seg.Segment :=
  if length (Seg.text group) <=? Seg.maxSegmentLength then [group]
  else splitParts group 0 (splitTexts (Seg.splitIntoSentences (Seg.text group))).

Lemma splitGroupStep_emit result0 group :
  filter (isPartOf group) result0 = [] ->
  Seg.splitGroupStep result0 group = result0 ++ emit group.
Proof.
  intros H0. unfold emit.
  destruct (length (Seg.text group) <=? Seg.maxSegmentLength) eqn:E.
  - apply splitGroupStep_short. now apply Nat.leb_le.
  - apply splitGroupStep_long; [now apply Nat.leb_gt | exact H0].
Qed.

Lemma in_splitParts group texts : forall from s,
  In s (splitParts group from texts) ->
  exists t i, s = Seg.Split (Seg.elements group) t group i /\ In t texts /\
              from <= i < from + length texts.
Proof.
  induction texts as [|x texts IH]; intros from s; simpl; [intros []|].
  intros [<-|H].
  - exists x, from. repeat split; auto. lia.
  - destruct (IH _ _ H) as (t & i & -> & Ht & Hi). exists t, i. repeat split; auto; lia.
Qed.

(** A segment emitted for a group is the group or one of its parts, and
    owns the nodes of the group. *)
Lemma in_emit group s :
  In s (emit group) ->
  (s = group \/ exists t i, s = Seg.Split (Seg.elements group) t group i) /\
  Seg.elements s = Seg.elements group.
Proof.
  unfold emit. destruct (_ <=? _).
  - intros [<-|[]]. auto.
  - intros H. apply in_splitParts in H as (t & i & -> & _). split; [|reflexivity].
    right. eauto.
Qed.

Lemma filter_nil_iff (A : Type) (f : A -> bool) (l : list A) :
  filter f l = [] <-> forall x, In x l -> f x = false.
Proof.
  induction l as [|a l IH]; simpl.
  - split; [intros _ x [] | reflexivity].
  - destruct (f a) eqn:E.
    + split; [discriminate|]. intros H. specialize (H a (or_introl eq_refl)). congruence.
    + rewrite IH. split.
      * intros H x [<-|Hx]; auto.
      * intros H x Hx. apply H. now right.
Qed.

Lemma split_fold groups : forall result0,
  (forall r g, In r result0 -> In g groups -> isPartOf g r = false) ->
  owners_disjoint groups ->
  Forall (fun g => Seg.elements g <> []) groups ->
  Forall unsplit groups ->
  fold_left Seg.splitGroupStep groups result0 = result0 ++ flat_map emit groups.
Proof.
  induction groups as [|g groups IH]; intros result0 H0 Hd Hn Hu; simpl.
  - now rewrite app_nil_r.
  - inversion Hd as [|? ? Hg Hd']; subst. inversion Hn as [|? ? Hng Hn']; subst.
    inversion Hu as [|? ? Hug Hu']; subst.
    rewrite splitGroupStep_emit.
    2:{ apply filter_nil_iff. intros r Hr. apply H0; [exact Hr | now left]. }
    rewrite IH; [now rewrite <- app_assoc | | assumption ..].
    intros r g' Hr Hg'. apply in_app_or in Hr as [Hr|Hr].
    + apply H0; [exact Hr | now right].
    + apply in_emit in Hr as [[->|(t & i & ->)] _]; unfold isPartOf.
      * now rewrite Hug.
      * simpl. destruct (Seg.Segment_eqb g g') eqn:E; [|reflexivity].
        exfalso. apply Segment_eqb_elements in E.
        rewrite Forall_forall in Hg. specialize (Hg g' Hg').
        destruct (Seg.elements g) as [|e es] eqn:Ee; [now apply Hng|].
        apply (Hg e); [now left | rewrite <- E; now left].
Qed.

(** [splitLongTextSegments] emits, group after group, the group itself or
    its parts. *)
Lemma splitting_result groups :
  owners_disjoint groups ->
  Forall (fun g => Seg.elements g <> []) groups ->
  Forall unsplit groups ->
  Seg.splitLongTextSegments groups = flat_map emit groups.
Proof.
  intros Hd Hn Hu. unfold Seg.splitLongTextSegments.
  rewrite split_fold; [reflexivity | intros r g [] | assumption ..].
Qed.

(** *** Texts that are not blank *)

(** The string has a code unit that is not white space. *)
Definition nonblank (s : jsstring) : Prop :=
  exists c, In c s /\ isWhiteSpace c = false.

Lemma trimStart_incl s c : In c (trimStart s) -> In c s.
Proof.
  induction s as [|x s IH]; simpl; [auto|].
  destruct (isWhiteSpace x); [intros H; right; auto | auto].
Qed.

Lemma trimStart_head s c r : trimStart s = c :: r -> isWhiteSpace c = false.
Proof.
  induction s as [|x s IH]; simpl; [discriminate|].
  destruct (isWhiteSpace x) eqn:E; [exact IH|]. intros H; injection H as -> _. exact E.
Qed.

Lemma trimStart_nonblank s : nonblank s -> nonblank (trimStart s).
Proof.
  induction s as [|x s IH]; simpl; [auto|].
  destruct (isWhiteSpace x) eqn:E; [|auto].
  intros (c & [<-|Hc] & Hw); [congruence|]. apply IH. exists c. auto.
Qed.

Lemma nonblank_rev s : nonblank (rev s) <-> nonblank s.
Proof.
  unfold nonblank. split; intros (c & Hc & Hw); exists c; split; auto;
    [apply in_rev | apply in_rev in Hc]; assumption.
Qed.

Lemma nonblank_nonempty s : nonblank s -> s <> [].
Proof. intros (c & Hc & _) ->. destruct Hc. Qed.

(** [s.trim()] is not empty exactly when [s] is not blank. *)
Lemma trim_nonempty_iff s : trim s <> [] <-> nonblank s.
Proof.
  unfold trim, trimEnd. split.
  - intros H. destruct (trimStart (rev (trimStart s))) as [|c r] eqn:E;
      [now elim H|].
    exists c. split; [|now apply trimStart_head in E].
    apply trimStart_incl, in_rev, trimStart_incl. rewrite E. now left.
  - intros H E.
    assert (Hn : nonblank (trimStart (rev (trimStart s)))).
    { apply trimStart_nonblank, nonblank_rev, trimStart_nonblank, H. }
    apply nonblank_nonempty in Hn. apply Hn.
    rewrite <- (rev_involutive (trimStart _)), E. reflexivity.
Qed.

Lemma join_snoc sep (l : list jsstring) s :
  l <> [] -> join sep (l ++ [s]) = join sep l ++ sep ++ s.
Proof.
  induction l as [|x [|y l] IH]; intros Hne; [congruence | reflexivity |].
  change (join sep ((x :: y :: l) ++ [s])) with (x ++ sep ++ join sep ((y :: l) ++ [s])).
  rewrite IH by discriminate. simpl. now rewrite <- !app_assoc.
Qed.

Lemma in_join sep (l : list jsstring) s c :
  In s l -> In c s -> In c (join sep l).
Proof.
  induction l as [|x [|y l] IH]; simpl; intros Hs Hc.
  - destruct Hs.
  - destruct Hs as [<-|[]]. exact Hc.
  - apply in_or_app. destruct Hs as [<-|Hs]; [now left|].
    right. apply in_or_app. right. apply IH; assumption.
Qed.

Lemma length_concat_le_join sep (l : list jsstring) :
  length (concat l) <= length (join sep l).
Proof.
  induction l as [|x [|y l] IH]; simpl in *; [lia | rewrite app_nil_r; lia |].
  rewrite !length_app in *. lia.
Qed.

(** *** The loop over the sentences *)

(** The text of a run of sentences: joined by single spaces, trimmed. *)
Definition runText (run : list jsstring) : jsstring := trim (join [32%N] run).

(** The check that let the last sentence into a run of several: the run
    before it and the sentence are together within the maximum. *)
Definition run_ok (run : list jsstring) : Prop :=
  2 <= length run ->
  length (join [32%N] (removelast run)) + length (last run []) <= Seg.maxSegmentLength.

Lemma text_fold sentences : forall texts run,
  Forall (fun s => s <> []) sentences ->
  Forall (fun s => s <> []) run ->
  run_ok run ->
  exists closed lastrun,
    fold_left textStep sentences (texts, join [32%N] run)
    = (texts ++ map runText closed, join [32%N] lastrun) /\
    concat closed ++ lastrun = run ++ sentences /\
    Forall (fun r => r <> []) closed /\
    Forall run_ok closed /\ run_ok lastrun.
Proof.
  induction sentences as [|s sentences IH]; intros texts run Hs Hrun Hok; simpl.
  - exists [], run. simpl. rewrite !app_nil_r. repeat split; auto.
  - inversion Hs as [|? ? Hsne Hs']; subst.
    destruct ((Seg.maxSegmentLength <? length (join [32%N] run) + length s)
              && (0 <? length (join [32%N] run))) eqn:E.
    + apply andb_true_iff in E as [_ E]. apply Nat.ltb_lt in E.
      assert (Hne : run <> []) by (intros ->; simpl in E; lia).
      destruct (IH (texts ++ [trim (join [32%N] run)]) [s] Hs')
        as (closed & lastrun & Hf & Hc & Hcl & Hoks & Hokl).
      { constructor; [exact Hsne | constructor]. }
      { intros Hlen. simpl in Hlen. lia. }
      exists (run :: closed), lastrun. split; [|split; [|split; [|split]]].
      * simpl in Hf. rewrite Hf. simpl. now rewrite <- app_assoc.
      * simpl. rewrite <- app_assoc, Hc. reflexivity.
      * constructor; assumption.
      * constructor; assumption.
      * exact Hokl.
    + assert (Hj : join [32%N] run
                   ++ (match join [32%N] run with [] => [] | _ :: _ => [32%N] end) ++ s
                   = join [32%N] (run ++ [s])).
      { destruct run as [|x run]; [reflexivity|].
        rewrite join_snoc by discriminate.
        destruct (join [32%N] (x :: run)) eqn:Ej; [|reflexivity].
        exfalso. inversion Hrun as [|? ? Hx _]; subst. apply Hx.
        apply (join_nil_inv _ _ Ej). now left. }
      rewrite Hj.
      destruct (IH texts (run ++ [s]) Hs') as (closed & lastrun & Hf & Hc & Hrest).
      { apply Forall_app. split; [exact Hrun | constructor; [exact Hsne | constructor]]. }
      { intros Hlen. rewrite removelast_last, last_last.
        destruct run as [|x run]; [simpl in Hlen; lia|].
        apply andb_false_iff in E as [E|E].
        - apply Nat.ltb_ge in E. exact E.
        - apply Nat.ltb_ge in E. exfalso.
          inversion Hrun as [|? ? Hx _]; subst. apply Hx.
          apply (join_nil_inv [32%N] (x :: run)); [|now left].
          destruct (join [32%N] (x :: run)); [reflexivity | simpl in E; lia]. }
      exists closed, lastrun. split; [exact Hf|]. split; [|exact Hrest].
      rewrite Hc, <- app_assoc. reflexivity.
Qed.

(** The texts of the parts of a long text: the sentences fall into runs of
    neighbours; every run but the last gives its text, and so does the last
    unless its text is empty. *)
Lemma splitTexts_runs sentences :
  Forall (fun s => s <> []) sentences ->
  exists closed lastrun,
    concat closed ++ lastrun = sentences /\
    splitTexts sentences
    = map runText closed ++ (match runText lastrun with [] => [] | _ :: _ => [runText lastrun] end) /\
    Forall (fun r => r <> []) closed /\
    Forall run_ok closed /\ run_ok lastrun.
Proof.
  intros Hs.
  destruct (text_fold sentences [] [] Hs) as (closed & lastrun & Hf & Hc & Hrest).
  { constructor. }
  { intros H; simpl in H; lia. }
  exists closed, lastrun. split; [exact Hc|]. split; [|exact Hrest].
  unfold splitTexts. simpl join in Hf. rewrite Hf. simpl app.
  unfold runText. destruct (trim (join [32%N] lastrun)); [now rewrite app_nil_r | reflexivity].
Qed.

Lemma chunksOf_props fuel k : forall s,
  length s <= fuel ->
  concat (Seg.chunksOf fuel (S k) s) = s /\
  Forall (fun c => c <> [] /\ length c <= S k) (Seg.chunksOf fuel (S k) s).
Proof.
  induction fuel as [|fuel IH]; intros s Hlen.
  - destruct s; [split; [reflexivity | constructor] | simpl in Hlen; lia].
  - destruct s as [|c s]; [split; [reflexivity | constructor]|].
    change (Seg.chunksOf (S fuel) (S k) (c :: s))
      with (firstn (S k) (c :: s) :: Seg.chunksOf fuel (S k) (skipn (S k) (c :: s))).
    destruct (IH (skipn (S k) (c :: s))) as [Hc Hf].
    { rewrite length_skipn. simpl in *. lia. }
    split.
    + rewrite concat_cons, Hc. apply firstn_skipn.
    + constructor; [|exact Hf]. split; [discriminate|].
      rewrite length_firstn. lia.
Qed.

(** The sentences are never empty; and they either are the 200-unit chunks
    of the text, or are all non-blank and, for a text of more than 500
    units, at least two. *)
Lemma splitIntoSentences_props text :
  let sentences := Seg.splitIntoSentences text in
  Forall (fun s => s <> []) sentences /\
  ((concat sentences = text /\ Forall (fun s => length s <= 200) sentences) \/
   (Forall nonblank sentences /\ (500 < length text -> 2 <= length sentences))).
Proof.
  unfold Seg.splitIntoSentences.
  set (pieces := filter _ (split_class Seg.isSentenceEnder text)).
  assert (Hp : Forall nonblank pieces).
  { apply Forall_forall. intros s Hs. apply filter_In in Hs as [_ Hs].
    apply trim_nonempty_iff. apply Nat.ltb_lt in Hs. intros E. rewrite E in Hs.
    simpl in Hs. lia. }
  destruct ((length pieces <? 2) && (500 <? length text)) eqn:E; cbv zeta.
  - destruct (chunksOf_props (length text) 199 text (Nat.le_refl _)) as [Hc Hf].
    split.
    + eapply Forall_impl; [|exact Hf]. intros c [H _]. exact H.
    + left. split; [exact Hc|]. eapply Forall_impl; [|exact Hf]. intros c [_ H]. exact H.
  - split.
    + eapply Forall_impl; [|exact Hp]. intros s. apply nonblank_nonempty.
    + right. split; [exact Hp|]. intros Hlen.
      apply andb_false_iff in E as [E|E]; apply Nat.ltb_ge in E; lia.
Qed.

(** A text of more than 1000 units gives at least one part. *)
Lemma splitTexts_nonempty text :
  Seg.maxSegmentLength < length text ->
  splitTexts (Seg.splitIntoSentences text) <> [].
Proof.
  intros Hlong.
  destruct (splitIntoSentences_props text) as [Hne Hcases]. cbv zeta in *.
  destruct (splitTexts_runs _ Hne) as (closed & lastrun & Hc & Ht & Hcl & Hoks & Hokl).
  rewrite Ht. destruct closed as [|r closed]; [|discriminate].
  simpl in Hc. simpl. subst lastrun.
  set (sentences := Seg.splitIntoSentences text) in *.
  unfold Seg.maxSegmentLength in Hlong.
  destruct Hcases as [[Hcat Hle]|[Hnb Htwo]].
  - exfalso. unfold run_ok, Seg.maxSegmentLength in Hokl.
    destruct sentences as [|s1 [|s2 rest]].
    + simpl in Hcat. subst text. simpl in Hlong. lia.
    + simpl in Hcat. rewrite app_nil_r in Hcat. subst text.
      inversion Hle; subst. lia.
    + specialize (Hokl ltac:(simpl; lia)).
      remember (s1 :: s2 :: rest) as ss eqn:Hss.
      pose proof (length_concat_le_join [32%N] (removelast ss)) as Hj.
      assert (Hsplit : ss = removelast ss ++ [last ss []])
        by (apply app_removelast_last; subst ss; discriminate).
      assert (Hlen : length (concat ss)
                     = length (concat (removelast ss)) + length (last ss [])).
      { rewrite Hsplit at 1. rewrite concat_app, length_app. simpl.
        now rewrite app_nil_r. }
      rewrite Hcat in Hlen. lia.
  - specialize (Htwo ltac:(lia)).
    destruct sentences as [|s1 rest]; [simpl in Htwo; lia|].
    inversion Hnb as [|? ? (c & Hc1 & Hw) _]; subst.
    assert (Hn : runText (s1 :: rest) <> []).
    { apply trim_nonempty_iff. exists c. split; [|exact Hw].
      apply in_join with (s := s1); [now left | exact Hc1]. }
    destruct (runText (s1 :: rest)); [congruence | discriminate].
Qed.

Lemma emit_nonempty group : emit group <> [].
Proof.
  unfold emit. destruct (length (Seg.text group) <=? Seg.maxSegmentLength) eqn:E;
    [discriminate|].
  apply Nat.leb_gt in E. pose proof (splitTexts_nonempty _ E) as H.
  destruct (splitTexts _); [congruence | discriminate].
Qed.

(** *** The builder as a whole *)

(** Two segments that are parts of one split group: they have the same
    [originalGroup] and both carry its list of nodes. *)
Definition parts_of_one_split (s1 s2 : Seg.Segment) : Prop :=
  exists g, Seg.originalGroup s1 = Some g /\ Seg.originalGroup s2 = Some g /\
            Seg.elements s1 = Seg.elements g /\ Seg.elements s2 = Seg.elements g.

Lemma emit_pairs groups :
  owners_disjoint groups ->
  ForallOrdPairs
    (fun s1 s2 => forall e, In e (Seg.elements s1) -> In e (Seg.elements s2) ->
                            parts_of_one_split s1 s2)
    (flat_map emit groups).
Proof.
  induction groups as [|g groups IH]; intros Hd; simpl; [constructor|].
  inversion Hd as [|? ? Hg Hd']; subst.
  apply ForallOrdPairs_app; [| now apply IH |].
  - unfold emit. destruct (_ <=? _); [constructor; constructor|].
    generalize 0 as from.
    induction (splitTexts _) as [|t texts IHt]; intros from; simpl; constructor.
    + apply Forall_forall. intros s Hs e _ _.
      apply in_splitParts in Hs as (t' & i & -> & _). exists g. simpl. auto.
    + apply IHt.
  - intros x y Hx Hy e He1 He2. exfalso.
    apply in_flat_map in Hy as (g' & Hg' & Hy).
    apply in_emit in Hx as [_ Hx]. apply in_emit in Hy as [_ Hy].
    rewrite Forall_forall in Hg. apply (Hg g' Hg' e); congruence.
Qed.

(** A node with 600 units, a full stop and 600 more units of text. *)
Definition long_node : Seg.Element :=
  {| Seg.eid := 0;
     Seg.textContent := repeat 97%N 600 ++ [46%N] ++ repeat 98%N 600;
     Seg.depth := 3; Seg.container := 1 |}.

(** Three short nodes in traversal order, the second in another container
    than the first and the third. *)
Definition first_node : Seg.Element :=
  {| Seg.eid := 1; Seg.textContent := lit "first paragraph";
     Seg.depth := 3; Seg.container := 1 |}.
Definition between_node : Seg.Element :=
  {| Seg.eid := 2; Seg.textContent := lit "between";
     Seg.depth := 3; Seg.container := 2 |}.
Definition third_node : Seg.Element :=
  {| Seg.eid := 3; Seg.textContent := lit "third paragraph";
     Seg.depth := 3; Seg.container := 1 |}.

(** C1, as stated, fails: the builder emits two segments for the one long
    node, and both own it; and for the three short nodes it emits one
    segment whose nodes and text have the third node before the second. *)
Lemma node_in_two_segments_counterexample :
  trim (Seg.textContent long_node) <> [] /\
  (exists s1 s2,
     Seg.optimizeContentSegmentation Retry.asciiLowerCase Seg.farApart [long_node] = [s1; s2] /\
     In long_node (Seg.elements s1) /\ In long_node (Seg.elements s2) /\
     Seg.partIndex s1 = Some 0 /\ Seg.partIndex s2 = Some 1) /\
  (let out := Seg.optimizeContentSegmentation Retry.asciiLowerCase Seg.farApart
                [first_node; between_node; third_node] in
   map Seg.elements out = [[first_node; third_node; between_node]] /\
   map Seg.text out
   = [lit "first paragraph" ++ Seg.blankLine ++ lit "third paragraph"
        ++ Seg.blankLine ++ lit "between"]).
Proof.
  split; [vm_compute; discriminate|]. split.
  - set (g := Seg.Single [long_node] (Seg.textContent long_node) 1).
    exists (Seg.Split [long_node] (repeat 97%N 600) g 0),
           (Seg.Split [long_node] (repeat 98%N 600) g 1).
    split; [vm_compute; reflexivity|]. cbn [Seg.elements Seg.partIndex In]. auto.
  - split; vm_compute; reflexivity.
Qed.

(** C1, amended. Every input node whose trimmed text is not empty is owned
    by a segment of the list the merging step returns, and no node is owned
    by two segments of that list; it is owned by at least one output
    segment, and two output segments own a common node only when they are
    parts of one split group, which all carry the whole node list of the
    group.  The nodes of every group of the grouping step are in the order
    of the input. *)
Theorem segmentation_owns_every_node :
  forall (toLowerCase : jsstring -> jsstring)
         (visualNear : Seg.Element -> Seg.Element -> bool)
         (all : list Seg.Element),
    let groups := Seg.groupElementsByContainer toLowerCase visualNear all in
    let mergedGroups := Seg.mergeShortTextSegments groups in
    let out := Seg.optimizeContentSegmentation toLowerCase visualNear all in
    (forall e, In e all -> trim (Seg.textContent e) <> [] ->
       (exists g, In g mergedGroups /\ In e (Seg.elements g)) /\
       (exists s, In s out /\ In e (Seg.elements s))) /\
    ForallOrdPairs
      (fun g1 g2 => forall e, In e (Seg.elements g1) -> ~ In e (Seg.elements g2))
      mergedGroups /\
    ForallOrdPairs
      (fun s1 s2 => forall e, In e (Seg.elements s1) -> In e (Seg.elements s2) ->
                              parts_of_one_split s1 s2)
      out /\
    Forall (fun g => exists p, Seg.elements g = filter p all) groups.
Proof.
  intros toLowerCase visualNear all groups mergedGroups out.
  destruct (grouping_result toLowerCase visualNear all) as (Hd & Hn & Hp & Ho & Hcov).
  fold groups in Hd, Hn, Hp, Ho, Hcov.
  destruct (merging_result groups Hd Hn Hp) as (Hd' & Hn' & Hu' & Hcov').
  fold mergedGroups in Hd', Hn', Hu', Hcov'.
  assert (Hout : out = flat_map emit mergedGroups).
  { unfold out, Seg.optimizeContentSegmentation. now apply splitting_result. }
  split; [|split; [|split]].
  - intros e He Ht. destruct (Hcov e He Ht) as (g & Hg & Heg).
    destruct (Hcov' g e Hg Heg) as (s & Hs & Hes).
    split; [exists s; auto|].
    destruct (emit s) as [|x xs] eqn:Ex; [now apply emit_nonempty in Ex|].
    exists x. assert (Hx : In x (emit s)) by (rewrite Ex; now left).
    split.
    + rewrite Hout. apply in_flat_map. exists s. auto.
    + apply in_emit in Hx as [_ Hx]. now rewrite Hx.
  - exact Hd'.
  - rewrite Hout. now apply emit_pairs.
  - exact Ho.
Qed.

Lemma segmentation_owns_every_node_witness :
  exists s, In s (Seg.optimizeContentSegmentation Retry.asciiLowerCase Seg.farApart [long_node]) /\
            In long_node (Seg.elements s).
Proof.
  destruct (segmentation_owns_every_node Retry.asciiLowerCase Seg.farApart [long_node])
    as (H & _).
  apply (H long_node).
  - simpl. auto.
  - vm_compute. discriminate.
Defined.

Lemma nth_error_splitParts group texts : forall from i s,
  nth_error (splitParts group from texts) i = Some s ->
  s = Seg.Split (Seg.elements group) (Seg.text s) group (from + i).
Proof.
  induction texts as [|t texts IH]; intros from [|i] s; simpl; try discriminate.
  - intros H; injection H as <-. simpl. now rewrite Nat.add_0_r.
  - intros H. rewrite (IH _ _ _ H) at 1. simpl. now rewrite Nat.add_succ_r.
Qed.

Lemma map_text_splitParts group texts : forall from,
  map Seg.text (splitParts group from texts) = texts.
Proof. induction texts; intros from; simpl; [reflexivity | now rewrite IHtexts]. Qed.

Lemma emit_other_group g g' s :
  unsplit g' -> Seg.elements g <> [] ->
  disjoint (Seg.elements g') (Seg.elements g) \/
  disjoint (Seg.elements g) (Seg.elements g') ->
  In s (emit g') -> Seg.originalGroup s <> Some g.
Proof.
  intros Hu Hne Hd Hs. apply in_emit in Hs as [[->|(t & i & ->)] _].
  - rewrite Hu. discriminate.
  - simpl. intros E. injection E as ->.
    destruct (Seg.elements g) as [|e es] eqn:Ee; [congruence|].
    destruct Hd as [Hd|Hd]; apply (Hd e); now left.
Qed.

(** A node with a sentence of 1100 units, a full stop and 100 more units. *)
Definition long_sentence_node : Seg.Element :=
  {| Seg.eid := 0;
     Seg.textContent := repeat 97%N 1100 ++ [46%N] ++ repeat 98%N 100;
     Seg.depth := 3; Seg.container := 1 |}.

(** A paragraph of 2400 units in 20 sentences: 19 of 9 letters and a full
    stop, and one of 2209 letters and a full stop. *)
Definition uneven_paragraph_node : Seg.Element :=
  {| Seg.eid := 0;
     Seg.textContent :=
       concat (repeat (repeat 97%N 9 ++ [46%N]) 19) ++ repeat 98%N 2209 ++ [46%N];
     Seg.depth := 3; Seg.container := 1 |}.

(** C3, as stated, fails: the first part of this text of 1201 units has
    1100 units, more than 1000; and the full stop of the text is in neither
    part, so that the parts do not give the text back up to white space.
    And a paragraph of 2400 units in 20 sentences need not give 3 parts:
    the uneven paragraph gives 2, of 189 and 2209 units. *)
Lemma split_text_counterexample :
  (exists s1 s2,
     Seg.optimizeContentSegmentation Retry.asciiLowerCase Seg.farApart [long_sentence_node]
     = [s1; s2] /\
     Seg.partIndex s1 = Some 0 /\ Seg.partIndex s2 = Some 1 /\
     length (Seg.text s1) = 1100 /\ 1000 < length (Seg.text s1) /\
     In 46%N (Seg.textContent long_sentence_node) /\
     ~ In 46%N (Seg.text s1 ++ Seg.text s2)) /\
  length (Seg.textContent uneven_paragraph_node) = 2400 /\
  length (Seg.splitIntoSentences (Seg.textContent uneven_paragraph_node)) = 20 /\
  map (fun s => (Seg.type s, Seg.partIndex s, length (Seg.text s)))
      (Seg.optimizeContentSegmentation Retry.asciiLowerCase Seg.farApart
         [uneven_paragraph_node])
  = [(Seg.TypeSplit, Some 0, 189); (Seg.TypeSplit, Some 1, 2209)].
Proof.
  split; [|split; [|split]; vm_compute; reflexivity].
  set (g := Seg.Single [long_sentence_node] (Seg.textContent long_sentence_node) 1).
  exists (Seg.Split [long_sentence_node] (repeat 97%N 1100) g 0),
         (Seg.Split [long_sentence_node] (repeat 98%N 100) g 1).
  split; [vm_compute; reflexivity|]. cbn [Seg.partIndex Seg.text].
  split; [reflexivity|]. split; [reflexivity|].
  split; [apply repeat_length|]. split; [rewrite repeat_length; lia|].
  split.
  - unfold long_sentence_node. cbn [Seg.textContent].
    apply in_or_app. right. now left.
  - intros H. apply in_app_or in H as [H|H]; apply repeat_spec in H; discriminate.
Qed.

(** *** A paragraph of 20 sentences of 120 units *)

(** A sentence of [n] units: [n - 1] units that are not sentence
    terminators and not all white space, and one terminator. *)
Definition sentence_of (n : nat) (s : jsstring) : Prop :=
  exists body e,
    s = body ++ [e] /\ S (length body) = n /\
    (forall c, In c body -> Seg.isSentenceEnder c = false) /\
    nonblank body /\ Seg.isSentenceEnder e = true.

(** The sentences without their terminators. *)
Definition bodies (sentences : list jsstring) : list jsstring :=
  map (@removelast N) sentences.

Lemma trimStart_length s : length (trimStart s) <= length s.
Proof.
  induction s as [|c s IH]; simpl; [lia|]. destruct (isWhiteSpace c); simpl; lia.
Qed.

Lemma trim_length s : length (trim s) <= length s.
Proof.
  unfold trim, trimEnd. rewrite length_rev.
  etransitivity; [apply trimStart_length|]. rewrite length_rev. apply trimStart_length.
Qed.

Lemma split_class_sentence isSep body e rest :
  (forall c, In c body -> isSep c = false) -> isSep e = true ->
  split_class isSep (body ++ e :: rest) = body :: split_class isSep rest.
Proof.
  intros Hb He. induction body as [|c body IH]; simpl.
  - now rewrite He.
  - rewrite (Hb c (or_introl eq_refl)). rewrite IH; [reflexivity|].
    intros x Hx. apply Hb. now right.
Qed.

Lemma split_class_sentences n sentences :
  Forall (sentence_of n) sentences ->
  split_class Seg.isSentenceEnder (concat sentences) = bodies sentences ++ [[]].
Proof.
  induction 1 as [|s l (body & e & -> & _ & Hb & _ & He) _ IH]; [reflexivity|].
  cbn [concat bodies map]. rewrite <- app_assoc. cbn [app].
  rewrite split_class_sentence by assumption.
  rewrite IH, removelast_last. reflexivity.
Qed.

Lemma bodies_props n sentences :
  Forall (sentence_of (S n)) sentences ->
  Forall (fun b => length b = n) (bodies sentences) /\
  Forall nonblank (bodies sentences) /\
  Forall (fun s => length s = S n) sentences.
Proof.
  induction 1 as [|s l (body & e & -> & Hl & _ & Hn & _) _ (IH1 & IH2 & IH3)].
  - repeat split; constructor.
  - cbn [bodies map]. rewrite removelast_last. split; [|split].
    + constructor; [lia | exact IH1].
    + constructor; [exact Hn | exact IH2].
    + constructor; [|exact IH3]. rewrite length_app. cbn [length]. lia.
Qed.

Lemma splitIntoSentences_sentences n sentences :
  Forall (sentence_of (S n)) sentences -> 2 <= length sentences ->
  Seg.splitIntoSentences (concat sentences) = bodies sentences.
Proof.
  intros H H2.
  destruct (bodies_props n sentences H) as (_ & Hnb & _).
  assert (Hf : forall l, Forall nonblank l ->
                         filter (fun s => 0 <? length (trim s)) l = l).
  { induction 1 as [|b l Hb _ IH]; [reflexivity|]. cbn [filter].
    apply trim_nonempty_iff in Hb.
    destruct (trim b) as [|c r]; [congruence|].
    change (0 <? length (c :: r)) with true. cbv iota. f_equal. exact IH. }
  unfold Seg.splitIntoSentences.
  rewrite (split_class_sentences (S n)) by exact H.
  rewrite filter_app, (Hf _ Hnb).
  replace (filter (fun s => 0 <? length (trim s)) [[]]) with (@nil jsstring)
    by reflexivity.
  rewrite app_nil_r. unfold bodies at 1. rewrite length_map.
  replace (length sentences <? 2) with false by (symmetry; apply Nat.ltb_ge; lia).
  reflexivity.
Qed.

Lemma join_length_119 run :
  Forall (fun b => length b = 119) run -> run <> [] ->
  length (join [32%N] run) + 1 = 120 * length run.
Proof.
  induction run as [|x [|y l] IH]; intros H Hne; [congruence | |].
  - inversion H; subst. cbn [join length]. lia.
  - inversion H as [|? ? Hx H']; subst.
    change (join [32%N] (x :: y :: l)) with (x ++ [32%N] ++ join [32%N] (y :: l)).
    rewrite !length_app. specialize (IH H' ltac:(discriminate)).
    cbn [length] in *. lia.
Qed.

Lemma textStep_add texts run s :
  Forall (fun b => length b = 119) run -> length s = 119 -> length run < 8 ->
  textStep (texts, join [32%N] run) s = (texts, join [32%N] (run ++ [s])).
Proof.
  intros Hr Hs Hk. unfold textStep. destruct run as [|x run].
  - cbn [join length app]. rewrite andb_false_r. reflexivity.
  - pose proof (join_length_119 (x :: run) Hr ltac:(discriminate)) as Hj.
    cbn [length] in Hj, Hk.
    replace (Seg.maxSegmentLength <? length (join [32%N] (x :: run)) + length s)
      with false
      by (symmetry; apply Nat.ltb_ge; unfold Seg.maxSegmentLength; lia).
    cbn [andb]. rewrite join_snoc by discriminate.
    destruct (join [32%N] (x :: run)); [cbn [length] in Hj; lia | reflexivity].
Qed.

Lemma textStep_flush texts run s :
  Forall (fun b => length b = 119) run -> length s = 119 -> length run = 8 ->
  textStep (texts, join [32%N] run) s = (texts ++ [runText run], s).
Proof.
  intros Hr Hs Hk. unfold textStep.
  assert (Hne : run <> []) by (intros ->; discriminate).
  pose proof (join_length_119 run Hr Hne) as Hj.
  replace (Seg.maxSegmentLength <? length (join [32%N] run) + length s) with true
    by (symmetry; apply Nat.ltb_lt; unfold Seg.maxSegmentLength; lia).
  replace (0 <? length (join [32%N] run)) with true
    by (symmetry; apply Nat.ltb_lt; lia).
  reflexivity.
Qed.

Lemma textStep_add_many more : forall texts run,
  Forall (fun b => length b = 119) run -> Forall (fun b => length b = 119) more ->
  length run + length more <= 8 ->
  fold_left textStep more (texts, join [32%N] run)
  = (texts, join [32%N] (run ++ more)).
Proof.
  induction more as [|s more IH]; intros texts run Hr Hm Hk; cbn [fold_left].
  - now rewrite app_nil_r.
  - inversion Hm as [|? ? Hs Hm']; subst. cbn [length] in Hk.
    rewrite textStep_add by (auto; lia).
    rewrite IH.
    + now rewrite <- app_assoc.
    + apply Forall_app. split; [exact Hr | constructor; [exact Hs | constructor]].
    + exact Hm'.
    + rewrite length_app. cbn [length]. lia.
Qed.

(** Twenty pieces of 119 units fall into runs of 8, 8 and 4. *)
Lemma splitTexts_twenty (pieces : list jsstring) :
  length pieces = 20 ->
  Forall (fun b => length b = 119) pieces -> Forall nonblank pieces ->
  splitTexts pieces
  = [runText (firstn 8 pieces); runText (firstn 8 (skipn 8 pieces));
     runText (skipn 16 pieces)].
Proof.
  intros Hl H119 Hnb.
  set (r1 := firstn 8 pieces). set (r2 := firstn 8 (skipn 8 pieces)).
  set (r3 := skipn 16 pieces).
  assert (Hb : pieces = r1 ++ r2 ++ r3).
  { unfold r1, r2, r3. change 16 with (8 + 8). rewrite <- skipn_skipn.
    now rewrite !firstn_skipn. }
  assert (Hl1 : length r1 = 8) by (unfold r1; rewrite length_firstn; lia).
  assert (Hl2 : length r2 = 8)
    by (unfold r2; rewrite length_firstn, length_skipn; lia).
  assert (Hl3 : length r3 = 4) by (unfold r3; rewrite length_skipn; lia).
  clearbody r1 r2 r3. subst pieces.
  apply Forall_app in H119 as [H1 H23]. apply Forall_app in H23 as [H2 H3].
  apply Forall_app in Hnb as [_ Hnb]. apply Forall_app in Hnb as [_ Hnb].
  destruct r2 as [|s2 r2]; [discriminate|]. destruct r3 as [|s3 r3]; [discriminate|].
  inversion H2 as [|? ? Hs2 H2']; subst. inversion H3 as [|? ? Hs3 H3']; subst.
  cbn [length] in Hl2, Hl3.
  unfold splitTexts. rewrite !fold_left_app.
  change (@nil jsstring, @nil N) with (@nil jsstring, join [32%N] []).
  rewrite (textStep_add_many r1 [] [])
    by solve [auto using Forall_nil, Forall_cons | cbn [length]; lia].
  cbn [app fold_left].
  rewrite textStep_flush by assumption.
  change s2 with (join [32%N] [s2]) at 1.
  rewrite (textStep_add_many r2 _ [s2])
    by solve [auto using Forall_nil, Forall_cons | cbn [length]; lia].
  cbn [app].
  rewrite textStep_flush by solve [assumption | cbn [length]; lia].
  change s3 with (join [32%N] [s3]) at 1.
  rewrite (textStep_add_many r3 _ [s3])
    by solve [auto using Forall_nil, Forall_cons | cbn [length]; lia].
  cbn [app].
  assert (Hn : trim (join [32%N] (s3 :: r3)) <> []).
  { apply trim_nonempty_iff. inversion Hnb as [|? ? (c & Hc & Hw) _]; subst.
    exists c. split; [|exact Hw]. apply in_join with (s := s3); [now left | exact Hc]. }
  unfold runText.
  destruct (trim (join [32%N] (s3 :: r3))); [congruence | reflexivity].
Qed.

Lemma runText_length (run : list jsstring) :
  Forall (fun b => length b = 119) run -> run <> [] ->
  length (runText run) + 1 <= 120 * length run.
Proof.
  intros H Hne. pose proof (join_length_119 run H Hne) as Hj.
  pose proof (trim_length (join [32%N] run)) as Ht. unfold runText. lia.
Qed.

Lemma length_concat_120 (sentences : list jsstring) :
  Forall (fun s => length s = 120) sentences ->
  length (concat sentences) = 120 * length sentences.
Proof.
  induction 1 as [|s l Hs _ IH]; [reflexivity|].
  cbn [concat length]. rewrite length_app. lia.
Qed.

(** What the builder emits for a segment of the merging step stands in the
    output, and nothing around it is a part of the segment. *)
Lemma emit_in_output (toLowerCase : jsstring -> jsstring)
    (visualNear : Seg.Element -> Seg.Element -> bool)
    (all : list Seg.Element) (g : Seg.Segment) :
  In g (Seg.mergeShortTextSegments
          (Seg.groupElementsByContainer toLowerCase visualNear all)) ->
  exists pre post,
    Seg.optimizeContentSegmentation toLowerCase visualNear all
    = pre ++ emit g ++ post /\
    (forall s, In s pre \/ In s post -> Seg.originalGroup s <> Some g).
Proof.
  intros Hg.
  set (mergedGroups := Seg.mergeShortTextSegments _) in *.
  set (out := Seg.optimizeContentSegmentation toLowerCase visualNear all).
  destruct (grouping_result toLowerCase visualNear all) as (Hd & Hn & Hp & _).
  destruct (merging_result _ Hd Hn Hp) as (Hd' & Hn' & Hu' & _).
  fold mergedGroups in Hd', Hn', Hu'.
  assert (Hout : out = flat_map emit mergedGroups).
  { unfold out, Seg.optimizeContentSegmentation. now apply splitting_result. }
  destruct (in_split _ _ Hg) as (l1 & l2 & Hsplit).
  rewrite Hsplit in Hout, Hd', Hn', Hu'.
  rewrite flat_map_app in Hout. simpl in Hout.
  apply ForallOrdPairs_app_inv in Hd' as (_ & Hd2 & Hcross).
  inversion Hd2 as [|? ? Hg2 _]; subst.
  apply Forall_app in Hn' as [_ Hn2]. inversion Hn2 as [|? ? Hgne _]; subst.
  apply Forall_app in Hu' as [Hu1 Hu2]. inversion Hu2 as [|? ? _ Hu2']; subst.
  exists (flat_map emit l1), (flat_map emit l2).
  split; [exact Hout|].
  intros s [Hs|Hs]; apply in_flat_map in Hs as (g' & Hg' & Hs).
  - apply (emit_other_group g g' s); auto.
    + rewrite Forall_forall in Hu1. now apply Hu1.
    + left. apply Hcross; [exact Hg' | now left].
  - apply (emit_other_group g g' s); auto.
    + rewrite Forall_forall in Hu2'. now apply Hu2'.
    + right. rewrite Forall_forall in Hg2. now apply Hg2.
Qed.

(** A paragraph of 20 sentences, each of 119 letters and a full stop. *)
Definition paragraph_node : Seg.Element :=
  {| Seg.eid := 0;
     Seg.textContent := concat (repeat (repeat 97%N 119 ++ [46%N]) 20);
     Seg.depth := 3; Seg.container := 1 |}.

(** C3, amended. For every segment the merging step returns whose text has
    more than 1000 units, the output has, next to each other, at least one
    [split] segment of it, each with the node list of the segment, the
    segment as [originalGroup] and [partIndex] 0, 1, 2, ...; no other output
    segment has it as [originalGroup].  The sentences [splitIntoSentences]
    gives for the text (the pieces between sentence terminators that are not
    blank, or 200-unit chunks) fall, in order, into runs; the texts of the
    parts are the texts of the runs, each the sentences of the run joined by
    single spaces and trimmed, the last run giving none if its text is
    empty.  A sentence joins a run that is not empty only if the run before
    it and the sentence together have at most 1000 units.  A paragraph of
    2400 units in 20 sentences of 120 units, each 119 units that are not
    terminators and not all white space and one terminator, is emitted as
    exactly 3 [split] segments, with [partIndex] 0, 1, 2: the first 8
    sentences, the next 8 and the last 4, without their terminators, joined
    by single spaces and trimmed, of at most 959, 959 and 479 units. *)
Theorem long_segment_split_into_parts :
  (forall (toLowerCase : jsstring -> jsstring)
          (visualNear : Seg.Element -> Seg.Element -> bool)
          (all : list Seg.Element) (g : Seg.Segment),
      let mergedGroups :=
        Seg.mergeShortTextSegments (Seg.groupElementsByContainer toLowerCase visualNear all) in
      let out := Seg.optimizeContentSegmentation toLowerCase visualNear all in
      In g mergedGroups ->
      Seg.maxSegmentLength < length (Seg.text g) ->
      exists pre parts post closed lastrun,
        out = pre ++ parts ++ post /\
        parts <> [] /\
        (forall s, In s pre \/ In s post -> Seg.originalGroup s <> Some g) /\
        (forall i s, nth_error parts i = Some s ->
                     s = Seg.Split (Seg.elements g) (Seg.text s) g i) /\
        concat closed ++ lastrun = Seg.splitIntoSentences (Seg.text g) /\
        map Seg.text parts
        = map (fun run => trim (join [32%N] run)) closed
          ++ (match trim (join [32%N] lastrun) with
              | [] => []
              | _ :: _ => [trim (join [32%N] lastrun)]
              end) /\
        Forall (fun run => run <> []) closed /\
        Forall (fun run =>
                  2 <= length run ->
                  length (join [32%N] (removelast run)) + length (last run [])
                  <= 1000) (closed ++ [lastrun])) /\
  (forall (toLowerCase : jsstring -> jsstring)
          (visualNear : Seg.Element -> Seg.Element -> bool)
          (all : list Seg.Element) (g : Seg.Segment) (sentences : list jsstring),
      let mergedGroups :=
        Seg.mergeShortTextSegments (Seg.groupElementsByContainer toLowerCase visualNear all) in
      let out := Seg.optimizeContentSegmentation toLowerCase visualNear all in
      let part := fun (i : nat) (run : list jsstring) =>
        Seg.Split (Seg.elements g) (trim (join [32%N] run)) g i in
      In g mergedGroups ->
      Seg.text g = concat sentences ->
      length sentences = 20 ->
      Forall (sentence_of 120) sentences ->
      length (Seg.text g) = 2400 /\
      exists pre post,
        out = pre ++ [part 0 (firstn 8 (bodies sentences));
                      part 1 (firstn 8 (skipn 8 (bodies sentences)));
                      part 2 (skipn 16 (bodies sentences))] ++ post /\
        (forall s, In s pre \/ In s post -> Seg.originalGroup s <> Some g) /\
        length (trim (join [32%N] (firstn 8 (bodies sentences)))) <= 959 /\
        length (trim (join [32%N] (firstn 8 (skipn 8 (bodies sentences))))) <= 959 /\
        length (trim (join [32%N] (skipn 16 (bodies sentences)))) <= 479).
Proof.
  split.
  - intros toLowerCase visualNear all g mergedGroups out Hg Hlong.
    destruct (emit_in_output toLowerCase visualNear all g Hg)
      as (pre & post & Hout & Hother).
    destruct (splitIntoSentences_props (Seg.text g)) as [Hne _]. cbv zeta in Hne.
    destruct (splitTexts_runs _ Hne) as (closed & lastrun & Hc & Ht & Hcl & Hoks & Hokl).
    assert (He : emit g
                 = splitParts g 0 (splitTexts (Seg.splitIntoSentences (Seg.text g)))).
    { unfold emit. apply Nat.leb_gt in Hlong. now rewrite Hlong. }
    exists pre, (emit g), post, closed, lastrun.
    split; [exact Hout|]. split; [apply emit_nonempty|].
    split; [exact Hother|]. split; [|split; [|split; [|split]]].
    + rewrite He. intros i s Hs. apply nth_error_splitParts in Hs. exact Hs.
    + exact Hc.
    + rewrite He, map_text_splitParts. exact Ht.
    + exact Hcl.
    + apply Forall_app. split; [exact Hoks | constructor; [exact Hokl | constructor]].
  - intros toLowerCase visualNear all g sentences mergedGroups out part
           Hg Htext Hlen Hs.
    destruct (bodies_props 119 sentences Hs) as (H119 & Hnb & H120).
    assert (Hl : length (Seg.text g) = 2400).
    { rewrite Htext, (length_concat_120 sentences H120), Hlen. reflexivity. }
    split; [exact Hl|].
    destruct (emit_in_output toLowerCase visualNear all g Hg)
      as (pre & post & Hout & Hother).
    assert (Hb : length (bodies sentences) = 20).
    { unfold bodies. now rewrite length_map. }
    assert (He : emit g
                 = [part 0 (firstn 8 (bodies sentences));
                    part 1 (firstn 8 (skipn 8 (bodies sentences)));
                    part 2 (skipn 16 (bodies sentences))]).
    { unfold emit.
      replace (length (Seg.text g) <=? Seg.maxSegmentLength) with false
        by (symmetry; apply Nat.leb_gt; unfold Seg.maxSegmentLength; lia).
      rewrite Htext, (splitIntoSentences_sentences 119) by (auto; lia).
      rewrite (splitTexts_twenty _ Hb H119 Hnb). reflexivity. }
    exists pre, post. rewrite <- He.
    split; [exact Hout|]. split; [exact Hother|].
    assert (Hrun : forall run, Forall (fun b => length b = 119) run -> run <> [] ->
                               length (trim (join [32%N] run)) + 1 <= 120 * length run).
    { exact runText_length. }
    assert (Hb' : bodies sentences
                  = firstn 8 (bodies sentences)
                    ++ firstn 8 (skipn 8 (bodies sentences))
                    ++ skipn 16 (bodies sentences)).
    { change 16 with (8 + 8). rewrite <- skipn_skipn. now rewrite !firstn_skipn. }
    assert (Hl1 : length (firstn 8 (bodies sentences)) = 8)
      by (rewrite length_firstn; lia).
    assert (Hl2 : length (firstn 8 (skipn 8 (bodies sentences))) = 8)
      by (rewrite length_firstn, length_skipn; lia).
    assert (Hl3 : length (skipn 16 (bodies sentences)) = 4)
      by (rewrite length_skipn; lia).
    rewrite Hb' in H119.
    apply Forall_app in H119 as [H1 H23]. apply Forall_app in H23 as [H2 H3].
    split; [|split].
    + specialize (Hrun _ H1). rewrite Hl1 in Hrun.
      assert (firstn 8 (bodies sentences) <> [])
        by (intros E; rewrite E in Hl1; discriminate).
      specialize (Hrun ltac:(assumption)). lia.
    + specialize (Hrun _ H2). rewrite Hl2 in Hrun.
      assert (firstn 8 (skipn 8 (bodies sentences)) <> [])
        by (intros E; rewrite E in Hl2; discriminate).
      specialize (Hrun ltac:(assumption)). lia.
    + specialize (Hrun _ H3). rewrite Hl3 in Hrun.
      assert (skipn 16 (bodies sentences) <> [])
        by (intros E; rewrite E in Hl3; discriminate).
      specialize (Hrun ltac:(assumption)). lia.
Qed.

Lemma long_segment_split_into_parts_witness :
  let g := Seg.Single [paragraph_node] (Seg.textContent paragraph_node) 1 in
  (exists pre parts post : list Seg.Segment,
     Seg.optimizeContentSegmentation Retry.asciiLowerCase Seg.farApart [paragraph_node]
     = pre ++ parts ++ post /\
     parts <> [] /\
     forall i s, nth_error parts i = Some s ->
                 s = Seg.Split (Seg.elements g) (Seg.text s) g i) /\
  (exists t0 t1 t2 : jsstring,
     Seg.optimizeContentSegmentation Retry.asciiLowerCase Seg.farApart [paragraph_node]
     = [Seg.Split [paragraph_node] t0 g 0; Seg.Split [paragraph_node] t1 g 1;
        Seg.Split [paragraph_node] t2 g 2] /\
     length t0 <= 959 /\ length t1 <= 959 /\ length t2 <= 479).
Proof.
  intros g. destruct long_segment_split_into_parts as [Hany Htwenty]. split.
  - destruct (Hany Retry.asciiLowerCase Seg.farApart [paragraph_node] g)
      as (pre & parts & post & closed & lastrun & H1 & H2 & _ & H4 & _).
    + vm_compute. left. reflexivity.
    + vm_compute. lia.
    + exists pre, parts, post. auto.
  - destruct (Htwenty Retry.asciiLowerCase Seg.farApart [paragraph_node] g
                (repeat (repeat 97%N 119 ++ [46%N]) 20))
      as (_ & pre & post & Hout & Hother & Hl0 & Hl1 & Hl2).
    + vm_compute. left. reflexivity.
    + reflexivity.
    + reflexivity.
    + apply Forall_forall. intros s Hs. apply repeat_spec in Hs. subst s.
      exists (repeat 97%N 119), 46%N. split; [reflexivity|].
      split; [reflexivity|]. split; [|split; [|reflexivity]].
      * intros c Hc. apply repeat_spec in Hc. subst c. reflexivity.
      * exists 97%N. split; [now left | reflexivity].
    + destruct pre as [|p pre].
      * destruct post as [|q post].
        -- eexists _, _, _. split; [exact Hout|]. auto.
        -- exfalso. apply (f_equal (@length Seg.Segment)) in Hout.
           vm_compute in Hout. discriminate.
      * exfalso. apply (f_equal (@length Seg.Segment)) in Hout.
        rewrite !length_app in Hout. cbn [length] in Hout.
        assert (Hn : length (Seg.optimizeContentSegmentation Retry.asciiLowerCase
                               Seg.farApart [paragraph_node]) = 3)
          by (vm_compute; reflexivity).
        lia.
Defined.

(** ** The order in which the parts of a split group are applied *)

(** The job for a page with the one long node: its two parts, submitted to
    the pool as [translatePage] does, with the default settings. *)
Definition split_segments : list Seg.Segment :=
  Seg.optimizeContentSegmentation Retry.asciiLowerCase Seg.farApart [long_node].

Definition untouched_page : Job.Dom := fun _ => Job.Original.

Definition split_job : Job.t :=
  Job.dispatch None None split_segments 0 (Pool.constructor nat 5 100) untouched_page.

(** C2 does not hold of the code. The two parts of the group are both
    running at once after the dispatch. When the request of part 1 returns
    before that of part 0, part 1 is applied first: it finds no container
    and its translation is dropped, and the node ends with the translation
    of part 0 alone. When the requests return in order, the node ends with
    both. *)
Theorem split_parts_applied_in_return_order :
  map Seg.partIndex split_segments = [Some 0; Some 1] /\
  (exists g, map Seg.originalGroup split_segments = [Some g; Some g]) /\
  map (@Pool.taskFn nat) (Pool.running (Job.pool split_job)) = [0; 1] /\
  Pool.activeRequests (Job.pool split_job) = 2%Z /\
  (let late := Job.run Reassembly.doubleRoundRatio Job.flat [long_node]
                         Job.bilingualText split_segments split_job
                 [Job.EvReturn 1 (Some (lit "T1")); Job.EvReturn 0 (Some (lit "T0"))] in
   Job.applied late = [1; 0] /\
   Job.dom late long_node
   = Job.SplitContainer (Seg.textContent long_node) [lit "T0"]) /\
  (let inorder := Job.run Reassembly.doubleRoundRatio Job.flat [long_node]
                            Job.bilingualText split_segments split_job
                    [Job.EvReturn 0 (Some (lit "T0")); Job.EvReturn 0 (Some (lit "T1"))] in
   Job.applied inorder = [0; 1] /\
   Job.dom inorder long_node
   = Job.SplitContainer (Seg.textContent long_node) [lit "T0"; lit "T1"]).
Proof.
  split; [vm_compute; reflexivity|].
  split; [eexists; vm_compute; reflexivity|].
  split; [vm_compute; reflexivity|].
  split; [vm_compute; reflexivity|].
  split; split; vm_compute; reflexivity.
Qed.

(* ===================================================================== *)
(** * Part III: further properties of the code                            *)
(* ===================================================================== *)

(** ** The cache store: lookups *)

(** Settings for the examples. *)
Definition sample_settings : Cache.Settings :=
  {| Cache.aiModel := Some (lit "openai-gpt35");
     Cache.targetLanguage := Some (lit "fr");
     Cache.sourceLanguage := Some (lit "auto") |}.

Lemma trimStart_fixed c r : isWhiteSpace c = false -> trimStart (c :: r) = c :: r.
Proof. intros H. simpl. now rewrite H. Qed.

Lemma trimStart_idempotent s : trimStart (trimStart s) = trimStart s.
Proof.
  induction s as [|c r IH]; [reflexivity|]. simpl.
  destruct (isWhiteSpace c) eqn:E; [exact IH|]. now apply trimStart_fixed.
Qed.

Lemma trimStart_snoc c l :
  isWhiteSpace c = false -> exists l', trimStart (l ++ [c]) = l' ++ [c].
Proof.
  intros Hc. induction l as [|x l IH]; simpl.
  - exists []. now rewrite Hc.
  - destruct (isWhiteSpace x); [exact IH|]. now exists (x :: l).
Qed.

Lemma trimEnd_idempotent s : trimEnd (trimEnd s) = trimEnd s.
Proof. unfold trimEnd. now rewrite rev_involutive, trimStart_idempotent. Qed.

Lemma trimStart_trimEnd c r :
  isWhiteSpace c = false -> trimStart (trimEnd (c :: r)) = trimEnd (c :: r).
Proof.
  intros Hc. unfold trimEnd. simpl rev.
  destruct (trimStart_snoc c (rev r) Hc) as (l' & ->).
  rewrite rev_app_distr. simpl. now rewrite Hc.
Qed.

(** Trimming a trimmed string changes nothing. *)
Lemma trim_idempotent s : trim (trim s) = trim s.
Proof.
  unfold trim at 1.
  assert (H : trimStart (trim s) = trim s).
  { unfold trim. destruct (trimStart s) as [|c r] eqn:E; [reflexivity|].
    apply trimStart_trimEnd. eapply trimStart_head; exact E. }
  rewrite H. unfold trim. apply trimEnd_idempotent.
Qed.

(** X1. The key of a text is the key of the trimmed text: texts that differ
    only in white space at their ends get the same key under the same
    settings. *)
Theorem cache_key_ignores_outer_space :
  forall (text1 text2 : jsstring) (settings : Cache.Settings),
    trim text1 = trim text2 ->
    Cache.generateCacheKey text1 settings = Cache.generateCacheKey text2 settings /\
    Cache.generateCacheKey (trim text1) settings = Cache.generateCacheKey text1 settings.
Proof.
  intros text1 text2 settings H. unfold Cache.generateCacheKey.
  rewrite trim_idempotent, H. split; reflexivity.
Qed.

Lemma cache_key_ignores_outer_space_witness :
  Cache.generateCacheKey (lit "  hello world ") sample_settings
  = Cache.generateCacheKey (lit "hello world") sample_settings.
Proof.
  assert (H : trim (lit "  hello world ") = trim (lit "hello world"))
    by (vm_compute; reflexivity).
  destruct (cache_key_ignores_outer_space (lit "  hello world ") (lit "hello world")
              sample_settings H) as [H1 _].
  exact H1.
Defined.

Lemma map_get_skipn_set k v (m : Cache.JSMap) n :
  n <= length (Cache.map_set k v m) - 1 ->
  (n = 0 \/ Cache.map_get k m = None) ->
  Cache.map_get k (skipn n (Cache.map_set k v m)) = Some v.
Proof.
  revert n. induction m as [|[k' v'] m IH]; intros n Hn Hc; simpl in *.
  - replace n with 0 by lia. simpl. now rewrite str_eqb_refl.
  - destruct (str_eqb k k') eqn:E.
    + destruct Hc as [->|Hc]; [|discriminate]. simpl. now rewrite str_eqb_refl.
    + destruct n as [|n]; simpl.
      * rewrite E. apply (IH 0); [lia | now left].
      * apply IH; [simpl in Hn; lia|]. destruct Hc as [Hc|Hc]; [discriminate | now right].
Qed.

Lemma length_map_set_present k v (m : Cache.JSMap) :
  Cache.map_get k m <> None -> length (Cache.map_set k v m) = length m.
Proof.
  induction m as [|[k' v'] m IH]; simpl; [congruence|].
  destruct (str_eqb k k'); simpl; [reflexivity|]. intros H. now rewrite IH.
Qed.

Lemma length_map_set_absent k v (m : Cache.JSMap) :
  Cache.map_get k m = None -> length (Cache.map_set k v m) = S (length m).
Proof.
  induction m as [|[k' v'] m IH]; simpl; [reflexivity|].
  destruct (str_eqb k k'); simpl; [discriminate|]. intros H. now rewrite IH.
Qed.

(** A key just set is found after the cleanup, in a cache that was within
    its bound and may hold at least one entry. *)
Lemma get_after_cacheTranslation text settings tr now (c : Cache.t) :
  length (Cache.translationCache c) <= Cache.cacheMaxSize c ->
  1 <= Cache.cacheMaxSize c ->
  Cache.map_get (Cache.generateCacheKey text settings)
    (Cache.translationCache (Cache.cacheTranslation text settings tr now c))
  = Some {| Cache.translation := tr; Cache.timestamp := now;
            Cache.accessCount := 1; Cache.lastAccess := None |}.
Proof.
  intros Hlen Hmax.
  destruct (cacheTranslation_cache text settings tr now c) as [Hm _].
  rewrite Hm. clear Hm.
  set (k := Cache.generateCacheKey text settings).
  destruct (Cache.map_get k (Cache.translationCache c)) eqn:Eg.
  - apply map_get_skipn_set.
    + rewrite length_map_set_present by congruence. lia.
    + left. rewrite length_map_set_present by congruence. lia.
  - apply map_get_skipn_set.
    + rewrite length_map_set_absent by assumption. lia.
    + now right.
Qed.

(** X2. What is cached is found: in a cache within its bound, of maximum
    size at least 1, [getCachedTranslation] after [cacheTranslation]
    returns the cached translation, for the same settings and any text
    that is the same after trimming. *)
Theorem cache_get_after_put :
  forall (text text' : jsstring) (settings : Cache.Settings) (tr : jsstring)
         (now now' : Z) (c : Cache.t),
    length (Cache.translationCache c) <= Cache.cacheMaxSize c ->
    1 <= Cache.cacheMaxSize c ->
    trim text' = trim text ->
    fst (Cache.getCachedTranslation text' settings now'
           (Cache.cacheTranslation text settings tr now c))
    = Some tr.
Proof.
  intros text text' settings tr now now' c Hlen Hmax Htrim.
  unfold Cache.getCachedTranslation.
  assert (Hk : Cache.generateCacheKey text' settings = Cache.generateCacheKey text settings).
  { unfold Cache.generateCacheKey. now rewrite Htrim. }
  rewrite Hk, get_after_cacheTranslation by assumption. reflexivity.
Qed.

Lemma cache_get_after_put_witness :
  fst (Cache.getCachedTranslation (lit " hello ") sample_settings 7
         (Cache.cacheTranslation (lit "hello") sample_settings (lit "bonjour") 3
            Cache.constructor))
  = Some (lit "bonjour").
Proof.
  assert (H : trim (lit " hello ") = trim (lit "hello")) by (vm_compute; reflexivity).
  assert (H1 : length (Cache.translationCache Cache.constructor)
               <= Cache.cacheMaxSize Cache.constructor) by (simpl; lia).
  assert (H2 : 1 <= Cache.cacheMaxSize Cache.constructor) by (simpl; lia).
  exact (cache_get_after_put (lit "hello") (lit " hello ") sample_settings
           (lit "bonjour") 3 7 Cache.constructor H1 H2 H).
Defined.

Lemma keys_map_set_present k v (m : Cache.JSMap) :
  Cache.map_get k m <> None ->
  Cache.map_keys (Cache.map_set k v m) = Cache.map_keys m.
Proof.
  induction m as [|[k' v'] m IH]; simpl; [congruence|].
  destruct (str_eqb k k') eqn:E; simpl.
  - apply str_eqb_eq in E. now subst.
  - intros H. now rewrite IH.
Qed.

(** X3. A lookup changes neither the keys of the cache nor their order, so
    it has no part in what the cleanup evicts; it adds one to the hit
    counter and returns a translation, or adds one to the miss counter and
    returns [null]. *)
Theorem cache_lookup_keeps_keys :
  forall (text : jsstring) (settings : Cache.Settings) (now : Z) (c : Cache.t),
    let r := Cache.getCachedTranslation text settings now c in
    Cache.map_keys (Cache.translationCache (snd r))
    = Cache.map_keys (Cache.translationCache c) /\
    Cache.cacheMaxSize (snd r) = Cache.cacheMaxSize c /\
    ((exists tr, fst r = Some tr /\
                 Cache.cacheHitCount (snd r) = (Cache.cacheHitCount c + 1)%Z /\
                 Cache.cacheMissCount (snd r) = Cache.cacheMissCount c) \/
     (fst r = None /\
      Cache.cacheHitCount (snd r) = Cache.cacheHitCount c /\
      Cache.cacheMissCount (snd r) = (Cache.cacheMissCount c + 1)%Z /\
      Cache.translationCache (snd r) = Cache.translationCache c)).
Proof.
  intros text settings now c. unfold Cache.getCachedTranslation. cbv zeta.
  destruct (Cache.map_get _ _) as [cached|] eqn:E; simpl.
  - split; [apply keys_map_set_present; congruence|]. split; [reflexivity|].
    left. exists (Cache.translation cached). auto.
  - split; [reflexivity|]. split; [reflexivity|]. right. auto.
Qed.

(** Caching for a key that is there replaces the entry where it is. *)
Lemma cacheTranslation_present text settings tr now (c : Cache.t) :
  length (Cache.translationCache c) <= Cache.cacheMaxSize c ->
  Cache.map_get (Cache.generateCacheKey text settings) (Cache.translationCache c)
  <> None ->
  Cache.translationCache (Cache.cacheTranslation text settings tr now c)
  = Cache.map_set (Cache.generateCacheKey text settings)
      {| Cache.translation := tr; Cache.timestamp := now;
         Cache.accessCount := 1; Cache.lastAccess := None |}
      (Cache.translationCache c).
Proof.
  intros Hlen Hin.
  destruct (cacheTranslation_cache text settings tr now c) as [Hm _].
  rewrite Hm. rewrite length_map_set_present by assumption.
  replace (length (Cache.translationCache c) - Cache.cacheMaxSize c) with 0 by lia.
  reflexivity.
Qed.

(** X4. Caching a translation for a key the cache already holds, in a cache
    within its bound, evicts nothing: the keys and their order stay as they
    are, and the key keeps its place in the order of eviction. *)
Theorem cache_put_existing_key_in_place :
  forall (text : jsstring) (settings : Cache.Settings) (tr : jsstring)
         (now : Z) (c : Cache.t),
    length (Cache.translationCache c) <= Cache.cacheMaxSize c ->
    Cache.map_get (Cache.generateCacheKey text settings) (Cache.translationCache c)
    <> None ->
    Cache.map_keys
      (Cache.translationCache (Cache.cacheTranslation text settings tr now c))
    = Cache.map_keys (Cache.translationCache c).
Proof.
  intros text settings tr now c Hlen Hin.
  rewrite cacheTranslation_present by assumption.
  now apply keys_map_set_present.
Qed.

Lemma cache_put_existing_key_in_place_witness :
  let c := Cache.puts Cache.constructor
             [Cache.mkPut (lit "one") sample_settings (lit "un") 1;
              Cache.mkPut (lit "two") sample_settings (lit "deux") 2] in
  Cache.map_keys
    (Cache.translationCache
       (Cache.cacheTranslation (lit "one") sample_settings (lit "une") 3 c))
  = Cache.map_keys (Cache.translationCache c).
Proof.
  intros c. apply cache_put_existing_key_in_place.
  - vm_compute. lia.
  - vm_compute. discriminate.
Defined.

(** ** Requests through the cache *)

(** The retry wrapper returns only translations that are not blank. *)
Lemma retryLoop_returned toLowerCase env n : forall attempt lastError done tr,
  Retry.outcome (Retry.retryLoop toLowerCase env n attempt lastError done)
  = Retry.Returned tr ->
  (Retry.outcome done = Retry.Returned tr \/ (tr <> [] /\ trim tr <> [])).
Proof.
  induction n as [|n IH]; intros attempt lastError done tr; simpl.
  - discriminate.
  - destruct (Retry.tryBlock (env attempt)) as [[result|error] called] eqn:Ht; simpl.
    + intros H; injection H as ->. right.
      unfold Retry.tryBlock in Ht.
      destruct (negb (Retry.runtimeId (env attempt))); [discriminate|].
      destruct (negb (Retry.isTranslating (env attempt))); [discriminate|].
      destruct (Retry.response (env attempt)) as [[r|]|m]; try discriminate.
      destruct (trim r) eqn:Er; [discriminate|]. injection Ht as -> _.
      split; [|congruence]. intros ->. discriminate.
    + destruct (_ || _); simpl; [discriminate|].
      intros H. apply IH in H. simpl in H. exact H.
Qed.

(** X5. Once the wrapper has returned a translation and [store] has run on
    a cache within its bound (of maximum size at least 1), a new request
    for the same text and settings is answered by [lookup] from the cache,
    with that translation and without an attempt; and when the wrapper
    throws, [store] leaves the cache as it is. *)
Theorem optimized_request_served_from_cache :
  forall (toLowerCase : jsstring -> jsstring) (env : nat -> Retry.Attempt)
         (text : jsstring) (settings : Cache.Settings) (now now' : Z) (c : Cache.t),
    length (Cache.translationCache c) <= Cache.cacheMaxSize c ->
    1 <= Cache.cacheMaxSize c ->
    let run := Retry.requestTranslationWithAdvancedRetry toLowerCase env in
    let stored := Optimized.store text settings (Retry.outcome run) now c in
    fst stored = Retry.outcome run /\
    (forall tr, Retry.outcome run = Retry.Returned tr ->
                fst (Optimized.lookup text settings now' (snd stored)) = Some tr) /\
    (forall e, Retry.outcome run = Retry.Thrown e -> snd stored = c).
Proof.
  intros toLowerCase env text settings now now' c Hlen Hmax run stored.
  unfold stored, Optimized.store.
  destruct (Retry.outcome run) as [tr|e] eqn:Eo.
  - assert (Hnb : tr <> [] /\ trim tr <> []).
    { unfold run, Retry.requestTranslationWithAdvancedRetry in Eo.
      apply retryLoop_returned in Eo. simpl in Eo.
      destruct Eo as [Eo|Eo]; [discriminate | exact Eo]. }
    destruct Hnb as [Hne Htrim].
    destruct tr as [|ch r]; [congruence|].
    destruct (trim (ch :: r)) as [|ch' r'] eqn:Et; [congruence|].
    split; [reflexivity|]. split; [|discriminate].
    intros tr' H; injection H as <-. simpl snd. unfold Optimized.lookup.
    pose proof (get_after_cacheTranslation text settings (ch :: r) now c Hlen Hmax) as Hg.
    unfold Cache.getCachedTranslation. rewrite Hg. reflexivity.
  - split; [reflexivity|]. split; [discriminate|]. reflexivity.
Qed.

(** A backend that answers the first attempt. *)
Definition env_success : nat -> Retry.Attempt :=
  fun _ => {| Retry.runtimeId := true; Retry.isTranslating := true;
              Retry.response := Retry.Resolved (Some (lit "bonjour")) |}.

Lemma optimized_request_served_from_cache_witness :
  fst (Optimized.lookup (lit "hello") sample_settings 9
         (snd (Optimized.store (lit "hello") sample_settings
                 (Retry.outcome
                    (Retry.requestTranslationWithAdvancedRetry
                       Retry.asciiLowerCase env_success))
                 5 Cache.constructor)))
  = Some (lit "bonjour").
Proof.
  destruct (optimized_request_served_from_cache Retry.asciiLowerCase env_success
              (lit "hello") sample_settings 5 9 Cache.constructor)
    as (_ & H & _).
  - simpl. lia.
  - simpl. lia.
  - apply H. reflexivity.
Defined.

(** ** The retry wrapper: what every run has *)

Section RetryRuns.

Variable toLowerCase : jsstring -> jsstring.
Variable env : nat -> Retry.Attempt.

Local Abbreviation classify' := (Retry.classifyError toLowerCase).
Local Abbreviation loop' := (Retry.retryLoop toLowerCase env).

(** One pass of the loop. *)
Lemma retryLoop_S n attempt lastError done :
  loop' (S n) attempt lastError done
  = let '(r, called) := Retry.tryBlock (env attempt) in
    match r with
    | inl result =>
        {| Retry.outcome := Retry.Returned result;
           Retry.attempts := S (Retry.attempts done);
           Retry.calls := Retry.calls done + Retry.count called;
           Retry.waits := Retry.waits done |}
    | inr error =>
        if (attempt =? Retry.maxRetries)
           || negb (Retry.shouldRetry (classify' error) attempt)
        then
          {| Retry.outcome := Retry.Thrown error;
             Retry.attempts := S (Retry.attempts done);
             Retry.calls := Retry.calls done + Retry.count called;
             Retry.waits := Retry.waits done |}
        else
          loop' n (S attempt) (Some error)
            {| Retry.outcome := Retry.outcome done;
               Retry.attempts := S (Retry.attempts done);
               Retry.calls := Retry.calls done + Retry.count called;
               Retry.waits := Retry.waits done
                              ++ [Retry.retryDelay (classify' error) attempt] |}
    end.
Proof. reflexivity. Qed.

(** A pass that is retried fails with an error whose class allows the
    retry. *)
Definition retried (j : nat) : Prop :=
  exists err, fst (Retry.tryBlock (env j)) = inr err /\
              Retry.shouldRetry (classify' err) j = true.

(** The loop from pass [attempt] on, when the passes before it were all
    made and retried: it makes at least one pass, waits once per retry, and
    ends with what its last pass finds. *)
Lemma retryLoop_run n : forall attempt lastError done,
  attempt + S n = Retry.maxRetries + 1 ->
  Retry.attempts done = attempt ->
  length (Retry.waits done) = attempt ->
  (forall j, j < attempt -> retried j) ->
  let r := loop' (S n) attempt lastError done in
  1 <= Retry.attempts r /\
  Retry.attempts r = length (Retry.waits r) + 1 /\
  (forall j, j < Retry.attempts r - 1 -> retried j) /\
  match Retry.outcome r with
  | Retry.Returned tr => fst (Retry.tryBlock (env (Retry.attempts r - 1))) = inl tr
  | Retry.Thrown e => fst (Retry.tryBlock (env (Retry.attempts r - 1))) = inr e
  end.
Proof.
  induction n as [|n IH]; intros attempt lastError done Hn Ha Hw Hprev r; unfold r;
    rewrite retryLoop_S;
    destruct (Retry.tryBlock (env attempt)) as [[result|error] called] eqn:Ht;
    cbv beta iota.
  - simpl. rewrite Ha, Hw, Nat.sub_0_r, Ht. repeat split; auto; lia.
  - assert (E : (attempt =? Retry.maxRetries) = true)
      by (apply Nat.eqb_eq; unfold Retry.maxRetries in *; lia).
    rewrite E. simpl. rewrite Ha, Hw, Nat.sub_0_r, Ht. repeat split; auto; lia.
  - simpl. rewrite Ha, Hw, Nat.sub_0_r, Ht. repeat split; auto; lia.
  - destruct ((attempt =? Retry.maxRetries)
              || negb (Retry.shouldRetry (classify' error) attempt)) eqn:E.
    + simpl. rewrite Ha, Hw, Nat.sub_0_r, Ht. repeat split; auto; lia.
    + apply orb_false_iff in E as [_ E]. apply negb_false_iff in E.
      apply IH; simpl.
      * unfold Retry.maxRetries in *. lia.
      * lia.
      * rewrite length_app. simpl. lia.
      * intros j Hj. destruct (Nat.eq_dec j attempt) as [->|Hne].
        -- exists error. rewrite Ht. auto.
        -- apply Hprev. lia.
Qed.

(** Every delay waited follows a failure whose class allows the retry, and
    is the delay of that class. *)
Lemma retryLoop_waits_retried n : forall attempt lastError done,
  exists ws,
    Retry.waits (loop' n attempt lastError done) = Retry.waits done ++ ws /\
    forall j w, nth_error ws j = Some w ->
      exists C, w = Retry.retryDelay C (attempt + j) /\
                Retry.shouldRetry C (attempt + j) = true.
Proof.
  induction n as [|n IH]; intros attempt lastError done; simpl.
  - exists []. rewrite app_nil_r. split; [reflexivity|]. intros [|j] w; discriminate.
  - destruct (Retry.tryBlock (env attempt)) as [[result|error] called] eqn:Ht; simpl.
    + exists []. rewrite app_nil_r. split; [reflexivity|]. intros [|j] w; discriminate.
    + destruct ((attempt =? Retry.maxRetries)
                || negb (Retry.shouldRetry (classify' error) attempt)) eqn:E; simpl.
      * exists []. rewrite app_nil_r. split; [reflexivity|].
        intros [|j] w; discriminate.
      * apply orb_false_iff in E as [_ E]. apply negb_false_iff in E.
        match goal with
        | |- context [Retry.retryLoop _ _ n (S attempt) ?le ?d] =>
            destruct (IH (S attempt) le d) as (ws & Hws & Hall)
        end.
        simpl in Hws.
        exists (Retry.retryDelay (classify' error) attempt :: ws). split.
        { rewrite Hws, <- app_assoc. reflexivity. }
        intros [|j] w Hj; simpl in Hj.
        { injection Hj as <-. exists (classify' error). rewrite Nat.add_0_r. auto. }
        { destruct (Hall j w Hj) as (C & H1 & H2).
          exists C. replace (attempt + S j) with (S attempt + j) by lia. auto. }
Qed.

(** The passes and the delays when every failure has the class [C]. *)
Fixpoint uniformPasses (n attempt : nat) (C : Retry.ErrorType) : nat :=
  match n with
  | O => 0
  | S n' =>
      if (attempt =? Retry.maxRetries) || negb (Retry.shouldRetry C attempt) then 1
      else S (uniformPasses n' (S attempt) C)
  end.

Fixpoint uniformWaits (n attempt : nat) (C : Retry.ErrorType) : list Q :=
  match n with
  | O => []
  | S n' =>
      if (attempt =? Retry.maxRetries) || negb (Retry.shouldRetry C attempt) then []
      else Retry.retryDelay C attempt :: uniformWaits n' (S attempt) C
  end.

Lemma retryLoop_uniform C n : forall attempt lastError done,
  (forall k, exists err, fst (Retry.tryBlock (env k)) = inr err /\ classify' err = C) ->
  Retry.attempts (loop' n attempt lastError done)
  = Retry.attempts done + uniformPasses n attempt C /\
  Retry.waits (loop' n attempt lastError done)
  = Retry.waits done ++ uniformWaits n attempt C.
Proof.
  induction n as [|n IH]; intros attempt lastError done Hall; simpl.
  - rewrite app_nil_r. split; [lia | reflexivity].
  - destruct (Hall attempt) as (err & Herr & Hcl).
    destruct (Retry.tryBlock (env attempt)) as [r called]. simpl in Herr. subst r.
    rewrite Hcl.
    destruct ((attempt =? Retry.maxRetries) || negb (Retry.shouldRetry C attempt)); simpl.
    + rewrite app_nil_r. split; [lia | reflexivity].
    + destruct (IH (S attempt) (Some err)
                  {| Retry.outcome := Retry.outcome done;
                     Retry.attempts := S (Retry.attempts done);
                     Retry.calls := Retry.calls done + Retry.count called;
                     Retry.waits := Retry.waits done ++ [Retry.retryDelay C attempt] |}
                  Hall) as [H1 H2].
      rewrite H1, H2. simpl. rewrite <- app_assoc. split; [lia | reflexivity].
Qed.

End RetryRuns.

(** X6. Every run of the wrapper makes at least one attempt and waits
    exactly once between one attempt and the next; all attempts but the last
    fail with an error whose class allows a retry at that attempt; and the
    wrapper returns the result of its last attempt, or throws its error. *)
Theorem retry_outcome_is_last_attempt :
  forall (toLowerCase : jsstring -> jsstring) (env : nat -> Retry.Attempt),
    let r := Retry.requestTranslationWithAdvancedRetry toLowerCase env in
    1 <= Retry.attempts r /\
    Retry.attempts r = length (Retry.waits r) + 1 /\
    (forall j, j < Retry.attempts r - 1 ->
       exists err, fst (Retry.tryBlock (env j)) = inr err /\
                   Retry.shouldRetry (Retry.classifyError toLowerCase err) j = true) /\
    match Retry.outcome r with
    | Retry.Returned tr => fst (Retry.tryBlock (env (Retry.attempts r - 1))) = inl tr
    | Retry.Thrown e => fst (Retry.tryBlock (env (Retry.attempts r - 1))) = inr e
    end.
Proof.
  intros toLowerCase env r. unfold r, Retry.requestTranslationWithAdvancedRetry.
  change (Retry.maxRetries + 1) with (S Retry.maxRetries).
  apply (retryLoop_run toLowerCase env Retry.maxRetries 0); try reflexivity.
  intros j Hj. lia.
Qed.

(** X7. When every attempt fails and every failure has one class, the class
    fixes the run: one attempt for context-invalid; two for unknown, with a
    wait of 1000 ms; three for quota, with waits of 2000 and 4000 ms, and
    for api, with waits of 1000 and 2000 ms; four for network, with waits of
    1500, 3000 and 6000 ms, and for timeout, with waits of 1000, 2000 and
    4000 ms. *)
Theorem retry_run_by_error_class :
  forall (toLowerCase : jsstring -> jsstring) (env : nat -> Retry.Attempt)
         (C : Retry.ErrorType),
    (forall k, exists err,
        fst (Retry.tryBlock (env k)) = inr err /\
        Retry.classifyError toLowerCase err = C) ->
    let r := Retry.requestTranslationWithAdvancedRetry toLowerCase env in
    Retry.attempts r
    = match C with
      | Retry.CONTEXT => 1
      | Retry.UNKNOWN => 2
      | Retry.API_QUOTA | Retry.API_ERROR => 3
      | Retry.NETWORK | Retry.TIMEOUT => 4
      end /\
    Retry.waits r
    = match C with
      | Retry.CONTEXT => []
      | Retry.UNKNOWN => [1000]
      | Retry.API_QUOTA => [2000; 4000]
      | Retry.API_ERROR => [1000; 2000]
      | Retry.NETWORK => [1500; 3000; 6000]
      | Retry.TIMEOUT => [1000; 2000; 4000]
      end%Q.
Proof.
  intros toLowerCase env C Hall r.
  unfold r, Retry.requestTranslationWithAdvancedRetry.
  destruct (retryLoop_uniform toLowerCase env C (Retry.maxRetries + 1) 0 None
              {| Retry.outcome := Retry.Thrown []; Retry.attempts := 0;
                 Retry.calls := 0; Retry.waits := [] |} Hall) as [H1 H2].
  rewrite H1, H2. destruct C; split; vm_compute; reflexivity.
Qed.

(** A backend whose quota is used up at every attempt. *)
Definition env_quota : nat -> Retry.Attempt :=
  fun _ => {| Retry.runtimeId := true; Retry.isTranslating := true;
              Retry.response := Retry.Rejected (lit "Quota exceeded") |}.

Lemma retry_run_by_error_class_witness :
  Retry.attempts
    (Retry.requestTranslationWithAdvancedRetry Retry.asciiLowerCase env_quota) = 3 /\
  Retry.waits
    (Retry.requestTranslationWithAdvancedRetry Retry.asciiLowerCase env_quota)
  = [2000; 4000]%Q.
Proof.
  apply (retry_run_by_error_class Retry.asciiLowerCase env_quota Retry.API_QUOTA).
  intros k. exists (lit "Quota exceeded"). split; reflexivity.
Defined.

(** X8. A wrapper that finds the translation cancelled at every attempt
    (and a lower-casing that leaves the message of the cancellation as it
    is, as that of JavaScript does) does not stop at once: the error it
    raises is classified as api, so that it makes three attempts, waiting
    1000 and 2000 ms, before it throws; it never calls
    [requestTranslation]. *)
Theorem retry_when_cancelled :
  forall (toLowerCase : jsstring -> jsstring) (env : nat -> Retry.Attempt),
    toLowerCase Retry.msg_cancelled = Retry.msg_cancelled ->
    (forall k, Retry.runtimeId (env k) = true /\ Retry.isTranslating (env k) = false) ->
    let r := Retry.requestTranslationWithAdvancedRetry toLowerCase env in
    Retry.classifyError toLowerCase Retry.msg_cancelled = Retry.API_ERROR /\
    Retry.attempts r = 3 /\ Retry.calls r = 0 /\
    Retry.waits r = [1000; 2000]%Q /\
    Retry.outcome r = Retry.Thrown Retry.msg_cancelled.
Proof.
  intros toLowerCase env Hlow Henv r.
  assert (Hcl : Retry.classifyError toLowerCase Retry.msg_cancelled = Retry.API_ERROR).
  { unfold Retry.classifyError. rewrite Hlow. vm_compute. reflexivity. }
  assert (Ht : forall k, Retry.tryBlock (env k) = (inr Retry.msg_cancelled, false)).
  { intros k. destruct (Henv k) as [H1 H2]. unfold Retry.tryBlock.
    now rewrite H1, H2. }
  split; [exact Hcl|].
  unfold r, Retry.requestTranslationWithAdvancedRetry.
  change (Retry.maxRetries + 1) with 4.
  cbn [Retry.retryLoop]. rewrite !Ht. cbv beta iota. rewrite !Hcl.
  vm_compute. auto.
Qed.

Definition env_cancelled : nat -> Retry.Attempt :=
  fun _ => {| Retry.runtimeId := true; Retry.isTranslating := false;
              Retry.response := Retry.Resolved None |}.

Lemma retry_when_cancelled_witness :
  Retry.attempts
    (Retry.requestTranslationWithAdvancedRetry Retry.asciiLowerCase env_cancelled) = 3 /\
  Retry.calls
    (Retry.requestTranslationWithAdvancedRetry Retry.asciiLowerCase env_cancelled) = 0.
Proof.
  destruct (retry_when_cancelled Retry.asciiLowerCase env_cancelled)
    as (_ & H1 & H2 & _).
  - reflexivity.
  - intros k. split; reflexivity.
  - split; assumption.
Defined.

Lemma retry_outcome_bound_helper toLowerCase env :
  let r := Retry.requestTranslationWithAdvancedRetry toLowerCase env in
  length (Retry.waits r) <= 3 /\
  forall j w, nth_error (Retry.waits r) j = Some w ->
              (w <= nth j [2000; 4000; 6000] 0)%Q.
Proof.
  intros r. unfold r, Retry.requestTranslationWithAdvancedRetry.
  destruct (retryLoop_waits_retried toLowerCase env (Retry.maxRetries + 1) 0 None
              {| Retry.outcome := Retry.Thrown []; Retry.attempts := 0;
                 Retry.calls := 0; Retry.waits := [] |}) as (ws & Hws & Hall).
  rewrite Hws. simpl app.
  assert (Hb : forall j w, nth_error ws j = Some w ->
                 j < 3 /\ (w <= nth j [2000; 4000; 6000] 0)%Q).
  { intros j w Hj. destruct (Hall j w Hj) as (C & -> & Hs). simpl in Hs.
    assert (Hlt : j < 3) by (apply shouldRetry_lt in Hs; exact Hs).
    split; [exact Hlt|].
    destruct j as [|[|[|j]]]; [| | |lia];
      destruct C; simpl in Hs; try discriminate; vm_compute; discriminate. }
  split.
  - destruct (Nat.le_gt_cases (length ws) 3) as [H|H]; [exact H|].
    destruct (nth_error ws 3) as [w|] eqn:E.
    + apply Hb in E. lia.
    + apply nth_error_None in E. lia.
  - intros j w Hj. now apply Hb.
Qed.

(** The sum of the delays. *)
Definition totalWait (ws : list Q) : Q := fold_right Qplus 0%Q ws.

(** X9. Whatever the attempts find, the wrapper waits at most 12000 ms in
    all: at most 2000 ms after the first attempt, 4000 ms after the second
    and 6000 ms after the third. *)
Theorem retry_total_wait_bounded :
  forall (toLowerCase : jsstring -> jsstring) (env : nat -> Retry.Attempt),
    let r := Retry.requestTranslationWithAdvancedRetry toLowerCase env in
    length (Retry.waits r) <= 3 /\
    (forall j w, nth_error (Retry.waits r) j = Some w ->
                 (w <= nth j [2000; 4000; 6000] 0)%Q) /\
    (totalWait (Retry.waits r) <= 12000)%Q.
Proof.
  intros toLowerCase env r.
  destruct (retry_outcome_bound_helper toLowerCase env) as (Hlen & Hall).
  fold r in Hlen, Hall.
  split; [exact Hlen|]. split; [exact Hall|].
  destruct (Retry.waits r) as [|a [|b [|c [|d ws]]]]; simpl in Hlen; try lia.
  - vm_compute. discriminate.
  - pose proof (Hall 0 a eq_refl) as Ha. simpl in Ha.
    unfold totalWait. simpl. unfold Qle in *. simpl in *. lia.
  - pose proof (Hall 0 a eq_refl) as Ha. pose proof (Hall 1 b eq_refl) as Hb.
    simpl in Ha, Hb. unfold totalWait. simpl.
    apply Qle_trans with (2000 + (4000 + 0))%Q; [|vm_compute; discriminate].
    apply Qplus_le_compat; [exact Ha|]. apply Qplus_le_compat; [exact Hb | apply Qle_refl].
  - pose proof (Hall 0 a eq_refl) as Ha. pose proof (Hall 1 b eq_refl) as Hb.
    pose proof (Hall 2 c eq_refl) as Hc.
    simpl in Ha, Hb, Hc. unfold totalWait. simpl.
    apply Qle_trans with (2000 + (4000 + (6000 + 0)))%Q; [|vm_compute; discriminate].
    apply Qplus_le_compat; [exact Ha|]. apply Qplus_le_compat; [exact Hb|].
    apply Qplus_le_compat; [exact Hc | apply Qle_refl].
Qed.

(** ** The request pool: order, accounting and progress *)

Section PoolQueue.

Variable TaskFn : Type.

Local Abbreviation pool' := (Pool.t TaskFn).

(** The thunks submitted by a sequence of events, in order. *)
Fixpoint submitted (evs : list (Pool.Event TaskFn)) : list TaskFn :=
  match evs with
  | [] => []
  | Pool.EvAddTask f _ :: rest => f :: submitted rest
  | _ :: rest => submitted rest
  end.

Lemma submitted_app evs1 evs2 :
  submitted (evs1 ++ evs2) = submitted evs1 ++ submitted evs2.
Proof.
  induction evs1 as [|e evs1 IH]; [reflexivity|].
  destruct e; simpl; now rewrite IH.
Qed.

(** The tasks counted by the pool: waiting, running, completed and failed. *)
Definition accounted (p : pool') : Z :=
  (Z.of_nat (length (Pool.queue p)) + Z.of_nat (length (Pool.running p))
   + Pool.completed p + Pool.failed p)%Z.

Lemma processQueue_accounted now (p : pool') :
  accounted (Pool.processQueue now p) = accounted p.
Proof.
  unfold Pool.processQueue.
  destruct (_ || _); [reflexivity|].
  destruct (Pool.queue p) as [|task rest] eqn:E; [reflexivity|].
  unfold accounted. rewrite E.
  cbn [Pool.queue Pool.running Pool.completed Pool.failed].
  rewrite length_app. cbn [length]. lia.
Qed.

(** An event that does not zero the counters or drop the queue. *)
Definition keeps_tasks (e : Pool.Event TaskFn) : Prop :=
  match e with
  | Pool.EvReset _ | Pool.EvClear _ => False
  | _ => True
  end.

Lemma step_accounted (p : pool') e :
  keeps_tasks e ->
  accounted (Pool.step p e)
  = (accounted p + Z.of_nat (length (submitted [e])))%Z.
Proof.
  destruct e; simpl; intros H; try contradiction.
  - unfold Pool.addTask. rewrite processQueue_accounted. unfold accounted. simpl.
    rewrite length_app. simpl. lia.
  - unfold Pool.settle. destruct (i <? length (Pool.running p)) eqn:E; [|lia].
    apply Nat.ltb_lt in E. unfold accounted. simpl.
    rewrite (length_remove_nth _ E). destruct ok; lia.
  - unfold Pool.timer. destruct (Pool.timers p); [lia|].
    rewrite processQueue_accounted. unfold accounted. simpl. lia.
  - unfold accounted. simpl. lia.
Qed.

Lemma run_accounted evs : forall (p : pool'),
  Forall keeps_tasks evs ->
  accounted (Pool.run p evs) = (accounted p + Z.of_nat (length (submitted evs)))%Z.
Proof.
  induction evs as [|e evs IH]; intros p H; simpl; [lia|].
  inversion H as [|? ? He Hevs]; subst.
  rewrite IH by assumption. rewrite (step_accounted p e He).
  destruct e; simpl; lia.
Qed.

(** The queue holds, in order, the thunks submitted last. *)
Definition queue_is_suffix (p : pool') (sub : list TaskFn) : Prop :=
  exists k, k <= length sub /\
            map (@Pool.taskFn TaskFn) (Pool.queue p) = skipn k sub.

Lemma skipn_tail (A : Type) k (l : list A) a r :
  skipn k l = a :: r -> skipn (S k) l = r /\ S k <= length l.
Proof.
  revert l; induction k as [|k IH]; intros l H.
  - simpl in H. subst l. simpl. split; [reflexivity | lia].
  - destruct l as [|x l]; [discriminate|]. simpl in H.
    destruct (IH l H) as [H1 H2]. split; [exact H1 | simpl; lia].
Qed.

Lemma processQueue_suffix now (p : pool') sub :
  queue_is_suffix p sub -> queue_is_suffix (Pool.processQueue now p) sub.
Proof.
  intros (k & Hk & Hq). unfold Pool.processQueue.
  destruct (_ || _); [exists k; auto|].
  destruct (Pool.queue p) as [|task rest] eqn:E; [exists k; rewrite E; auto|].
  simpl in Hq. symmetry in Hq. apply skipn_tail in Hq as [H1 H2].
  exists (S k). simpl. auto.
Qed.

Lemma step_suffix (p : pool') e sub :
  queue_is_suffix p sub -> queue_is_suffix (Pool.step p e) (sub ++ submitted [e]).
Proof.
  intros H. destruct e; simpl; rewrite ?app_nil_r.
  - apply processQueue_suffix. destruct H as (k & Hk & Hq).
    exists k. simpl. rewrite length_app, map_app, Hq, skipn_app. simpl.
    replace (k - length sub) with 0 by lia. split; [lia | reflexivity].
  - unfold Pool.settle. destruct (_ <? _); exact H.
  - unfold Pool.timer. destruct (Pool.timers p); [exact H|].
    apply processQueue_suffix. exact H.
  - exact H.
  - exists (length sub). simpl. split; [lia|]. now rewrite skipn_all.
  - exact H.
Qed.

Lemma run_suffix evs : forall (p : pool') sub,
  queue_is_suffix p sub -> queue_is_suffix (Pool.run p evs) (sub ++ submitted evs).
Proof.
  induction evs as [|e evs IH]; intros p sub H.
  - simpl. now rewrite app_nil_r.
  - replace (sub ++ submitted (e :: evs)) with ((sub ++ submitted [e]) ++ submitted evs).
    + apply (IH (Pool.step p e)). now apply step_suffix.
    + rewrite <- app_assoc. f_equal. destruct e; reflexivity.
Qed.

(** When a task waits, every free place has a timer pending that will
    fill it. *)
Definition free_places_have_timers (p : pool') : Prop :=
  Pool.queue p = [] \/
  (Pool.maxConcurrency p - Pool.activeRequests p <= Z.of_nat (Pool.timers p))%Z.

Lemma processQueue_timers now (p : pool') :
  Pool.timers (Pool.processQueue now p) = Pool.timers p.
Proof.
  unfold Pool.processQueue. destruct (_ || _); [reflexivity|].
  destruct (Pool.queue p); reflexivity.
Qed.

Lemma processQueue_free now (p : pool') :
  free_places_have_timers p \/
  (Pool.maxConcurrency p - Pool.activeRequests p <= Z.of_nat (Pool.timers p) + 1)%Z ->
  free_places_have_timers (Pool.processQueue now p).
Proof.
  unfold free_places_have_timers, Pool.processQueue. intros H.
  destruct (Pool.maxConcurrency p <=? Pool.activeRequests p)%Z eqn:E1; simpl.
  - apply Z.leb_le in E1. right. lia.
  - destruct (length (Pool.queue p) =? 0) eqn:E2; simpl.
    + left. destruct (Pool.queue p); [reflexivity | discriminate].
    + destruct (Pool.queue p) as [|task rest] eqn:Eq; [discriminate|]. simpl.
      right. destruct H as [[H|H]|H]; [discriminate | lia | lia].
Qed.

Lemma step_free (p : pool') e :
  free_places_have_timers p -> free_places_have_timers (Pool.step p e).
Proof.
  intros H. destruct e; simpl.
  - unfold Pool.addTask.
    destruct H as [H|H].
    + (* the queue was empty: the new task starts at once, or no place is free *)
      unfold free_places_have_timers, Pool.processQueue. simpl. rewrite H. simpl.
      destruct (Pool.maxConcurrency p <=? Pool.activeRequests p)%Z eqn:E1; simpl.
      * apply Z.leb_le in E1. right. lia.
      * now left.
    + apply processQueue_free. left. right. exact H.
  - unfold Pool.settle. destruct (_ <? _); [|exact H].
    destruct H as [H|H]; [left; exact H | right; simpl; lia].
  - unfold Pool.timer. destruct (Pool.timers p) as [|n] eqn:Et; [exact H|].
    apply processQueue_free. simpl. destruct H as [H|H]; [left; left; exact H|].
    right. lia.
  - exact H.
  - left. reflexivity.
  - exact H.
Qed.

Lemma run_free evs : forall (p : pool'),
  free_places_have_timers p -> free_places_have_timers (Pool.run p evs).
Proof.
  induction evs as [|e evs IH]; intros p H; simpl; [exact H|].
  apply IH. now apply step_free.
Qed.

End PoolQueue.

(** X10. In a pool that is not reset or cleared, no task is lost or
    counted twice: after any events, the tasks waiting, the active tasks and
    the tasks counted as completed or failed are together the tasks that
    were submitted. *)
Theorem pool_accounts_for_every_task :
  forall (TaskFn : Type) (maxC delay : Z) (evs : list (Pool.Event TaskFn)),
    (0 <= maxC)%Z ->
    Forall (keeps_tasks TaskFn) evs ->
    let p := Pool.run (Pool.constructor TaskFn maxC delay) evs in
    (Z.of_nat (length (Pool.queue p)) + Pool.activeRequests p
     + Pool.completed p + Pool.failed p
     = Z.of_nat (length (submitted TaskFn evs)))%Z.
Proof.
  intros TaskFn maxC delay evs Hpos Hevs p.
  pose proof (run_accounted TaskFn evs (Pool.constructor TaskFn maxC delay) Hevs) as H.
  fold p in H. unfold accounted in H. simpl in H.
  assert (H0 : pool_inv (Pool.constructor TaskFn maxC delay)).
  { unfold pool_inv; simpl. split; [reflexivity | exact Hpos]. }
  destruct (@run_inv TaskFn evs _ H0) as [[Hc _] _]. fold p in Hc.
  rewrite Hc. lia.
Qed.

Lemma pool_accounts_for_every_task_witness :
  let p := Pool.run (Pool.constructor nat 2 100)
             [Pool.EvAddTask 10 0%Z; Pool.EvAddTask 11 0%Z; Pool.EvAddTask 12 0%Z;
              Pool.EvSettle nat 0 true; Pool.EvTimer nat 20%Z; Pool.EvSettle nat 1 false] in
  (Z.of_nat (length (Pool.queue p)) + Pool.activeRequests p
   + Pool.completed p + Pool.failed p = 3)%Z.
Proof.
  apply (pool_accounts_for_every_task nat 2 100
           [Pool.EvAddTask 10 0%Z; Pool.EvAddTask 11 0%Z; Pool.EvAddTask 12 0%Z;
            Pool.EvSettle nat 0 true; Pool.EvTimer nat 20%Z; Pool.EvSettle nat 1 false]).
  - lia.
  - repeat constructor.
Defined.

(** X11. Tasks leave the queue in the order in which they were submitted:
    after any events, also resets and clears, the queue holds, in order, the
    thunks submitted last. *)
Theorem pool_queue_is_fifo :
  forall (TaskFn : Type) (maxC delay : Z) (evs : list (Pool.Event TaskFn)),
    let p := Pool.run (Pool.constructor TaskFn maxC delay) evs in
    exists k, k <= length (submitted TaskFn evs) /\
              map (@Pool.taskFn TaskFn) (Pool.queue p)
              = skipn k (submitted TaskFn evs).
Proof.
  intros TaskFn maxC delay evs p.
  apply (run_suffix TaskFn evs (Pool.constructor TaskFn maxC delay) []).
  exists 0. simpl. auto.
Qed.

(** X12. A pool with a fixed limit does not stall: after any events, when a
    task waits and fewer tasks are active than the limit allows, a timer is
    pending, and when it fires the task at the head of the queue starts. *)
Theorem pool_free_place_is_filled :
  forall (TaskFn : Type) (maxC delay : Z) (evs : list (Pool.Event TaskFn))
         (task : Pool.Task TaskFn) (rest : list (Pool.Task TaskFn)),
    let p := Pool.run (Pool.constructor TaskFn maxC delay) evs in
    Pool.queue p = task :: rest ->
    (Pool.activeRequests p < Pool.maxConcurrency p)%Z ->
    0 < Pool.timers p /\
    forall now,
      Pool.running (Pool.step p (Pool.EvTimer TaskFn now)) = Pool.running p ++ [task] /\
      Pool.queue (Pool.step p (Pool.EvTimer TaskFn now)) = rest.
Proof.
  intros TaskFn maxC delay evs task rest p Hq Hlt.
  assert (H : free_places_have_timers TaskFn p).
  { apply run_free. left. reflexivity. }
  destruct H as [H|H]; [congruence|].
  assert (Ht : 0 < Pool.timers p) by lia.
  split; [exact Ht|]. intros now. simpl. unfold Pool.timer.
  destruct (Pool.timers p) as [|n]; [lia|].
  unfold Pool.processQueue. simpl. rewrite Hq. simpl.
  apply Z.leb_gt in Hlt. rewrite Hlt. simpl. auto.
Qed.

Lemma pool_free_place_is_filled_witness :
  let p := Pool.run (Pool.constructor nat 1 100)
             [Pool.EvAddTask 10 0%Z; Pool.EvAddTask 11 0%Z; Pool.EvSettle nat 0 true] in
  0 < Pool.timers p.
Proof.
  intros p.
  destruct (pool_free_place_is_filled nat 1 100
              [Pool.EvAddTask 10 0%Z; Pool.EvAddTask 11 0%Z; Pool.EvSettle nat 0 true]
              (Pool.mkTask 11 0%Z) []) as [H _].
  - reflexivity.
  - vm_compute. reflexivity.
  - exact H.
Defined.

(** ** The request pool when the limit is changed *)

Section PoolLimit.

Variable TaskFn : Type.

(** The counter counts the running tasks and is at most 10, as is the
    limit. *)
Definition within_ten (p : Pool.t TaskFn) : Prop :=
  Pool.activeRequests p = Z.of_nat (length (Pool.running p)) /\
  (Pool.activeRequests p <= 10)%Z /\ (Pool.maxConcurrency p <= 10)%Z.

Lemma processQueue_within_ten now (p : Pool.t TaskFn) :
  within_ten p -> within_ten (Pool.processQueue now p).
Proof.
  unfold within_ten, Pool.processQueue. intros (Hc & Ha & Hm).
  destruct (Pool.maxConcurrency p <=? Pool.activeRequests p)%Z eqn:E; simpl; [auto|].
  destruct (length (Pool.queue p) =? 0); simpl; [auto|].
  destruct (Pool.queue p); simpl; [auto|].
  apply Z.leb_gt in E. rewrite length_app. simpl. repeat split; lia.
Qed.

Lemma control_step_within_ten (p : Pool.t TaskFn) e :
  within_ten p -> within_ten (PoolControl.step p e).
Proof.
  intros H. destruct e as [e|n now]; simpl.
  - destruct e; simpl.
    + apply processQueue_within_ten. exact H.
    + unfold Pool.settle. destruct (i <? _) eqn:E; [|exact H].
      apply Nat.ltb_lt in E. destruct H as (Hc & Ha & Hm). unfold within_ten. simpl.
      rewrite (length_remove_nth _ E). repeat split; lia.
    + unfold Pool.timer. destruct (Pool.timers p); [exact H|].
      apply processQueue_within_ten. exact H.
    + exact H.
    + exact H.
    + exact H.
  - unfold Pool.setConcurrency. apply processQueue_within_ten.
    destruct H as (Hc & Ha & Hm). unfold within_ten. simpl. repeat split; lia.
Qed.

Lemma control_run_within_ten evs : forall (p : Pool.t TaskFn),
  within_ten p -> within_ten (PoolControl.run p evs).
Proof.
  induction evs as [|e evs IH]; intros p H; simpl; [exact H|].
  apply IH. now apply control_step_within_ten.
Qed.

End PoolLimit.

(** X13. Whatever limits [setConcurrency] is called with while tasks are
    submitted, run and settle, a pool created with a limit of at most 10
    never has more than 10 active tasks; its limit stays at most 10, and is
    between 1 and 10 right after every call of [setConcurrency]. *)
Theorem pool_never_above_ten :
  forall (TaskFn : Type) (maxC delay : Z) (evs : list (PoolControl.Event TaskFn)),
    (0 <= maxC <= 10)%Z ->
    let p := PoolControl.run (Pool.constructor TaskFn maxC delay) evs in
    (0 <= Pool.activeRequests p <= 10)%Z /\
    (Pool.maxConcurrency p <= 10)%Z /\
    forall n now,
      (1 <= Pool.maxConcurrency
              (PoolControl.step p (PoolControl.EvSetConcurrency TaskFn n now))
       <= 10)%Z.
Proof.
  intros TaskFn maxC delay evs Hm p.
  assert (H : within_ten TaskFn p).
  { apply control_run_within_ten. unfold within_ten. simpl. repeat split; lia. }
  destruct H as (Hc & Ha & Hl). split; [lia|]. split; [exact Hl|].
  intros n now. simpl. unfold Pool.setConcurrency.
  rewrite processQueue_limit. simpl. lia.
Qed.

Lemma pool_never_above_ten_witness :
  let p := PoolControl.run (Pool.constructor nat 5 100)
             (PoolControl.EvSetConcurrency nat 50 0%Z
              :: map (fun i => PoolControl.Ev (Pool.EvAddTask i 0%Z)) (seq 0 12)) in
  (0 <= Pool.activeRequests p <= 10)%Z.
Proof.
  intros p.
  destruct (pool_never_above_ten nat 5 100
              (PoolControl.EvSetConcurrency nat 50 0%Z
               :: map (fun i => PoolControl.Ev (Pool.EvAddTask i 0%Z)) (seq 0 12)))
    as [H _]; [lia | exact H].
Defined.

(** ** The segment builder: what merging does to the groups *)

(** The groups a segment stands for: the [originalGroups] of a [merged]
    segment, the segment itself otherwise. *)
Definition members (s : Seg.Segment) : list Seg.Segment :=
  match s with
  | Seg.Merged _ _ originalGroups => originalGroups
  | _ => [s]
  end.

(** The lengths of the texts of the groups, added up. *)
Definition sumLengths (gs : list Seg.Segment) : nat :=
  list_sum (map (fun g => length (Seg.text g)) gs).

Definition short (g : Seg.Segment) : Prop :=
  length (Seg.text g) < Seg.minSegmentLength.

(** What held of a batch each time a group was let in: the groups are
    short, and those before the last had less than [maxBatchLength] units
    of text together. *)
Definition batch_ok (b : list Seg.Segment) : Prop :=
  Forall short b /\ sumLengths (removelast b) < Seg.maxBatchLength.

Lemma sumLengths_app a b : sumLengths (a ++ b) = sumLengths a + sumLengths b.
Proof. unfold sumLengths. now rewrite map_app, list_sum_app. Qed.

Lemma merge_fold_shape l : forall merged batch,
  batch_ok batch ->
  exists batches batch',
    fold_left Seg.mergeStep l (merged, batch, sumLengths batch)
    = (merged ++ map pack batches, batch', sumLengths batch') /\
    concat batches ++ batch' = batch ++ l /\
    Forall (fun b => b <> []) batches /\
    Forall (fun b => 2 <= length b -> batch_ok b) batches /\
    batch_ok batch'.
Proof.
  induction l as [|g l IH]; intros merged batch Hok.
  - exists [], batch. simpl. rewrite !app_nil_r. repeat split; auto; apply Hok.
  - cbn [fold_left]. unfold Seg.mergeStep at 2.
    destruct ((length (Seg.text g) <? Seg.minSegmentLength)
              && (sumLengths batch <? Seg.maxBatchLength)) eqn:E.
    + apply andb_true_iff in E as [E1 E2].
      apply Nat.ltb_lt in E1. apply Nat.ltb_lt in E2.
      assert (Hok' : batch_ok (batch ++ [g])).
      { split.
        - apply Forall_app. split; [apply Hok | constructor; [exact E1 | constructor]].
        - rewrite removelast_last. exact E2. }
      destruct (IH merged (batch ++ [g]) Hok')
        as (batches & batch' & Hf & Hc & Hne & Hoks & Hokl).
      exists batches, batch'. split; [|split; [|auto]].
      * rewrite <- Hf. f_equal. f_equal. rewrite sumLengths_app. unfold sumLengths. simpl. lia.
      * rewrite Hc, <- app_assoc. reflexivity.
    + rewrite flushBatch_pack.
      assert (Hnil : batch_ok []).
      { split; [constructor|]. unfold Seg.maxBatchLength, sumLengths. simpl. lia. }
      destruct (IH ((merged ++ map pack (match batch with
                                         | [] => []
                                         | _ :: _ => [batch]
                                         end)) ++ [g]) [] Hnil)
        as (batches & batch' & Hf & Hc & Hne & Hoks & Hokl).
      exists ((match batch with [] => [] | _ :: _ => [batch] end) ++ [g] :: batches),
        batch'.
      split; [|split; [|split; [|split]]].
      * change (sumLengths []) with 0 in Hf. rewrite Hf.
        rewrite map_app. simpl. rewrite <- !app_assoc. reflexivity.
      * rewrite concat_app. simpl. rewrite <- !app_assoc. simpl in Hc.
        rewrite <- app_comm_cons, Hc.
        destruct batch; simpl; [reflexivity|]. now rewrite app_nil_r.
      * apply Forall_app. split.
        -- destruct batch; constructor; [discriminate | constructor].
        -- constructor; [discriminate | exact Hne].
      * apply Forall_app. split.
        -- destruct batch; constructor; [intros _; exact Hok | constructor].
        -- constructor; [simpl; lia | exact Hoks].
      * exact Hokl.
Qed.

(** [mergeShortTextSegments] cuts the groups into batches of neighbours; a
    batch of several groups was filled one short group at a time. *)
Lemma merge_shape groups :
  exists batches,
    Seg.mergeShortTextSegments groups = map pack batches /\
    concat batches = groups /\
    Forall (fun b => b <> []) batches /\
    Forall (fun b => 2 <= length b -> batch_ok b) batches.
Proof.
  unfold Seg.mergeShortTextSegments.
  assert (Hnil : batch_ok []).
  { split; [constructor|]. unfold Seg.maxBatchLength, sumLengths. simpl. lia. }
  destruct (merge_fold_shape groups [] [] Hnil)
    as (batches & batch' & Hf & Hc & Hne & Hoks & Hokl).
  change (sumLengths []) with 0 in Hf. rewrite Hf, flushBatch_pack.
  simpl app. simpl in Hc.
  exists (batches ++ match batch' with [] => [] | _ :: _ => [batch'] end).
  split; [now rewrite map_app|]. split; [|split].
  - rewrite concat_app, <- Hc. destruct batch'; simpl; now rewrite ?app_nil_r.
  - apply Forall_app. split; [exact Hne|].
    destruct batch'; constructor; [discriminate | constructor].
  - apply Forall_app. split; [exact Hoks|].
    destruct batch'; constructor; [intros _; exact Hokl | constructor].
Qed.

Lemma members_pack b :
  b <> [] -> Forall plain b -> members (pack b) = b.
Proof.
  destruct b as [|g [|g' b]]; intros Hne Hp; [congruence | | reflexivity].
  inversion Hp as [|? ? Hg _]; subst. destruct g; simpl in *; try contradiction; reflexivity.
Qed.

Lemma sumLengths_removelast b :
  b <> [] ->
  sumLengths b = sumLengths (removelast b) + length (Seg.text (last b (pack []))).
Proof.
  intros Hne. rewrite (app_removelast_last (pack []) Hne) at 1.
  rewrite sumLengths_app. unfold sumLengths at 2. simpl. lia.
Qed.

Lemma batch_cases (b : list Seg.Segment) :
  b = [] \/ (exists g, b = [g]) \/ 2 <= length b.
Proof.
  destruct b as [|g [|g' r]]; [auto | right; left; eauto | right; right; simpl; lia].
Qed.

Lemma pack_several b :
  2 <= length b ->
  pack b = Seg.Merged (flat_map Seg.elements b) (join Seg.blankLine (map Seg.text b)) b.
Proof. destruct b as [|g [|g' r]]; simpl; intros H; try lia; reflexivity. Qed.

(** Sample nodes: two with a few units of text, one with 80. *)
Definition short_node_a : Seg.Element :=
  {| Seg.eid := 11; Seg.textContent := lit "one";
     Seg.depth := 3; Seg.container := 1 |}.
Definition short_node_b : Seg.Element :=
  {| Seg.eid := 12; Seg.textContent := lit "two";
     Seg.depth := 3; Seg.container := 2 |}.
Definition wide_node : Seg.Element :=
  {| Seg.eid := 13; Seg.textContent := repeat 97%N 80;
     Seg.depth := 3; Seg.container := 1 |}.

(** X14. Merging neither drops, repeats nor reorders a group: the groups that
    the segments of [mergeShortTextSegments] stand for, read in order, are
    the groups it was given. *)
Theorem merge_keeps_every_group :
  forall groups : list Seg.Segment,
    Forall plain groups ->
    flat_map members (Seg.mergeShortTextSegments groups) = groups /\
    flat_map Seg.elements (Seg.mergeShortTextSegments groups)
    = flat_map Seg.elements groups.
Proof.
  intros groups Hp.
  destruct (merge_result groups) as (batches & Hm & Hc & Hne).
  rewrite Hm. subst groups. clear Hm.
  induction batches as [|b batches IH]; [split; reflexivity|].
  inversion Hne as [|? ? Hb Hne']; subst.
  simpl concat in Hp. apply Forall_app in Hp as [Hpb Hp'].
  destruct (IH Hp' Hne') as [IH1 IH2].
  cbn [map flat_map concat]. rewrite IH1, IH2, (members_pack b Hb Hpb), elements_pack.
  split; [reflexivity|]. now rewrite flat_map_app.
Qed.

Lemma merge_keeps_every_group_witness :
  let groups := [Seg.Single [short_node_a] (lit "one") 1;
                 Seg.Single [short_node_b] (lit "two") 2;
                 Seg.Single [wide_node] (Seg.textContent wide_node) 1] in
  flat_map members (Seg.mergeShortTextSegments groups) = groups.
Proof.
  intros groups.
  destruct (merge_keeps_every_group groups) as [H _]; [|exact H].
  repeat constructor.
Defined.

(** X15. A [merged] segment is made of at least two neighbouring groups, each
    with a text of fewer than 50 units; the groups before its last have
    fewer than 500 units together, so that all have at most 548; its nodes
    are their nodes in order and its text their texts joined by blank lines.
    Every other segment of the result is one of the groups, and a group with
    50 units of text or more is in the result as it is. *)
Theorem merged_segments_are_short_neighbours :
  forall groups : list Seg.Segment,
    Forall plain groups ->
    Forall (fun s =>
              match s with
              | Seg.Merged els txt gs =>
                  2 <= length gs /\
                  Forall (fun g => length (Seg.text g) < 50) gs /\
                  sumLengths (removelast gs) < 500 /\
                  sumLengths gs <= 548 /\
                  els = flat_map Seg.elements gs /\
                  txt = join Seg.blankLine (map Seg.text gs)
              | _ => In s groups
              end) (Seg.mergeShortTextSegments groups) /\
    forall g, In g groups -> 50 <= length (Seg.text g) ->
              In g (Seg.mergeShortTextSegments groups).
Proof.
  intros groups Hp.
  destruct (merge_shape groups) as (batches & Hm & Hc & Hne & Hoks).
  rewrite Hm. rewrite Forall_forall in Hne, Hoks, Hp. split.
  - apply Forall_forall. intros s Hs. apply in_map_iff in Hs as (b & <- & Hb).
    destruct (batch_cases b) as [->|[(g & ->)|Hlen]].
    + now specialize (Hne _ Hb).
    + assert (Hg : In g groups).
      { rewrite <- Hc. apply in_concat. exists [g]. split; [exact Hb | now left]. }
      specialize (Hp g Hg). simpl.
      destruct g; simpl in Hp; try contradiction; exact Hg.
    + destruct (Hoks _ Hb Hlen) as [Hshort Hsum].
      rewrite (pack_several b Hlen).
      unfold Seg.maxBatchLength in Hsum.
      split; [exact Hlen|]. split; [exact Hshort|]. split; [exact Hsum|].
      split; [|split; reflexivity].
      assert (Hb0 : b <> []) by (intros ->; simpl in Hlen; lia).
      rewrite (sumLengths_removelast b Hb0).
      assert (Hl : short (last b (pack []))).
      { rewrite Forall_forall in Hshort. apply Hshort.
        rewrite (app_removelast_last (pack []) Hb0) at 2.
        apply in_or_app. right. now left. }
      unfold short, Seg.minSegmentLength in Hl. lia.
  - intros g Hg Hlong. rewrite <- Hc in Hg.
    apply in_concat in Hg as (b & Hb & Hgb).
    destruct (batch_cases b) as [->|[(x & ->)|Hlen]].
    + destruct Hgb.
    + destruct Hgb as [->|[]]. apply in_map_iff. exists [g]. auto.
    + exfalso.
      destruct (Hoks _ Hb Hlen) as [Hshort _].
      rewrite Forall_forall in Hshort. specialize (Hshort g Hgb).
      unfold short, Seg.minSegmentLength in Hshort. lia.
Qed.

Lemma merged_segments_are_short_neighbours_witness :
  let groups := [Seg.Single [short_node_a] (lit "one") 1;
                 Seg.Single [short_node_b] (lit "two") 2;
                 Seg.Single [wide_node] (Seg.textContent wide_node) 1] in
  In (Seg.Single [wide_node] (Seg.textContent wide_node) 1)
     (Seg.mergeShortTextSegments groups).
Proof.
  intros groups.
  destruct (merged_segments_are_short_neighbours groups) as [_ H].
  - repeat constructor.
  - apply H.
    + simpl. auto.
    + apply Nat.leb_le. vm_compute. reflexivity.
Defined.

(** X16. Segments whose texts have at most 1000 units pass
    [splitLongTextSegments] as they are. *)
Theorem short_segments_pass_unsplit :
  forall groups : list Seg.Segment,
    Forall (fun g => length (Seg.text g) <= 1000) groups ->
    Seg.splitLongTextSegments groups = groups.
Proof.
  intros groups H. unfold Seg.splitLongTextSegments.
  change groups with ([] ++ groups) at 2. generalize (@nil Seg.Segment) as result0.
  induction H as [|g groups Hg _ IH]; intros result0; simpl; [now rewrite app_nil_r|].
  rewrite (splitGroupStep_short result0 g Hg), IH, <- app_assoc. reflexivity.
Qed.

Lemma short_segments_pass_unsplit_witness :
  Seg.splitLongTextSegments
    [Seg.Single [short_node_a] (lit "one") 1; Seg.Single [short_node_b] (lit "two") 2]
  = [Seg.Single [short_node_a] (lit "one") 1; Seg.Single [short_node_b] (lit "two") 2].
Proof.
  apply (short_segments_pass_unsplit
           [Seg.Single [short_node_a] (lit "one") 1;
            Seg.Single [short_node_b] (lit "two") 2]).
  repeat constructor; simpl; lia.
Defined.

(** ** The segment builder: the groups of the grouping step *)

Section GroupShape.

Variable toLowerCase : jsstring -> jsstring.
Variable visualNear : Seg.Element -> Seg.Element -> bool.
Variable all : list Seg.Element.

(** What a group of [groupElementsByContainer] looks like. *)
Definition group_shape (g : Seg.Segment) : Prop :=
  match g with
  | Seg.Single els t c =>
      exists e, els = [e] /\ In e all /\
                t = trim (Seg.textContent e) /\ t <> [] /\ c = Seg.container e
  | Seg.Grouped els t c =>
      2 <= length els /\
      t = join Seg.blankLine
            (filter (fun t => 0 <? length t)
               (map (fun el => trim (Seg.textContent el)) els)) /\
      t <> [] /\
      exists seed, In seed els /\ c = Seg.container seed /\
                   forall el, In el els ->
                              In el all /\ Seg.container el = c /\
                              Seg.areElementsRelated toLowerCase visualNear seed el = true
  | _ => False
  end.

Lemma groupStep_shape st element :
  In element all ->
  Forall group_shape (fst st) ->
  Forall group_shape (fst (Seg.groupStep toLowerCase visualNear all st element)).
Proof.
  destruct st as [groups visited]. intros Hall Hinv. unfold Seg.groupStep.
  destruct (Seg.has visited element) eqn:Hvis; [exact Hinv|].
  set (related := filter _ all).
  assert (Hr : In element related).
  { apply filter_In. split; [exact Hall|].
    rewrite Hvis, Nat.eqb_refl, areElementsRelated_refl. reflexivity. }
  destruct (1 <? length related) eqn:Hlen.
  - destruct (0 <? length (join _ _)) eqn:Hj; [|exact Hinv].
    cbn [fst]. apply Forall_app. split; [exact Hinv|]. constructor; [|constructor].
    apply Nat.ltb_lt in Hlen. apply Nat.ltb_lt in Hj.
    split; [lia|]. split; [reflexivity|]. split.
    + intros E. rewrite E in Hj. simpl in Hj. lia.
    + exists element. split; [exact Hr|]. split; [reflexivity|].
      intros el Hel. apply filter_In in Hel as [Hin Hel].
      apply andb_true_iff in Hel as [Hel Hrel]. apply andb_true_iff in Hel as [_ Hc].
      apply Nat.eqb_eq in Hc. auto.
  - simpl negb. cbv iota.
    destruct (0 <? length (trim (Seg.textContent element))) eqn:Ht; [|exact Hinv].
    cbn [fst]. apply Forall_app. split; [exact Hinv|]. constructor; [|constructor].
    exists element. repeat split; auto.
    apply Nat.ltb_lt in Ht. intros E. rewrite E in Ht. simpl in Ht. lia.
Qed.

Lemma group_fold_shape l : forall st,
  incl l all -> Forall group_shape (fst st) ->
  Forall group_shape (fst (fold_left (Seg.groupStep toLowerCase visualNear all) l st)).
Proof.
  induction l as [|x l IH]; intros st Hincl Hinv; simpl; [exact Hinv|].
  apply IH.
  - intros e He. apply Hincl. now right.
  - apply groupStep_shape; [apply Hincl; now left | exact Hinv].
Qed.

End GroupShape.

(** X17. Every group of [groupElementsByContainer] is of type [single] or
    [grouped] and has a text that is not empty.  A [single] group has one
    input node, its trimmed text and its container.  A [grouped] group has
    at least two nodes, all input nodes of one container and all related
    to one node of the group, whose container the group carries; its text
    is the trimmed texts of its nodes that are not empty, joined by blank
    lines. *)
Theorem groups_are_well_formed :
  forall (toLowerCase : jsstring -> jsstring)
         (visualNear : Seg.Element -> Seg.Element -> bool)
         (all : list Seg.Element),
    Forall (group_shape toLowerCase visualNear all)
      (Seg.groupElementsByContainer toLowerCase visualNear all).
Proof.
  intros toLowerCase visualNear all. unfold Seg.groupElementsByContainer.
  apply group_fold_shape; [apply incl_refl | constructor].
Qed.

(** ** Reassembly: where a translation is cut *)

(** X18. For a target that is not negative, the cut point is an index of the
    text or its length, so that the part cut off has exactly that many
    units; it is the length when the target reaches it, and otherwise is no
    further from the target than [min(50, length / 10) + 1]. *)
Theorem cut_point_within_text :
  forall (text : jsstring) (targetLength : Z),
    (0 <= targetLength)%Z ->
    let len := Z.of_nat (length text) in
    let cut := Reassembly.findSuitableCutPoint text targetLength in
    (0 <= cut <= len)%Z /\
    Z.of_nat (length (substring text 0 cut)) = cut /\
    ((len <= targetLength)%Z -> cut = len) /\
    ((targetLength < len)%Z ->
     (Z.abs (cut - targetLength) <= Z.min 50 (len / 10) + 1)%Z).
Proof.
  intros text targetLength Hpos len cut.
  assert (Hr : (0 <= Z.min 50 (len / 10))%Z).
  { apply Z.min_glb; [lia|]. apply Z.div_pos; unfold len; lia. }
  assert (Hb : (0 <= cut <= len)%Z /\
               ((targetLength < len)%Z ->
                (Z.abs (cut - targetLength) <= Z.min 50 (len / 10) + 1)%Z)).
  { destruct (Z.le_gt_cases len targetLength) as [Hle|Hlt].
    - unfold cut. rewrite (findSuitableCutPoint_beyond text targetLength Hle).
      fold len. split; lia.
    - pose proof (findSuitableCutPoint_spec text targetLength Hlt) as Hs.
      fold cut in Hs. unfold cutPointSpec, nearest, inWindow in Hs. fold len in Hs.
      cbv zeta in Hs. revert Hs Hr. generalize (Z.min 50 (len / 10)) as r.
      intros r Hs Hr.
      destruct Hs as [(i & [[(c & Hc & _) Hw] _] & ->)
                     |[(_ & i & [[Hsp Hw] _] & ->)|(_ & ->)]].
      + apply charAt_Some_range in Hc. fold len in Hc. split; lia.
      + assert (Hc : (0 <= i <= len - 1)%Z).
        { destruct Hsp as [Hsp|Hsp]; apply charAt_Some_range in Hsp; exact Hsp. }
        split; lia.
      + split; lia. }
  destruct Hb as [Hb1 Hb2]. split; [exact Hb1|]. split; [|split].
  - unfold substring, clamp. simpl Z.to_nat. rewrite Nat.min_0_l. simpl Nat.min.
    rewrite Nat.max_0_l, Nat.sub_0_r. simpl skipn. rewrite length_firstn.
    unfold len in Hb1. lia.
  - apply findSuitableCutPoint_beyond.
  - exact Hb2.
Qed.

Lemma cut_point_within_text_witness :
  (0 <= Reassembly.findSuitableCutPoint (lit "Hello there. More to say here") 10
   <= 30)%Z.
Proof.
  destruct (cut_point_within_text (lit "Hello there. More to say here") 10) as [H _].
  - lia.
  - exact H.
Defined.

(** ** The dispatch of [translatePage] *)

(** A pool with nothing waiting and nothing running. *)
Definition idle (p : Pool.t nat) : Prop :=
  Pool.queue p = [] /\ Pool.running p = [] /\ Pool.activeRequests p = 0%Z.

(** After [k] tasks were submitted in one go to an idle pool with limit
    [limit]: the first [limit] run, the others wait, in order. *)
Definition submitted_in_order (limit k : nat) (p : Pool.t nat) : Prop :=
  map (@Pool.taskFn nat) (Pool.running p) = seq 0 (Nat.min k limit) /\
  map (@Pool.taskFn nat) (Pool.queue p) = seq (Nat.min k limit) (k - limit) /\
  Pool.activeRequests p = Z.of_nat (Nat.min k limit) /\
  Pool.maxConcurrency p = Z.of_nat limit.

Lemma addTask_in_order limit k now (p : Pool.t nat) :
  submitted_in_order limit k p ->
  submitted_in_order limit (S k) (Pool.addTask k now p).
Proof.
  intros (Hr & Hq & Ha & Hm). unfold Pool.addTask, Pool.processQueue.
  cbn [Pool.maxConcurrency Pool.activeRequests Pool.queue Pool.running].
  rewrite Hm, Ha, length_app. cbn [length].
  replace (length (Pool.queue p) + 1 =? 0) with false
    by (symmetry; apply Nat.eqb_neq; lia).
  rewrite orb_false_r.
  destruct (Z.of_nat limit <=? Z.of_nat (Nat.min k limit))%Z eqn:E.
  - apply Z.leb_le in E. assert (Hk : limit <= k) by lia.
    unfold submitted_in_order.
    cbn [Pool.maxConcurrency Pool.activeRequests Pool.queue Pool.running].
    rewrite Hr, map_app, Hq.
    replace (Nat.min (S k) limit) with limit by lia.
    replace (Nat.min k limit) with limit by lia.
    repeat split.
    replace (S k - limit) with (S (k - limit)) by lia.
    rewrite seq_S. simpl. repeat f_equal. lia.
  - apply Z.leb_gt in E. assert (Hk : k < limit) by lia.
    assert (Hq0 : Pool.queue p = []).
    { replace (k - limit) with 0 in Hq by lia. simpl in Hq.
      destruct (Pool.queue p); [reflexivity | discriminate]. }
    rewrite Hq0. cbn [app]. unfold submitted_in_order.
    cbn [Pool.maxConcurrency Pool.activeRequests Pool.queue Pool.running].
    rewrite map_app, Hr.
    replace (Nat.min (S k) limit) with (S k) by lia.
    replace (Nat.min k limit) with k by lia.
    replace (S k - limit) with 0 by lia.
    repeat split.
    + rewrite seq_S. reflexivity.
    + lia.
Qed.

Lemma addTasks_in_order limit now len : forall start (p : Pool.t nat),
  submitted_in_order limit start p ->
  submitted_in_order limit (start + len)
    (fold_left (fun p index => Pool.addTask index now p) (seq start len) p).
Proof.
  induction len as [|len IH]; intros start p H; simpl.
  - now rewrite Nat.add_0_r.
  - rewrite <- Nat.add_succ_comm. apply IH. now apply addTask_in_order.
Qed.

Lemma processQueue_counts now (p : Pool.t nat) :
  Pool.completed (Pool.processQueue now p) = Pool.completed p /\
  Pool.failed (Pool.processQueue now p) = Pool.failed p.
Proof.
  unfold Pool.processQueue. destruct (_ || _); [auto|].
  destruct (Pool.queue p); auto.
Qed.

Lemma addTasks_counts now l : forall (p : Pool.t nat),
  Pool.completed (fold_left (fun p index => Pool.addTask index now p) l p)
  = Pool.completed p /\
  Pool.failed (fold_left (fun p index => Pool.addTask index now p) l p)
  = Pool.failed p.
Proof.
  induction l as [|x l IH]; intros p; simpl; [auto|].
  destruct (IH (Pool.addTask x now p)) as [H1 H2]. rewrite H1, H2.
  unfold Pool.addTask.
  destruct (processQueue_counts now
              {| Pool.maxConcurrency := Pool.maxConcurrency p;
                 Pool.requestDelay := Pool.requestDelay p;
                 Pool.activeRequests := Pool.activeRequests p;
                 Pool.queue := Pool.queue p ++ [Pool.mkTask x now];
                 Pool.completed := Pool.completed p;
                 Pool.failed := Pool.failed p;
                 Pool.startTime := Pool.startTime p;
                 Pool.running := Pool.running p;
                 Pool.timers := Pool.timers p |}) as [H3 H4].
  rewrite H3, H4. auto.
Qed.

(** The limit [translatePage] gives the pool: the setting, or 5 when it is
    missing or 0, at most 8 and at least 1. *)
Definition dispatchLimit (maxConcurrencySetting : option Z) : nat :=
  Z.to_nat (Z.max 1 (Z.min (Z.min (Job.orDefault maxConcurrencySetting 5) 8) 10)).

Lemma dispatch_in_order s1 s2 segments now (p : Pool.t nat) page :
  idle p ->
  submitted_in_order (dispatchLimit s1) (length segments)
    (Job.pool (Job.dispatch s1 s2 segments now p page)) /\
  Pool.completed (Job.pool (Job.dispatch s1 s2 segments now p page)) = 0%Z /\
  Pool.failed (Job.pool (Job.dispatch s1 s2 segments now p page)) = 0%Z.
Proof.
  intros (Hq & Hr & Ha). unfold Job.dispatch. cbn [Job.pool].
  set (p3 := Pool.reset _).
  assert (H3 : submitted_in_order (dispatchLimit s1) 0 p3 /\
               Pool.completed p3 = 0%Z /\ Pool.failed p3 = 0%Z).
  { unfold p3, Pool.reset, Pool.setRequestDelay, Pool.setConcurrency, Pool.processQueue.
    cbn [Pool.maxConcurrency Pool.activeRequests Pool.queue Pool.running].
    rewrite Hq. cbn [length Nat.eqb]. rewrite orb_true_r.
    unfold submitted_in_order.
    cbn [Pool.maxConcurrency Pool.activeRequests Pool.queue Pool.running
         Pool.completed Pool.failed].
    rewrite Hr, Ha. unfold dispatchLimit. repeat split. lia. }
  destruct H3 as (H3 & Hc & Hf). split.
  - apply (addTasks_in_order (dispatchLimit s1) now (length segments) 0 p3 H3).
  - destruct (addTasks_counts now (seq 0 (length segments)) p3) as [H1 H2].
    rewrite H1, H2. auto.
Qed.

(** X19. [translatePage] starts the tasks of the segments in order: on a
    pool with nothing waiting or running, the tasks of the first [limit]
    segments are running after the dispatch and those of the other segments
    wait in the queue, all in the order of the segments; [limit] is the
    setting, or 5 when there is none, brought into the range from 1 to 8. *)
Theorem dispatch_starts_tasks_in_order :
  forall (maxConcurrencySetting requestDelaySetting : option Z)
         (segments : list Seg.Segment) (now : Z) (p : Pool.t nat) (page : Job.Dom),
    idle p ->
    let j := Job.dispatch maxConcurrencySetting requestDelaySetting
               segments now p page in
    let limit := dispatchLimit maxConcurrencySetting in
    let n := length segments in
    1 <= limit <= 8 /\
    map (@Pool.taskFn nat) (Pool.running (Job.pool j)) = seq 0 (Nat.min n limit) /\
    map (@Pool.taskFn nat) (Pool.queue (Job.pool j)) = seq (Nat.min n limit) (n - limit) /\
    Pool.activeRequests (Job.pool j) = Z.of_nat (Nat.min n limit) /\
    Pool.maxConcurrency (Job.pool j) = Z.of_nat limit.
Proof.
  intros s1 s2 segments now p page Hidle j limit n.
  destruct (dispatch_in_order s1 s2 segments now p page Hidle)
    as ((Hr & Hq & Ha & Hm) & _).
  split; [unfold limit, dispatchLimit; lia|].
  repeat split; assumption.
Qed.

Lemma dispatch_starts_tasks_in_order_witness :
  let j := Job.dispatch (Some 2%Z) None
             [Seg.Single [short_node_a] (lit "one") 1;
              Seg.Single [short_node_b] (lit "two") 2;
              Seg.Single [wide_node] (Seg.textContent wide_node) 1]
             0 (Pool.constructor nat 5 100) (fun _ => Job.Original) in
  map (@Pool.taskFn nat) (Pool.running (Job.pool j)) = [0; 1] /\
  map (@Pool.taskFn nat) (Pool.queue (Job.pool j)) = [2].
Proof.
  intros j.
  destruct (dispatch_starts_tasks_in_order (Some 2%Z) None
              [Seg.Single [short_node_a] (lit "one") 1;
               Seg.Single [short_node_b] (lit "two") 2;
               Seg.Single [wide_node] (Seg.textContent wide_node) 1]
              0 (Pool.constructor nat 5 100) (fun _ => Job.Original))
    as (_ & H1 & H2 & _).
  - repeat split.
  - split; [exact H1 | exact H2].
Defined.

(** ** The counters of [translatePage] *)

Lemma remove_nth_split (A : Type) (l : list A) : forall i t,
  nth_error l i = Some t ->
  exists l1 l2, l = l1 ++ t :: l2 /\ Pool.remove_nth i l = l1 ++ l2.
Proof.
  induction l as [|x l IH]; intros [|i] t H; simpl in H; try discriminate.
  - injection H as ->. exists [], l. auto.
  - destruct (IH i t H) as (l1 & l2 & -> & Hr).
    exists (x :: l1), l2. simpl. rewrite Hr. auto.
Qed.

Lemma NoDup_snoc (A : Type) (l : list A) (x : A) :
  NoDup l -> ~ In x l -> NoDup (l ++ [x]).
Proof.
  induction 1 as [|a l Ha Hl IH]; intros Hx; simpl.
  - constructor; [intros [] | constructor].
  - constructor.
    + intros H. apply in_app_or in H as [H|[H|[]]]; [auto|].
      apply Hx. left. symmetry. exact H.
    + apply IH. intros H. apply Hx. now right.
Qed.

Lemma processQueue_cases now (p : Pool.t nat) :
  Pool.processQueue now p = p \/
  exists task rest,
    Pool.queue p = task :: rest /\
    Pool.running (Pool.processQueue now p) = Pool.running p ++ [task] /\
    Pool.queue (Pool.processQueue now p) = rest /\
    Pool.activeRequests (Pool.processQueue now p) = (Pool.activeRequests p + 1)%Z /\
    Pool.completed (Pool.processQueue now p) = Pool.completed p /\
    Pool.failed (Pool.processQueue now p) = Pool.failed p.
Proof.
  unfold Pool.processQueue. destruct (_ || _); [now left|].
  destruct (Pool.queue p) as [|task rest]; [now left|].
  right. exists task, rest. repeat split.
Qed.

Section JobAccounting.

Variable roundRatio : nat -> nat -> nat -> Z.
Variable inside : Seg.Element -> Seg.Element -> bool.
Variable nodes : list Seg.Element.
Variable textContentOf : Job.Dom -> Seg.Element -> jsstring.
Variable segments : list Seg.Segment.

(** The indexes of the segments whose tasks run ([R]) or wait ([Q]) or
    whose translations were applied ([A]) are all different, and are
    indexes of segments. *)
Definition distinct (R Q A : list nat) : Prop :=
  NoDup (R ++ Q ++ A) /\ forall x, In x (R ++ Q ++ A) -> x < length segments.

Lemma distinct_start R q Q A : distinct R (q :: Q) A -> distinct (R ++ [q]) Q A.
Proof. unfold distinct. now rewrite <- app_assoc. Qed.

Lemma distinct_drop l1 x l2 Q A :
  distinct (l1 ++ x :: l2) Q A -> distinct (l1 ++ l2) Q A.
Proof.
  unfold distinct. rewrite <- !app_assoc. cbn [app]. intros [Hn Hb]. split.
  - eapply NoDup_remove_1. exact Hn.
  - intros y Hy. apply Hb. apply in_app_or in Hy as [Hy|Hy]; apply in_or_app;
      [now left | right; now right].
Qed.

Lemma distinct_apply l1 x l2 Q A :
  distinct (l1 ++ x :: l2) Q A -> distinct (l1 ++ l2) Q (A ++ [x]).
Proof.
  unfold distinct. rewrite <- !app_assoc. cbn [app]. intros [Hn Hb].
  replace (l1 ++ l2 ++ Q ++ A ++ [x]) with ((l1 ++ l2 ++ Q ++ A) ++ [x])
    by (now rewrite <- !app_assoc).
  split.
  - apply NoDup_snoc; [eapply NoDup_remove_1 | eapply NoDup_remove_2]; exact Hn.
  - intros y Hy. apply Hb. apply in_app_or in Hy as [Hy|[<-|[]]].
    + apply in_app_or in Hy as [Hy|Hy]; apply in_or_app; [now left | right; now right].
    + apply in_or_app. right. now left.
Qed.

Record job_inv (j : Job.t) : Prop := {
  ji_distinct :
    distinct (map (@Pool.taskFn nat) (Pool.running (Job.pool j)))
             (map (@Pool.taskFn nat) (Pool.queue (Job.pool j)))
             (Job.applied j);
  ji_success : Job.successCount j = Z.of_nat (length (Job.applied j));
  ji_processed :
    Job.processedCount j
    = (Pool.completed (Job.pool j) + Pool.failed (Job.pool j))%Z;
  ji_failed : Job.failureCount j = Pool.failed (Job.pool j);
  ji_completed : (Job.successCount j <= Pool.completed (Job.pool j))%Z;
  ji_active :
    Pool.activeRequests (Job.pool j)
    = Z.of_nat (length (Pool.running (Job.pool j)));
  ji_total :
    (Z.of_nat (length (Pool.queue (Job.pool j)))
     + Pool.activeRequests (Job.pool j) + Job.processedCount j
     = Z.of_nat (length segments))%Z
}.

Lemma settle_running i ok (p : Pool.t nat) task :
  nth_error (Pool.running p) i = Some task ->
  exists l1 l2,
    Pool.running p = l1 ++ task :: l2 /\
    Pool.running (Pool.settle i ok p) = l1 ++ l2 /\
    Pool.queue (Pool.settle i ok p) = Pool.queue p /\
    Pool.activeRequests (Pool.settle i ok p) = (Pool.activeRequests p - 1)%Z /\
    Pool.completed (Pool.settle i ok p)
    = (if ok then Pool.completed p + 1 else Pool.completed p)%Z /\
    Pool.failed (Pool.settle i ok p)
    = (if ok then Pool.failed p else Pool.failed p + 1)%Z.
Proof.
  intros H. destruct (remove_nth_split _ (Pool.running p) i task H) as (l1 & l2 & E & Hr).
  exists l1, l2. unfold Pool.settle.
  assert (Hi : (i <? length (Pool.running p)) = true).
  { apply Nat.ltb_lt. apply nth_error_Some. congruence. }
  rewrite Hi.
  cbn [Pool.running Pool.queue Pool.activeRequests Pool.completed Pool.failed].
  rewrite Hr. repeat split. exact E.
Qed.

Lemma job_step_inv j e :
  job_inv j -> job_inv (Job.step roundRatio inside nodes textContentOf segments j e).
Proof.
  intros [Hd Hs Hp Hf Hc Ha Ht]. destruct e as [i result|now]; cbn [Job.step].
  - destruct (nth_error (Pool.running (Job.pool j)) i) as [task|] eqn:Hi;
      [|constructor; assumption].
    destruct (nth_error segments (Pool.taskFn task)) as [segment|];
      [|constructor; assumption].
    assert (Hcases :
      forall ok,
        exists l1 l2,
          Pool.running (Job.pool j) = l1 ++ task :: l2 /\
          Pool.running (Pool.settle i ok (Job.pool j)) = l1 ++ l2 /\
          Pool.queue (Pool.settle i ok (Job.pool j)) = Pool.queue (Job.pool j) /\
          Pool.activeRequests (Pool.settle i ok (Job.pool j))
          = (Pool.activeRequests (Job.pool j) - 1)%Z /\
          Pool.completed (Pool.settle i ok (Job.pool j))
          = (if ok then Pool.completed (Job.pool j) + 1
             else Pool.completed (Job.pool j))%Z /\
          Pool.failed (Pool.settle i ok (Job.pool j))
          = (if ok then Pool.failed (Job.pool j)
             else Pool.failed (Job.pool j) + 1)%Z).
    { intros ok. now apply settle_running. }
    destruct (Seg.text segment) as [|c0 t0].
    { destruct (Hcases true) as (l1 & l2 & E & Hr & Hq & Hact & Hco & Hfa).
      rewrite E in Hd, Ha. rewrite map_app in Hd. cbn [map] in Hd.
      constructor; cbn [Job.pool Job.applied Job.successCount Job.failureCount
                        Job.processedCount]; rewrite ?Hr, ?Hq, ?Hact, ?Hco, ?Hfa.
      - rewrite map_app. eapply distinct_drop. exact Hd.
      - exact Hs.
      - lia.
      - exact Hf.
      - lia.
      - rewrite length_app in *. cbn [length] in Ha. lia.
      - lia. }
    destruct result as [[|c tr]|].
    + destruct (Hcases false) as (l1 & l2 & E & Hr & Hq & Hact & Hco & Hfa).
      rewrite E in Hd, Ha. rewrite map_app in Hd. cbn [map] in Hd.
      constructor; cbn [Job.pool Job.applied Job.successCount Job.failureCount
                        Job.processedCount]; rewrite ?Hr, ?Hq, ?Hact, ?Hco, ?Hfa.
      * rewrite map_app. eapply distinct_drop. exact Hd.
      * exact Hs.
      * lia.
      * lia.
      * lia.
      * rewrite length_app in *. cbn [length] in Ha. lia.
      * lia.
    + destruct (Hcases true) as (l1 & l2 & E & Hr & Hq & Hact & Hco & Hfa).
      rewrite E in Hd, Ha. rewrite map_app in Hd. cbn [map] in Hd.
      constructor; cbn [Job.pool Job.applied Job.successCount Job.failureCount
                        Job.processedCount]; rewrite ?Hr, ?Hq, ?Hact, ?Hco, ?Hfa.
      * rewrite map_app. apply distinct_apply. exact Hd.
      * rewrite length_app. cbn [length]. lia.
      * lia.
      * exact Hf.
      * lia.
      * rewrite length_app in *. cbn [length] in Ha. lia.
      * lia.
    + destruct (Hcases false) as (l1 & l2 & E & Hr & Hq & Hact & Hco & Hfa).
      rewrite E in Hd, Ha. rewrite map_app in Hd. cbn [map] in Hd.
      constructor; cbn [Job.pool Job.applied Job.successCount Job.failureCount
                        Job.processedCount]; rewrite ?Hr, ?Hq, ?Hact, ?Hco, ?Hfa.
      * rewrite map_app. eapply distinct_drop. exact Hd.
      * exact Hs.
      * lia.
      * lia.
      * lia.
      * rewrite length_app in *. cbn [length] in Ha. lia.
      * lia.
  - unfold Pool.timer. destruct (Pool.timers (Job.pool j)) as [|n];
      [constructor; assumption|].
    match goal with
    | |- context [Pool.processQueue now ?q] =>
        destruct (processQueue_cases now q)
          as [E|(task & rest & Eq & Hr & Hq & Hact & Hco & Hfa)]
    end.
    + rewrite E. constructor; assumption.
    + cbn [Pool.queue Pool.running Pool.activeRequests Pool.completed Pool.failed]
        in Eq, Hr, Hq, Hact, Hco, Hfa.
      rewrite Eq in Hd, Ht. cbn [map] in Hd.
      constructor; cbn [Job.pool Job.applied Job.successCount Job.failureCount
                        Job.processedCount]; rewrite ?Hr, ?Hq, ?Hact, ?Hco, ?Hfa.
      * rewrite map_app. apply distinct_start. exact Hd.
      * exact Hs.
      * exact Hp.
      * exact Hf.
      * exact Hc.
      * rewrite length_app. cbn [length]. lia.
      * cbn [length] in Ht. lia.
Qed.

Lemma job_run_inv evs : forall j,
  job_inv j -> job_inv (Job.run roundRatio inside nodes textContentOf segments j evs).
Proof.
  induction evs as [|e evs IH]; intros j H; simpl; [exact H|].
  apply IH. now apply job_step_inv.
Qed.

Lemma dispatch_inv s1 s2 now (p : Pool.t nat) page :
  idle p -> job_inv (Job.dispatch s1 s2 segments now p page).
Proof.
  intros Hidle.
  destruct (dispatch_in_order s1 s2 segments now p page Hidle)
    as ((Hr & Hq & Ha & Hm) & Hc & Hf).
  set (j := Job.dispatch s1 s2 segments now p page) in *.
  assert (Hlr : length (Pool.running (Job.pool j))
                = Nat.min (length segments) (dispatchLimit s1)).
  { rewrite <- (length_map (@Pool.taskFn nat)), Hr. apply length_seq. }
  assert (Hlq : length (Pool.queue (Job.pool j))
                = length segments - dispatchLimit s1).
  { rewrite <- (length_map (@Pool.taskFn nat)), Hq. apply length_seq. }
  constructor.
  - rewrite Hr, Hq. change (Job.applied j) with (@nil nat).
    unfold distinct. rewrite app_nil_r.
    rewrite <- seq_app.
    replace (Nat.min (length segments) (dispatchLimit s1)
             + (length segments - dispatchLimit s1)) with (length segments) by lia.
    split; [apply seq_NoDup|]. intros x Hx. apply in_seq in Hx. lia.
  - reflexivity.
  - rewrite Hc, Hf. reflexivity.
  - rewrite Hf. reflexivity.
  - rewrite Hc. change (Job.successCount j) with 0%Z. lia.
  - rewrite Ha, Hlr. reflexivity.
  - rewrite Ha, Hlq. change (Job.processedCount j) with 0%Z. lia.
Qed.

End JobAccounting.

(** X20. However the requests of a page return, no segment is handled
    twice: the indexes of the segments whose translations were applied are
    all different and are indexes of segments; [successCount] is their
    number; the failures and successes are at most [processedCount]; and the
    tasks that wait, the tasks that run and the tasks processed are together
    the tasks of the segments. *)
Theorem job_handles_each_segment_once :
  forall (roundRatio : nat -> nat -> nat -> Z)
         (inside : Seg.Element -> Seg.Element -> bool) (nodes : list Seg.Element)
         (textContentOf : Job.Dom -> Seg.Element -> jsstring)
         (maxConcurrencySetting requestDelaySetting : option Z)
         (segments : list Seg.Segment) (now : Z) (p : Pool.t nat) (page : Job.Dom)
         (evs : list Job.Event),
    idle p ->
    let j := Job.run roundRatio inside nodes textContentOf segments
               (Job.dispatch maxConcurrencySetting requestDelaySetting
                  segments now p page) evs in
    NoDup (Job.applied j) /\
    Forall (fun i => i < length segments) (Job.applied j) /\
    Job.successCount j = Z.of_nat (length (Job.applied j)) /\
    (Job.successCount j + Job.failureCount j <= Job.processedCount j)%Z /\
    (Z.of_nat (length (Pool.queue (Job.pool j)))
     + Pool.activeRequests (Job.pool j) + Job.processedCount j
     = Z.of_nat (length segments))%Z.
Proof.
  intros roundRatio inside nodes textContentOf s1 s2 segments now p page evs Hidle j.
  assert (H : job_inv segments j).
  { apply job_run_inv. now apply dispatch_inv. }
  destruct H as [[Hn Hb] Hs Hp Hf Hc Ha Ht].
  split; [|split; [|split; [|split]]].
  - rewrite app_assoc in Hn. apply NoDup_app_remove_l in Hn. exact Hn.
  - apply Forall_forall. intros x Hx. apply Hb.
    apply in_or_app. right. apply in_or_app. now right.
  - exact Hs.
  - lia.
  - exact Ht.
Qed.

Lemma job_handles_each_segment_once_witness :
  let segments := [Seg.Single [short_node_a] (lit "one") 1;
                   Seg.Single [short_node_b] (lit "two") 2] in
  let j := Job.run Reassembly.doubleRoundRatio Job.flat [short_node_a; short_node_b]
             Job.bilingualText segments
             (Job.dispatch None None segments 0 (Pool.constructor nat 5 100)
                (fun _ => Job.Original))
             [Job.EvReturn 1 (Some (lit "deux")); Job.EvReturn 0 None] in
  NoDup (Job.applied j) /\ Job.successCount j = 1%Z.
Proof.
  intros segments j.
  destruct (job_handles_each_segment_once Reassembly.doubleRoundRatio Job.flat
              [short_node_a; short_node_b] Job.bilingualText None None
              segments 0 (Pool.constructor nat 5 100) (fun _ => Job.Original)
              [Job.EvReturn 1 (Some (lit "deux")); Job.EvReturn 0 None])
    as (H1 & _ & H3 & _).
  - repeat split.
  - split; [exact H1 | exact H3].
Defined.

(** ** Writing translations onto the page *)

Section Writes.

Variable inside : Seg.Element -> Seg.Element -> bool.

Lemma write_same dom e c :
  dom e <> Job.Removed -> Job.write inside dom e c e = c.
Proof.
  intros H. unfold Job.write, Seg.Element_eqb.
  destruct (dom e); try congruence;
    destruct (Seg.Element_eq_dec e e); congruence.
Qed.

Lemma write_other dom e c x :
  x <> e -> inside x e = false -> Job.write inside dom e c x = dom x.
Proof.
  intros H Hi. unfold Job.write, Seg.Element_eqb.
  destruct (dom e); try reflexivity;
    destruct (Seg.Element_eq_dec x e); try congruence; now rewrite Hi.
Qed.






End Writes.


Section Frames.

Variable roundRatio : nat -> nat -> nat -> Z.
Variable inside : Seg.Element -> Seg.Element -> bool.
Variable nodes : list Seg.Element.
Variable textContentOf : Job.Dom -> Seg.Element -> jsstring.

(** [x] is none of the nodes [owned] and lies inside none of them. *)
Definition apart (x : Seg.Element) (owned : list Seg.Element) : Prop :=
  ~ In x owned /\ forall e, In e owned -> inside x e = false.





End Frames.



(** ** The parts of a split group, applied in order *)

Section SplitInOrder.

Variable roundRatio : nat -> nat -> nat -> Z.
Variable inside : Seg.Element -> Seg.Element -> bool.
Variable nodes : list Seg.Element.
Variable textContentOf : Job.Dom -> Seg.Element -> jsstring.
Variables (g : Seg.Segment) (primary : Seg.Element) (others : list Seg.Element).





End SplitInOrder.



(** ** The translation of a group, shared out to its nodes *)

Lemma fold_lengths_ge (texts : list jsstring) : forall a,
  a <= fold_left (fun sum text => sum + length text) texts a.
Proof.
  induction texts as [|t texts IH]; intros a; simpl; [lia|].
  specialize (IH (a + length t)). lia.
Qed.

(** No node of the list lies inside another node of the list. *)
Definition unnested (inside : Seg.Element -> Seg.Element -> bool)
    (els : list Seg.Element) : Prop :=
  forall a b, In a els -> In b els -> inside a b = false.

(** The nodes of the list are in the page. *)
Definition attached (dom : Job.Dom) (els : list Seg.Element) : Prop :=
  forall el, In el els -> dom el <> Job.Removed.

Section GroupedApply.

Variable inside : Seg.Element -> Seg.Element -> bool.
Variables (parts texts : list jsstring).

(** The callback of [segment.elements.forEach] in
    [applyGroupedTranslation]. *)
Definition groupedStep (dom : Job.Dom) (ei : Seg.Element * nat) : Job.Dom :=
  let '(element, index) := ei in
  match nth_error parts index, nth_error texts index with
  | Some part, Some (c :: t) => Job.applyTranslation inside element (c :: t) part dom
  | _, _ => dom
  end.

Lemma grouped_fold els : forall k dom,
  NoDup els -> unnested inside els -> attached dom els ->
  (forall i el, nth_error els i = Some el ->
                exists part c t, nth_error parts (k + i) = Some part /\
                                 nth_error texts (k + i) = Some (c :: t)) ->
  let final := fold_left groupedStep (combine els (seq k (length els))) dom in
  (forall i el, nth_error els i = Some el ->
                exists part txt, nth_error parts (k + i) = Some part /\
                                 nth_error texts (k + i) = Some txt /\
                                 final el = Job.Translated txt part) /\
  (forall x, apart inside x els -> final x = dom x).
Proof.
  induction els as [|e els IH]; intros k dom Hnd Hun Hatt Hall; cbn zeta.
  - split; [intros [|i] el H; discriminate | reflexivity].
  - inversion Hnd as [|? ? He Hnd']; subst.
    cbn [length seq combine fold_left].
    destruct (Hall 0 e eq_refl) as (part & c & t & Hp & Ht).
    rewrite Nat.add_0_r in Hp, Ht.
    set (dom1 := groupedStep dom (e, k)).
    assert (H1 : dom1 = Job.applyTranslation inside e (c :: t) part dom).
    { unfold dom1, groupedStep. now rewrite Hp, Ht. }
    assert (Hrest : forall x, In x els -> dom1 x = dom x).
    { intros x Hx. rewrite H1. unfold Job.applyTranslation. apply write_other.
      - intros ->. contradiction.
      - apply Hun; [now right | now left]. }
    assert (Hape : apart inside e els).
    { split; [exact He|]. intros b Hb. apply Hun; [now left | now right]. }
    destruct (IH (S k) dom1 Hnd') as [IH1 IH2].
    { intros a b Ha Hb. apply Hun; now right. }
    { intros el Hel. rewrite (Hrest el Hel). apply Hatt. now right. }
    { intros i el Hi. destruct (Hall (S i) el Hi) as (p' & c' & t' & Hp' & Ht').
      rewrite Nat.add_succ_r in Hp', Ht'. exists p', c', t'. auto. }
    split.
    + intros [|i] el Hi.
      * injection Hi as <-. exists part, (c :: t). rewrite Nat.add_0_r.
        split; [exact Hp|]. split; [exact Ht|].
        rewrite (IH2 e Hape), H1. unfold Job.applyTranslation.
        apply write_same. apply Hatt. now left.
      * destruct (IH1 i el Hi) as (p' & txt & Hp' & Ht' & Hf).
        exists p', txt. rewrite Nat.add_succ_r. auto.
    + intros x [Hx Hi]. rewrite IH2.
      * rewrite H1. unfold Job.applyTranslation. apply write_other.
        -- intros ->. apply Hx. now left.
        -- apply Hi. now left.
      * split; [intros H; apply Hx; now right|]. intros b Hb. apply Hi. now right.
Qed.

End GroupedApply.

(** X23. The translation of a [grouped] segment whose nodes are all
    different, are in the page, none inside another, and all have text on
    the page when the call starts, is shared out among the nodes without
    loss: every node ends with that text, trimmed, and one part of the
    translation, and the parts of the nodes, read in order, concatenate to
    the translation. *)
Theorem grouped_translation_is_shared_out :
  forall (roundRatio : nat -> nat -> nat -> Z)
         (inside : Seg.Element -> Seg.Element -> bool)
         (textContentOf : Job.Dom -> Seg.Element -> jsstring)
         (els : list Seg.Element)
         (text : jsstring) (container : nat) (translation : jsstring)
         (dom : Job.Dom),
    els <> [] -> NoDup els -> unnested inside els -> attached dom els ->
    Forall (fun el => trim (textContentOf dom el) <> []) els ->
    let final := Job.applyGroupedTranslation roundRatio inside textContentOf
                   (Seg.Grouped els text container) translation dom in
    exists parts,
      concat parts = translation /\
      length parts = length els /\
      forall i el, nth_error els i = Some el ->
                   exists part, nth_error parts i = Some part /\
                                final el
                                = Job.Translated (trim (textContentOf dom el)) part.
Proof.
  intros roundRatio inside textContentOf els text container translation dom
         Hne Hnd Hun Hatt Htexts final.
  set (texts := map (fun el => trim (textContentOf dom el)) els).
  set (total := fold_left (fun sum t => sum + length t) texts 0).
  assert (Htot : total <> 0).
  { unfold total, texts. destruct els as [|e els']; [congruence|].
    inversion Htexts as [|? ? He _]; subst. cbn [map fold_left].
    pose proof (fold_lengths_ge
                  (map (fun el => trim (textContentOf dom el)) els')
                  (0 + length (trim (textContentOf dom e)))) as Hge.
    destruct (trim (textContentOf dom e)); [congruence|]. simpl in *. lia. }
  assert (Hparts : Reassembly.splitTranslationByRatio roundRatio translation texts
                   = Reassembly.ratioLoop roundRatio (length translation) total
                       texts translation).
  { unfold Reassembly.splitTranslationByRatio. fold total.
    apply Nat.eqb_neq in Htot. now rewrite Htot. }
  assert (Htne : texts <> []).
  { unfold texts. destruct els; [congruence | discriminate]. }
  exists (Reassembly.splitTranslationByRatio roundRatio translation texts).
  rewrite Hparts.
  split; [apply ratioLoop_concat; exact Htne|].
  split; [rewrite ratioLoop_length; apply length_map|].
  intros i el Hi.
  unfold final, Job.applyGroupedTranslation. cbn [Seg.elements].
  fold texts. fold total. apply Nat.eqb_neq in Htot. rewrite Htot. rewrite Hparts.
  set (parts := Reassembly.ratioLoop _ _ _ _ _).
  destruct (grouped_fold inside parts texts els 0 dom Hnd Hun Hatt) as [H1 _].
  { intros k e Hk. cbn [Nat.add].
    assert (Hlt : k < length els) by (apply nth_error_Some; congruence).
    destruct (nth_error parts k) as [part|] eqn:Hp.
    2:{ apply nth_error_None in Hp. unfold parts in Hp.
        rewrite ratioLoop_length in Hp. unfold texts in Hp.
        rewrite length_map in Hp. lia. }
    assert (Ht : nth_error texts k = Some (trim (textContentOf dom e))).
    { exact (map_nth_error (fun el => trim (textContentOf dom el)) k els Hk). }
    rewrite Forall_forall in Htexts.
    assert (He : In e els) by (eapply nth_error_In; exact Hk).
    specialize (Htexts e He).
    destruct (trim (textContentOf dom e)) as [|c t]; [congruence|].
    exists part, c, t. auto. }
  destruct (H1 i el Hi) as (part & txt & Hp & Ht & Hf). cbn [Nat.add] in Hp, Ht.
  exists part. split; [exact Hp|].
  assert (Ht' : nth_error texts i = Some (trim (textContentOf dom el))).
  { exact (map_nth_error (fun el => trim (textContentOf dom el)) i els Hi). }
  rewrite Ht' in Ht. injection Ht as <-. exact Hf.
Qed.

Lemma grouped_translation_is_shared_out_witness :
  exists parts,
    concat parts = lit "un. deux" /\ length parts = 2.
Proof.
  destruct (grouped_translation_is_shared_out Reassembly.doubleRoundRatio
              Job.flat Job.bilingualText
              [short_node_a; short_node_b] (lit "one two") 1 (lit "un. deux")
              (fun _ => Job.Original)) as (parts & H1 & H2 & _).
  - discriminate.
  - apply NoDup_cons; [intros [H|[]]; discriminate|].
    apply NoDup_cons; [intros [] | apply NoDup_nil].
  - intros a b _ _. reflexivity.
  - intros el _. discriminate.
  - apply Forall_cons; [vm_compute; discriminate|].
    apply Forall_cons; [vm_compute; discriminate | apply Forall_nil].
  - exists parts. split; [exact H1 | exact H2].
Defined.

(** ** The queue of page updates *)

Section DomQueueProperties.

Variable Update : Type.

(** The update functions queued by a sequence of events, in order. *)
Fixpoint queuedUpdates (evs : list (DomQueue.Event Update)) : list Update :=
  match evs with
  | [] => []
  | DomQueue.EvQueue u :: rest => u :: queuedUpdates rest
  | _ :: rest => queuedUpdates rest
  end.

(** An event that does not throw the queue away. *)
Definition keeps_updates (e : DomQueue.Event Update) : Prop :=
  match e with
  | DomQueue.EvCleanup _ => False
  | _ => True
  end.

Lemma processDOMUpdateQueue_updates (s : DomQueue.t Update) :
  DomQueue.executed (DomQueue.processDOMUpdateQueue s) = DomQueue.executed s /\
  DomQueue.domUpdateQueue (DomQueue.processDOMUpdateQueue s) = DomQueue.domUpdateQueue s.
Proof. split; reflexivity. Qed.

Lemma step_updates (s : DomQueue.t Update) e :
  keeps_updates e ->
  DomQueue.executed (DomQueue.step s e) ++ DomQueue.domUpdateQueue (DomQueue.step s e)
  = (DomQueue.executed s ++ DomQueue.domUpdateQueue s) ++ queuedUpdates [e].
Proof.
  destruct e as [u| |id|]; intros H; try contradiction; cbn [DomQueue.step queuedUpdates].
  - unfold DomQueue.queueDOMUpdate. destruct (_ || _); cbn; now rewrite app_assoc.
  - rewrite app_nil_r. unfold DomQueue.frame.
    destruct (DomQueue.frames s); [reflexivity|].
    destruct (skipn _ _) eqn:E; cbn [DomQueue.executed DomQueue.domUpdateQueue];
      rewrite <- app_assoc, <- E, firstn_skipn; reflexivity.
  - rewrite app_nil_r. unfold DomQueue.timerFires.
    destruct (existsb _ _); reflexivity.
Qed.

Lemma run_updates evs : forall (s : DomQueue.t Update),
  Forall keeps_updates evs ->
  DomQueue.executed (DomQueue.run s evs) ++ DomQueue.domUpdateQueue (DomQueue.run s evs)
  = (DomQueue.executed s ++ DomQueue.domUpdateQueue s) ++ queuedUpdates evs.
Proof.
  induction evs as [|e evs IH]; intros s H; simpl.
  - now rewrite app_nil_r.
  - inversion H as [|? ? He Hevs]; subst.
    change (fold_left (DomQueue.step (Update:=Update)) evs (DomQueue.step s e))
      with (DomQueue.run (DomQueue.step s e) evs).
    rewrite (IH _ Hevs), (step_updates s e He), <- app_assoc. f_equal.
    destruct e; reflexivity.
Qed.

(** The timer the controller remembers is pending; and when updates wait,
    a frame callback or a timer is pending that will go on with them. *)
Definition attended (s : DomQueue.t Update) : Prop :=
  (forall id, DomQueue.domUpdateTimer s = Some id -> In id (DomQueue.pendingTimers s)) /\
  (DomQueue.domUpdateQueue s <> [] ->
   0 < DomQueue.frames s \/ DomQueue.pendingTimers s <> []).

Lemma processDOMUpdateQueue_attended (s : DomQueue.t Update) :
  attended (DomQueue.processDOMUpdateQueue s).
Proof.
  unfold attended, DomQueue.processDOMUpdateQueue. cbn. split; [discriminate|].
  intros Hq. left. destruct (DomQueue.domUpdateQueue s); [congruence | lia].
Qed.

Lemma step_attended (s : DomQueue.t Update) e :
  attended s -> attended (DomQueue.step s e).
Proof.
  intros Hs. pose proof Hs as [H1 H2]. destruct e as [u| |id|]; cbn [DomQueue.step].
  - unfold DomQueue.queueDOMUpdate.
    destruct (_ || _) eqn:E; [apply processDOMUpdateQueue_attended|].
    apply orb_false_iff in E as [_ E]. cbn in E.
    destruct (DomQueue.domUpdateTimer s) as [id|] eqn:Et; [|discriminate].
    split; cbn.
    + exact H1.
    + intros _. right. intros Hp. specialize (H1 id eq_refl). rewrite Hp in H1.
      destruct H1.
  - unfold DomQueue.frame. destruct (DomQueue.frames s); [exact Hs|].
    destruct (skipn _ _) eqn:E; split; cbn.
    + exact H1.
    + congruence.
    + intros id Hid. injection Hid as <-. apply in_or_app. right. now left.
    + intros _. right. intros Hp. apply app_eq_nil in Hp as [_ Hp]. discriminate.
  - unfold DomQueue.timerFires.
    destruct (existsb _ _); [apply processDOMUpdateQueue_attended | exact Hs].
  - split; cbn; [exact H1 | congruence].
Qed.

Lemma run_attended evs : forall (s : DomQueue.t Update),
  attended s -> attended (DomQueue.run s evs).
Proof.
  induction evs as [|e evs IH]; intros s H; simpl; [exact H|].
  apply IH. now apply step_attended.
Qed.

End DomQueueProperties.

(** X24. The page updates are run first-in first-out and once each: as long
    as the queue is not thrown away by a memory cleanup, the updates run so
    far followed by the updates still queued are, in order, the updates
    that were queued. *)
Theorem dom_updates_run_in_order_once :
  forall (Update : Type) (evs : list (DomQueue.Event Update)),
    Forall (keeps_updates Update) evs ->
    let s := DomQueue.run (DomQueue.constructor Update) evs in
    DomQueue.executed s ++ DomQueue.domUpdateQueue s = queuedUpdates Update evs.
Proof.
  intros Update evs H s.
  apply (run_updates Update evs (DomQueue.constructor Update) H).
Qed.

Lemma dom_updates_run_in_order_once_witness :
  let s := DomQueue.run (DomQueue.constructor nat)
             [DomQueue.EvQueue 1; DomQueue.EvQueue 2; DomQueue.EvFrame nat;
              DomQueue.EvQueue 3] in
  DomQueue.executed s ++ DomQueue.domUpdateQueue s = [1; 2; 3].
Proof.
  apply (dom_updates_run_in_order_once nat
           [DomQueue.EvQueue 1; DomQueue.EvQueue 2; DomQueue.EvFrame nat;
            DomQueue.EvQueue 3]).
  repeat constructor.
Defined.

(** X25. Queued page updates are never left unattended, whatever updates are
    queued, frames and timers fire and cleanups run: when updates wait, a
    frame callback or a timer is pending.  A pending frame callback runs the
    first 10 waiting updates (all, if fewer wait), in order, and leaves the
    others queued; a pending timer that fires while updates wait asks for a
    frame. *)
Theorem dom_updates_are_attended :
  forall (Update : Type) (evs : list (DomQueue.Event Update)),
    let s := DomQueue.run (DomQueue.constructor Update) evs in
    (DomQueue.domUpdateQueue s <> [] ->
     0 < DomQueue.frames s \/ exists id, In id (DomQueue.pendingTimers s)) /\
    (0 < DomQueue.frames s ->
     DomQueue.executed (DomQueue.frame s)
     = DomQueue.executed s ++ firstn 10 (DomQueue.domUpdateQueue s) /\
     DomQueue.domUpdateQueue (DomQueue.frame s)
     = skipn 10 (DomQueue.domUpdateQueue s)) /\
    (forall id, In id (DomQueue.pendingTimers s) ->
                DomQueue.domUpdateQueue s <> [] ->
                0 < DomQueue.frames (DomQueue.timerFires id s)).
Proof.
  intros Update evs s.
  assert (H : attended Update s).
  { apply run_attended. split; cbn; [discriminate | congruence]. }
  destruct H as [H1 H2]. split; [|split].
  - intros Hq. destruct (H2 Hq) as [Hf|Hp]; [now left | right].
    destruct (DomQueue.pendingTimers s) as [|id ids]; [congruence|].
    exists id. now left.
  - intros Hf. unfold DomQueue.frame.
    destruct (DomQueue.frames s); [lia|].
    change DomQueue.domUpdateBatchSize with 10.
    destruct (skipn 10 (DomQueue.domUpdateQueue s)) eqn:E; cbn; rewrite ?E; auto.
  - intros id Hid Hq. unfold DomQueue.timerFires.
    assert (He : existsb (Nat.eqb id) (DomQueue.pendingTimers s) = true).
    { apply existsb_exists. exists id. split; [exact Hid | apply Nat.eqb_refl]. }
    rewrite He. unfold DomQueue.processDOMUpdateQueue. cbn.
    destruct (DomQueue.domUpdateQueue s); [congruence | lia].
Qed.

(** ** Translating node by node *)

(** [s] is [l] with some of its members left out. *)
Inductive Subseq (A : Type) : list A -> list A -> Prop :=
| Subseq_nil : forall l, Subseq A [] l
| Subseq_skip : forall x s l, Subseq A s l -> Subseq A s (x :: l)
| Subseq_take : forall x s l, Subseq A s l -> Subseq A (x :: s) (x :: l).

Lemma Subseq_length (A : Type) (s l : list A) : Subseq A s l -> length s <= length l.
Proof. induction 1; simpl; lia. Qed.

(** The calls of [applyTranslation] that the successes of [results] record. *)
Definition successes (rs : list Batch.Result)
    : list (Seg.Element * jsstring * jsstring) :=
  flat_map (fun r => match r with
                     | Batch.Success e o t => [(e, o, t)]
                     | Batch.Failure _ _ _ => []
                     end) rs.

(** A success carries the trimmed text of its node and a translation, and
    neither is empty. *)
Definition sound_result (r : Batch.Result) : Prop :=
  match r with
  | Batch.Success e o t => o = trim (Seg.textContent e) /\ o <> [] /\ t <> []
  | Batch.Failure _ _ _ => True
  end.

Lemma successes_app a b : successes (a ++ b) = successes a ++ successes b.
Proof. unfold successes. apply flat_map_app. Qed.

Section BatchProperties.

Variable env : nat -> Retry.Attempt.

Lemma batch_loop_results elements : forall i st,
  exists new,
    Batch.results (Batch.loop env elements i st) = Batch.results st ++ new /\
    Subseq _ (map Batch.element new) elements /\
    Batch.applied (Batch.loop env elements i st) = Batch.applied st ++ successes new /\
    Batch.requests (Batch.loop env elements i st) <= Batch.requests st + length new /\
    Forall sound_result new.
Proof.
  induction elements as [|el rest IH]; intros i st.
  - exists []. simpl. rewrite !app_nil_r. repeat split; [constructor | lia | constructor].
  - assert (Hone : forall r (st' : Batch.t),
               Batch.results st' = Batch.results st ++ [r] ->
               Batch.element r = el ->
               Batch.applied st' = Batch.applied st ++ successes [r] ->
               Batch.requests st' <= S (Batch.requests st) ->
               sound_result r ->
               exists new,
                 Batch.results st' = Batch.results st ++ new /\
                 Subseq _ (map Batch.element new) (el :: rest) /\
                 Batch.applied st' = Batch.applied st ++ successes new /\
                 Batch.requests st' <= Batch.requests st + length new /\
                 Forall sound_result new).
    { intros r st' H1 H2 H3 H4 H5. exists [r]. split; [exact H1|].
      split; [simpl; rewrite H2; apply Subseq_take, Subseq_nil|].
      split; [exact H3|]. split; [simpl; lia|]. constructor; [exact H5 | constructor]. }
    assert (Hmore : forall r (st' : Batch.t),
               Batch.results st' = Batch.results st ++ [r] ->
               Batch.element r = el ->
               Batch.applied st' = Batch.applied st ++ successes [r] ->
               Batch.requests st' <= S (Batch.requests st) ->
               sound_result r ->
               exists new,
                 Batch.results (Batch.loop env rest (S i) st')
                 = Batch.results st ++ new /\
                 Subseq _ (map Batch.element new) (el :: rest) /\
                 Batch.applied (Batch.loop env rest (S i) st')
                 = Batch.applied st ++ successes new /\
                 Batch.requests (Batch.loop env rest (S i) st')
                 <= Batch.requests st + length new /\
                 Forall sound_result new).
    { intros r st' H1 H2 H3 H4 H5.
      destruct (IH (S i) st') as (new & Hr & Hs & Ha & Hq & Hf).
      exists (r :: new). split; [rewrite Hr, H1, <- app_assoc; reflexivity|].
      split; [simpl; rewrite H2; now apply Subseq_take|].
      split; [rewrite Ha, H3, <- app_assoc; change (r :: new) with ([r] ++ new);
              rewrite successes_app; reflexivity|].
      split; [simpl; lia|]. constructor; assumption. }
    cbn [Batch.loop].
    destruct (negb (Retry.runtimeId (env i))).
    { cbv zeta. destruct (includes _ _); [eapply Hone | eapply Hmore];
        cbn; try reflexivity; try lia; try exact I; now rewrite app_nil_r. }
    destruct (negb (Retry.isTranslating (env i))).
    { exists []. simpl. rewrite !app_nil_r. repeat split; [constructor | lia | constructor]. }
    destruct (trim (Seg.textContent el)) as [|c0 t0] eqn:Et.
    { destruct (IH (S i) st) as (new & Hr & Hs & Ha & Hq & Hf).
      exists new. repeat split; try assumption. now apply Subseq_skip. }
    cbv zeta.
    destruct (Retry.response (env i)) as [[[|c tr]|]|message]; cbv beta iota.
    + eapply Hmore; cbn; try reflexivity; try lia; try exact I; now rewrite app_nil_r.
    + eapply Hmore; cbn; try reflexivity; try lia.
      repeat split; [congruence | discriminate | discriminate].
    + eapply Hmore; cbn; try reflexivity; try lia; try exact I; now rewrite app_nil_r.
    + destruct (includes message Retry.msg_context_invalid).
      * eapply Hone; cbn; try reflexivity; try lia; try exact I; now rewrite app_nil_r.
      * destruct (5 <=? _); [eapply Hone | eapply Hmore];
          cbn; try reflexivity; try lia; try exact I; now rewrite app_nil_r.
Qed.

Lemma filter_failures (rs : list Batch.Result) :
  Forall (fun r => Batch.success r = false) rs ->
  filter (fun r => negb (Batch.success r)) rs = rs.
Proof.
  induction 1 as [|r rs Hr _ IH]; simpl; [reflexivity|]. now rewrite Hr, IH.
Qed.

(** The nodes that have text. *)
Definition withText (elements : list Seg.Element) : list Seg.Element :=
  filter (fun el => 0 <? length (trim (Seg.textContent el))) elements.

Hypothesis always_rejected :
  forall i, Retry.runtimeId (env i) = true /\ Retry.isTranslating (env i) = true /\
            exists message, Retry.response (env i) = Retry.Rejected message /\
                            includes message Retry.msg_context_invalid = false.

Lemma batch_loop_rejected elements : forall i st,
  Forall (fun r => Batch.success r = false) (Batch.results st) ->
  length (Batch.results st) = Batch.requests st ->
  Batch.requests st < 5 ->
  Batch.applied st = [] ->
  Batch.notified st = false ->
  let b := Batch.loop env elements i st in
  Batch.requests b = Nat.min 5 (Batch.requests st + length (withText elements)) /\
  length (Batch.results b) = Batch.requests b /\
  Forall (fun r => Batch.success r = false) (Batch.results b) /\
  Batch.applied b = [] /\
  Batch.notified b = (5 <=? Batch.requests st + length (withText elements)).
Proof.
  induction elements as [|el rest IH]; intros i st Hf Hl Hr Ha Hn; cbv zeta.
  - cbn [Batch.loop]. unfold withText. cbn [filter length]. rewrite Nat.add_0_r.
    replace (5 <=? Batch.requests st) with false by (symmetry; apply Nat.leb_gt; lia).
    repeat split; auto. lia.
  - cbn [Batch.loop]. destruct (always_rejected i) as (H1 & H2 & message & H3 & H4).
    rewrite H1, H2, H3. cbn [negb]. unfold withText. cbn [filter]. fold (withText rest).
    destruct (trim (Seg.textContent el)) as [|c0 t0] eqn:Et.
    + cbn [length Nat.ltb Nat.leb]. apply IH; assumption.
    + cbn [length]. replace (0 <? S (length t0)) with true by reflexivity.
      rewrite H4. cbv zeta.
      set (results' := Batch.results st ++ [Batch.Failure el (Some (c0 :: t0)) message]).
      assert (Hf' : Forall (fun r => Batch.success r = false) results').
      { apply Forall_app. split; [exact Hf | constructor; [reflexivity | constructor]]. }
      assert (Hl' : length results' = S (Batch.requests st)).
      { unfold results'. rewrite length_app, Hl. simpl. lia. }
      assert (Hrecent : length (filter (fun r => negb (Batch.success r))
                                  (Batch.slice_last 5 results'))
                        = S (Batch.requests st)).
      { unfold Batch.slice_last. rewrite Hl'.
        replace (S (Batch.requests st) - 5) with 0 by lia. cbn [skipn].
        now rewrite (filter_failures results' Hf'). }
      rewrite Hrecent. cbn [length].
      destruct (5 <=? S (Batch.requests st)) eqn:E.
      * apply Nat.leb_le in E.
        cbn [Batch.requests Batch.results Batch.applied Batch.notified].
        replace (5 <=? Batch.requests st + S (length (withText rest))) with true
          by (symmetry; apply Nat.leb_le; lia).
        repeat split; auto; lia.
      * apply Nat.leb_gt in E.
        replace (Batch.requests st + S (length (withText rest)))
          with (S (Batch.requests st) + length (withText rest)) by lia.
        apply (IH (S i)
                 {| Batch.results := results'; Batch.applied := Batch.applied st;
                    Batch.requests := S (Batch.requests st);
                    Batch.invalidated := Batch.invalidated st;
                    Batch.notified := Batch.notified st |}); cbn; auto.
Qed.

End BatchProperties.

(** X26. [translateBatch] gives every node at most one result, and the
    results are in the order of the nodes; the translations it applies are
    those of its successes, in order; a success carries the trimmed text of
    its node and a translation that are not empty; and it asks for at most
    one translation per result. *)
Theorem batch_results_follow_nodes :
  forall (env : nat -> Retry.Attempt) (elements : list Seg.Element),
    let b := Batch.translateBatch env elements in
    Subseq _ (map Batch.element (Batch.results b)) elements /\
    length (Batch.results b) <= length elements /\
    Batch.applied b = successes (Batch.results b) /\
    Batch.requests b <= length (Batch.results b) /\
    Forall sound_result (Batch.results b).
Proof.
  intros env elements b. unfold b, Batch.translateBatch.
  destruct (batch_loop_results env elements 0
              {| Batch.results := []; Batch.applied := []; Batch.requests := 0;
                 Batch.invalidated := false; Batch.notified := false |})
    as (new & Hr & Hs & Ha & Hq & Hf).
  cbn in Hr, Ha, Hq. rewrite Hr, Ha.
  split; [exact Hs|]. split.
  - rewrite <- (length_map Batch.element). now apply Subseq_length.
  - split; [reflexivity|]. split; [exact Hq | exact Hf].
Qed.

(** X27. When every request is rejected (with an error that is not the
    context error), [translateBatch] gives up after five: it asks once for
    each node that has text until five have failed, applies nothing, and
    shows its warning exactly when five failed. *)
Theorem batch_gives_up_after_five_failures :
  forall (env : nat -> Retry.Attempt) (elements : list Seg.Element),
    (forall i, Retry.runtimeId (env i) = true /\ Retry.isTranslating (env i) = true /\
               exists message, Retry.response (env i) = Retry.Rejected message /\
                               includes message Retry.msg_context_invalid = false) ->
    let b := Batch.translateBatch env elements in
    Batch.requests b = Nat.min 5 (length (withText elements)) /\
    length (Batch.results b) = Batch.requests b /\
    Forall (fun r => Batch.success r = false) (Batch.results b) /\
    Batch.applied b = [] /\
    Batch.notified b = (5 <=? length (withText elements)).
Proof.
  intros env elements Henv b.
  apply (batch_loop_rejected env Henv elements 0
           {| Batch.results := []; Batch.applied := []; Batch.requests := 0;
              Batch.invalidated := false; Batch.notified := false |});
    cbn; auto. lia.
Qed.

(** Every request fails with the message ["boom"]. *)
Definition env_boom : nat -> Retry.Attempt :=
  fun _ => {| Retry.runtimeId := true; Retry.isTranslating := true;
              Retry.response := Retry.Rejected (lit "boom") |}.

Lemma batch_gives_up_after_five_failures_witness :
  Batch.requests (Batch.translateBatch env_boom (repeat short_node_a 7)) = 5.
Proof.
  destruct (batch_gives_up_after_five_failures env_boom (repeat short_node_a 7))
    as [H _].
  - intros i. split; [reflexivity|]. split; [reflexivity|].
    exists (lit "boom"). split; reflexivity.
  - exact H.
Defined.

(** ** Cutting a text into chunks for a retry *)

Lemma chunk_fold maxChunkSize sentences : forall chunks currentChunk,
  Forall (fun c => trim c = c) chunks ->
  Forall (fun c => trim c = c)
    (fst (fold_left (Recovery.chunkStep maxChunkSize) sentences (chunks, currentChunk))).
Proof.
  induction sentences as [|s sentences IH]; intros chunks cur H; simpl; [exact H|].
  destruct (_ && _); apply IH; [|exact H].
  apply Forall_app. split; [exact H|]. constructor; [apply trim_idempotent | constructor].
Qed.

Lemma split_class_no_separator isSep (s : jsstring) :
  (forall c, In c s -> isSep c = false) -> split_class isSep s = [s].
Proof.
  induction s as [|c s IH]; intros H; simpl; [reflexivity|].
  rewrite (H c (or_introl eq_refl)), IH; [reflexivity|].
  intros c' Hc'. apply H. now right.
Qed.

(** X28. Every chunk [splitTextIntoChunks] returns is a non-empty text with
    no white space at either end.  The size limit is only looked at between
    sentences: a text without a sentence terminator comes back as one chunk,
    its trimmed form, however long it is (and as no chunk when it is
    blank). *)
Theorem chunks_are_trimmed_texts :
  forall (text : jsstring) (maxChunkSize : nat),
    Forall (fun chunk => chunk <> [] /\ trim chunk = chunk)
      (Recovery.splitTextIntoChunks text maxChunkSize) /\
    ((forall c, In c text -> Reassembly.isSentenceEnder c = false) ->
     Recovery.splitTextIntoChunks text maxChunkSize
     = match trim text with
       | [] => []
       | _ :: _ => [trim text]
       end).
Proof.
  intros text maxChunkSize. split.
  - unfold Recovery.splitTextIntoChunks.
    pose proof (chunk_fold maxChunkSize
                  (split_class Reassembly.isSentenceEnder text) [] []
                  (Forall_nil _)) as H.
    destruct (fold_left _ _ _) as [chunks cur]. cbn [fst] in H. cbv zeta.
    apply Forall_forall. intros c Hc. apply filter_In in Hc as [Hc Hlen].
    split.
    + intros ->. discriminate.
    + assert (Hall : Forall (fun c => trim c = c)
                       (match trim cur with
                        | [] => chunks
                        | _ :: _ => chunks ++ [trim cur]
                        end)).
      { destruct (trim cur) eqn:E; [exact H|]. rewrite <- E.
        apply Forall_app. split; [exact H|].
        constructor; [apply trim_idempotent | constructor]. }
      rewrite Forall_forall in Hall. now apply Hall.
  - intros Hno. unfold Recovery.splitTextIntoChunks.
    rewrite (split_class_no_separator _ text Hno).
    cbn [fold_left Recovery.chunkStep length]. rewrite andb_false_r.
    cbn [app]. destruct (trim text) eqn:E; reflexivity.
Qed.

(** ** The size of a cache key *)

Lemma toInt32_range z : (- 2 ^ 31 <= toInt32 z < 2 ^ 31)%Z.
Proof.
  unfold toInt32.
  assert (H : (0 <= z mod 2 ^ 32 < 2 ^ 32)%Z) by (apply Z.mod_pos_bound; lia).
  destruct (z mod 2 ^ 32 <? 2 ^ 31)%Z eqn:E;
    [apply Z.ltb_lt in E | apply Z.ltb_ge in E]; lia.
Qed.

Lemma hash_range str : forall hash,
  (- 2 ^ 31 <= hash < 2 ^ 31)%Z ->
  (- 2 ^ 31 <= fold_left Cache.hashStep str hash < 2 ^ 31)%Z.
Proof.
  induction str as [|c str IH]; intros hash H; simpl; [exact H|].
  apply IH. unfold Cache.hashStep, and32. apply toInt32_range.
Qed.

Lemma digits36_length fuel : forall n acc k,
  (0 <= n < 36 * 36 ^ Z.of_nat k)%Z -> k < fuel ->
  length acc + 1 <= length (digits36 fuel n acc) <= length acc + S k.
Proof.
  induction fuel as [|fuel IH]; intros n acc k Hn Hk; [lia|].
  cbn [digits36]. destruct (n / 36 =? 0)%Z eqn:E.
  - cbn [length]. lia.
  - apply Z.eqb_neq in E.
    destruct k as [|k].
    + exfalso. apply E. apply Z.div_small. simpl in Hn. lia.
    + assert (Hq : (0 <= n / 36 < 36 * 36 ^ Z.of_nat k)%Z).
      { split; [apply Z.div_pos; lia|].
        apply Z.div_lt_upper_bound; [lia|].
        rewrite Nat2Z.inj_succ, Z.pow_succ_r in Hn by lia. lia. }
      specialize (IH (n / 36)%Z (digit36 (n mod 36) :: acc) k Hq ltac:(lia)).
      cbn [length] in IH. lia.
Qed.

(** X29. A cache key has between 1 and 7 characters, whatever the text and
    the settings: it is the base-36 numeral of a 32-bit integer.  All texts
    and settings thus share at most 2^32 keys. *)
Theorem cache_key_is_short :
  forall (text : jsstring) (settings : Cache.Settings),
    1 <= length (Cache.generateCacheKey text settings) <= 7 /\
    exists hash, (- 2 ^ 31 <= hash < 2 ^ 31)%Z /\
                 Cache.generateCacheKey text settings = toString36 hash.
Proof.
  intros text settings. unfold Cache.generateCacheKey. cbv zeta.
  set (str := stringifyProps _).
  assert (H : (- 2 ^ 31 <= fold_left Cache.hashStep str 0 < 2 ^ 31)%Z).
  { apply hash_range. lia. }
  split; [|exists (fold_left Cache.hashStep str 0%Z); split; [exact H | reflexivity]].
  generalize dependent (fold_left Cache.hashStep str 0%Z). intros hash H.
  unfold toString36. destruct (hash <? 0)%Z eqn:E.
  - apply Z.ltb_lt in E.
    assert (Hd := digits36_length 64 (- hash) [] 5).
    cbn [length] in *. specialize (Hd ltac:(simpl; lia) ltac:(lia)). lia.
  - apply Z.ltb_ge in E.
    assert (Hd := digits36_length 64 hash [] 5).
    cbn [length] in *. specialize (Hd ltac:(simpl; lia) ltac:(lia)). lia.
Qed.

(** ** The translation of a merged segment, handed to its groups *)


Section MergedApply.

Variable inside : Seg.Element -> Seg.Element -> bool.
Variable textContentOf : Job.Dom -> Seg.Element -> jsstring.
Variable parts : list jsstring.

(** The page when the call starts. *)
Variable dom0 : Job.Dom.

(** What is written to a node changes the text of no node that is neither
    inside it nor around it. *)
Hypothesis text_local :
  forall d e c x,
    x <> e -> inside x e = false -> inside e x = false ->
    textContentOf (Job.write inside d e c) x = textContentOf d x.








End MergedApply.


